(** * The danmaku overlay: scheduler (DanmakuManager) and floating unit
      (DanmakuComment)

    A shallow embedding of the two React components of the repository
    that carry state: [DanmakuManager], which decides which comments are
    released on screen and when the replay loop restarts, and
    [DanmakuComment], one floating comment with its animation and its
    like control.

    Conventions of the embedding.

    - A [useState] cell is a field of a record; a [useRef] cell is a field
      that callbacks read and write directly.
    - A function declared inside a component body is a closure over the
      state constants of the render that created it.  Where the source
      keeps such a closure alive across renders (a [setTimeout] callback,
      an effect with a fixed dependency list, the [onComplete] a unit
      stores in [animation.onfinish]) the captured render is an explicit
      argument [env] of the embedded function, and the live cells are read
      from the machine state.  State setters called with an updater
      function ([setX(prev => ...)]) act on the live cell.
    - The page mounts the application with [ReactDOM.createRoot]: the
      state updates made during one task (a timer callback, a finish
      event, a call of [window.addDanmaku]) are applied together, and the
      render that follows sees all of them.
    - A JavaScript number is the rational it denotes, and an arithmetic
      operation on numbers is the exact operation followed by the
      rounding of module [Binary64].
    - [Math.random()] is an explicit argument, a rational in [0,1).
    - [Date.now() + Math.random()], the display token of a unit, is a fresh
      number taken from a counter.
    - Times are integer milliseconds. *)

From Stdlib Require Import ZArith QArith Qround Qpower Qabs Lia Lqa Permutation.
From Stdlib Require Import Uint63 PrimFloat SpecFloat FloatOps.
From Stdlib Require Import Ascii String.
From stdpp Require Import base gmap sets list strings.

Set Warnings "-inexact-float,-abstract-large-number,-clear-no-such-hyp".

Local Open Scope Z_scope.
Local Open Scope nat_scope.

(* ================================================================== *)
(** ** JavaScript strings *)

Module JS.

(** A string is its sequence of UTF-16 code units. *)
Definition str := list N.

(** WhiteSpace and LineTerminator code points, the characters that
    [String.prototype.trim] strips. *)
Definition isWhiteSpace (c : N) : bool :=
  match c with
  | 9 | 10 | 11 | 12 | 13 | 32 | 160 | 5760
  | 8232 | 8233 | 8239 | 8287 | 12288 | 65279 => true
  | _ => (8192 <=? c) && (c <=? 8202)
  end%N.

Fixpoint trimStart (s : str) : str :=
  match s with
  | [] => []
  | c :: s' => if isWhiteSpace c then trimStart s' else s
  end.

Definition trimEnd (s : str) : str := rev (trimStart (rev s)).

Definition trim (s : str) : str := trimEnd (trimStart s).

Definition isEmpty (s : str) : bool :=
  match s with [] => true | _ => false end.

(** Code units of an ASCII literal, for writing examples. *)
Definition ofString (s : string) : str :=
  map N_of_ascii (list_ascii_of_string s).

End JS.

(* ================================================================== *)
(** ** Binary64 arithmetic *)

(** JavaScript numbers are IEEE 754 binary64 values, and every
    arithmetic operation returns the binary64 number nearest to the
    exact result, a tie going to the number with the even significand.
    A finite binary64 number is a rational: [round] is that rounding on
    the rationals, so that the sum of the numbers [x] and [y] is
    [round (x + y)].  Results beyond the largest finite number, about
    1.8e308, which the engine turns into [Infinity], are not modelled. *)
Module Binary64.
Local Open Scope Q_scope.

(** The exponent [e] with [2^e <= a < 2^(e+1)], for positive [a]. *)
Definition ilog2 (a : Q) : Z :=
  let e0 := (Z.log2 (Qnum a) - Z.log2 (Zpos (Qden a)))%Z in
  if Qle_bool (2 ^ e0) a then e0 else (e0 - 1)%Z.

(** The exponent of the unit in the last place of the numbers around
    [a]: 53 significant bits, and the fixed spacing [2^-1074] of the
    subnormal numbers below [2^-1022]. *)
Definition ulpExponent (a : Q) : Z := (Z.max (ilog2 a) (-1022) - 52)%Z.

(** The nearest integer, ties to even. *)
Definition roundToEven (z : Q) : Z :=
  let f := Qfloor z in
  match Qcompare (z - inject_Z f) (1 # 2) with
  | Lt => f
  | Gt => (f + 1)%Z
  | Eq => if Z.even f then f else (f + 1)%Z
  end.

Definition roundPositive (a : Q) : Q :=
  Qred (inject_Z (roundToEven (a / 2 ^ ulpExponent a)) * 2 ^ ulpExponent a).

Definition round (x : Q) : Q :=
  match Qnum x with
  | Z0 => 0
  | Zpos _ => roundPositive x
  | Zneg _ => - roundPositive (- x)
  end.

(** The rational a finite value of the hardware binary64 type denotes. *)
Definition ofFloat (f : float) : Q :=
  match Prim2SF f with
  | S754_finite s m e =>
      Qred ((if s then -1 else 1) * inject_Z (Zpos m) * 2 ^ e)
  | _ => 0
  end.

End Binary64.

(* ================================================================== *)
(** ** DanmakuComment: one floating comment *)

Module DanmakuComment.

(** *** Render scale *)

(** [getScale]: [baseScale + (likes * scalePerLike)].  The two literals
    denote the binary64 numbers nearest to 0.8 and 0.02, [likes] is a
    number, and the product and the sum are rounded. *)
Definition baseScale : Q := Binary64.round 0.8.
Definition scalePerLike : Q := Binary64.round 0.02.
Definition getScale (likes : Q) : Q :=
  Binary64.round (baseScale + Binary64.round (likes * scalePerLike))%Q.

(** A like count as a number: the integers up to 2^53 are binary64
    numbers. *)
Definition count (likes : Z) : Q := inject_Z likes.

(** The same expression on the hardware binary64 type. *)
Definition getScale64 (likes : float) : float :=
  (0.8 + (likes * 0.02))%float.

Definition float_of_Z (n : Z) : float :=
  PrimFloat.of_uint63 (Uint63.of_Z n).

(** [getScale] and [getScale64] return the same number for the like
    counts [0 .. n - 1]. *)
Definition agree64_upto (n : nat) : bool :=
  forallb (fun k => Qeq_bool (Binary64.ofFloat (getScale64 (float_of_Z (Z.of_nat k))))
                             (getScale (count (Z.of_nat k))))
          (seq 0 n).

(** *** Like control *)

(** What a unit shares with the rest of the browser: the
    [liked_danmaku] entry of [localStorage] (absent reads as the empty
    array) and the calls made to the [onLike] prop, which the manager
    turns into like-increment requests to the store. *)
Record Browser := {
  liked_danmaku : list string;
  onLikeCalls : list string
}.

(** Props and state cells of a unit that the like control uses. *)
Record Likes := {
  commentId : option string;
  isLiked : bool;
  currentLikes : nat
}.

(** Truthiness of the [commentId] prop: [null] and the empty string are
    falsy. *)
Definition truthy (cid : option string) : bool :=
  match cid with
  | Some s => negb (String.eqb s "")
  | None => false
  end.

(** The unit as first rendered: [useState(false)], [useState(likesCount)]. *)
Definition create (cid : option string) (likesCount : nat) : Likes :=
  {| commentId := cid; isLiked := false; currentLikes := likesCount |}.

(** The effect "check if already liked from localStorage". *)
Definition checkLiked (b : Browser) (u : Likes) : Likes :=
  match commentId u with
  | Some c =>
      if truthy (commentId u)
      then {| commentId := commentId u;
              isLiked := existsb (String.eqb c) (liked_danmaku b);
              currentLikes := currentLikes u |}
      else u
  | None => u
  end.

(** A unit on screen: created, then the effect has run. *)
Definition mountLikes (b : Browser) (cid : option string) (likesCount : nat)
  : Likes :=
  checkLiked b (create cid likesCount).

(** [handleLike], one click on the like control. *)
Definition handleLike (ub : Likes * Browser) : Likes * Browser :=
  let (u, b) := ub in
  match commentId u with
  | Some c =>
      if negb (truthy (commentId u)) then ub
      else if isLiked u then ub
      else ({| commentId := commentId u;
               isLiked := true;
               currentLikes := currentLikes u + 1 |},
            {| liked_danmaku := liked_danmaku b ++ [c];
               onLikeCalls := onLikeCalls b ++ [c] |})
  | None => ub
  end.

(** [n] clicks in a row. *)
Fixpoint clicks (n : nat) (ub : Likes * Browser) : Likes * Browser :=
  match n with
  | 0 => ub
  | S n' => clicks n' (handleLike ub)
  end.


(** *** Traversal animation *)

(** The Web Animations object held in [animationRef]. *)
Inductive PlayState := running | paused.

Record Animation := {
  playState : PlayState;
  currentTime : N
}.

Definition duration : N := 16000.

Record Unit := {
  animationRef : option Animation;
  isHovered : bool;
  onCompleteCalls : nat;
  unmounted : bool
}.

Inductive Event :=
| MouseEnter
| MouseLeave
| Elapse (ms : N)
| Teardown.

(** The animation effect: [element.animate(..., {duration: 16000})],
    stored in [animationRef]. *)
Definition mountUnit : Unit :=
  {| animationRef := Some {| playState := running; currentTime := 0%N |};
     isHovered := false;
     onCompleteCalls := 0;
     unmounted := false |}.

(** The effect cleanup: [cancel()] and [animationRef.current = null].
    Cancelling dispatches no finish event. *)
Definition cleanup (u : Unit) : Unit :=
  {| animationRef := None;
     isHovered := isHovered u;
     onCompleteCalls := onCompleteCalls u;
     unmounted := true |}.

(** [animation.onfinish]: [onComplete()] runs; the manager's
    [removeDanmaku] drops the unit from [activeDanmaku], so the commit
    that follows unmounts it and runs [cleanup]. *)
Definition onfinish (u : Unit) : Unit :=
  cleanup {| animationRef := animationRef u;
             isHovered := isHovered u;
             onCompleteCalls := onCompleteCalls u + 1;
             unmounted := unmounted u |}.

Definition step (e : Event) (u : Unit) : Unit :=
  if unmounted u then u
  else
    match e with
    | MouseEnter =>
        {| animationRef :=
             match animationRef u with
             | Some a => Some {| playState := paused;
                                 currentTime := currentTime a |}
             | None => None
             end;
           isHovered := true;
           onCompleteCalls := onCompleteCalls u;
           unmounted := false |}
    | MouseLeave =>
        {| animationRef :=
             match animationRef u with
             | Some a => Some {| playState := running;
                                 currentTime := currentTime a |}
             | None => None
             end;
           isHovered := false;
           onCompleteCalls := onCompleteCalls u;
           unmounted := false |}
    | Elapse ms =>
        match animationRef u with
        | Some a =>
            match playState a with
            | running =>
                if (duration <=? currentTime a + ms)%N
                then onfinish u
                else {| animationRef :=
                          Some {| playState := running;
                                  currentTime := (currentTime a + ms)%N |};
                        isHovered := isHovered u;
                        onCompleteCalls := onCompleteCalls u;
                        unmounted := false |}
            | paused => u
            end
        | None => u
        end
    | Teardown => cleanup u
    end.

Definition run (es : list Event) (u : Unit) : Unit :=
  foldl (fun u e => step e u) u es.

(** Running time granted by a trace before any teardown: the time that
    elapses while the pointer is not over the unit. *)
Fixpoint playedTime (hover : bool) (es : list Event) : N :=
  match es with
  | [] => 0
  | MouseEnter :: es' => playedTime true es'
  | MouseLeave :: es' => playedTime false es'
  | Elapse ms :: es' => (if hover then 0 else ms) + playedTime hover es'
  | Teardown :: _ => 0
  end%N.

(** A mounted unit that has not completed: its animation is paused
    exactly while the pointer is over it. *)
Definition travelling (hover : bool) (t : N) : Unit :=
  {| animationRef := Some {| playState := if hover then paused else running;
                             currentTime := t |};
     isHovered := hover;
     onCompleteCalls := 0;
     unmounted := false |}.

End DanmakuComment.

(* ================================================================== *)
(** ** Data held by the scheduler *)

(** A comment record as [loadComments] builds it from a store row.  The
  store decides the fields: [id] is [None] when [objectId] is missing,
  [text] is [None] when the stored text is missing or not a string.
  [createdAt] is the time [new Date(createdAt)] denotes, in ms. *)
Module Comment.
Record t := {
  id : option string;
  text : option JS.str;
  createdAt : Z;
  likesCount : nat
}.
End Comment.

(** An entry of [activeDanmaku]. *)
Module Danmaku.
Record t := {
  id : nat;
  text : JS.str;
  commentId : option string;
  likesCount : nat
}.
End Danmaku.

(* ================================================================== *)
(** ** DanmakuManager: the scheduler *)

Module DanmakuManager.

(** The [useState] cells.  A value of this type is also what a closure
    created during a render sees of them. *)
Record Hooks := {
  comments : list Comment.t;
  activeDanmaku : list Danmaku.t;
  playedCommentIds : gset (option string);
  autoPlayTimer : option nat;
  restartTimer : option nat
}.

(** The functions handed to [setTimeout], with the render whose
    [playNextBatch] they call. *)
Inductive Callback :=
| AutoPlayStart (env : Hooks) (newComments : list Comment.t)
| RestartStart (env : Hooks) (allComments : list Comment.t)
| NextBatch (env : Hooks) (remaining : list Comment.t)
| RestartLoop.

(** A pending timer of the host. *)
Record Timer := {
  handle : nat;
  delay : Q;
  callback : Callback
}.

(** The console lines kept by the embedding. *)
Inductive Log :=
| LogPlayNextBatch (n : nat)
| LogPlaying (c : Comment.t)
| LogRestarting.

(** The component instance together with what the host keeps for it:
    the timer table, the position in the [Math.random()] sequence, the
    [window.addDanmaku] bridge, the cleanup returned by the auto-play
    effect (its [timer] and its [restartTimer]), the dependencies the
    restart effect last ran with, and, for every mounted
    [DanmakuComment], the render that created the [onComplete] it keeps. *)
Record State := {
  hooks : Hooks;
  isProcessingRef : bool;
  isRestartingRef : bool;
  timers : list Timer;
  nextHandle : nat;
  nextToken : nat;
  drawn : nat;
  mounted : bool;
  bridge : bool;
  autoPlayCleanup : option (nat * option nat);
  restartDeps : nat * nat;
  units : list (nat * Hooks);
  console : list Log
}.

Definition hooks_comments (x : list Comment.t) (h : Hooks) : Hooks :=
  {| comments := x;
     activeDanmaku := activeDanmaku h;
     playedCommentIds := playedCommentIds h;
     autoPlayTimer := autoPlayTimer h;
     restartTimer := restartTimer h |}.

Definition hooks_activeDanmaku (x : list Danmaku.t) (h : Hooks) : Hooks :=
  {| comments := comments h;
     activeDanmaku := x;
     playedCommentIds := playedCommentIds h;
     autoPlayTimer := autoPlayTimer h;
     restartTimer := restartTimer h |}.

Definition hooks_playedCommentIds (x : gset (option string)) (h : Hooks) : Hooks :=
  {| comments := comments h;
     activeDanmaku := activeDanmaku h;
     playedCommentIds := x;
     autoPlayTimer := autoPlayTimer h;
     restartTimer := restartTimer h |}.

Definition hooks_autoPlayTimer (x : option nat) (h : Hooks) : Hooks :=
  {| comments := comments h;
     activeDanmaku := activeDanmaku h;
     playedCommentIds := playedCommentIds h;
     autoPlayTimer := x;
     restartTimer := restartTimer h |}.

Definition hooks_restartTimer (x : option nat) (h : Hooks) : Hooks :=
  {| comments := comments h;
     activeDanmaku := activeDanmaku h;
     playedCommentIds := playedCommentIds h;
     autoPlayTimer := autoPlayTimer h;
     restartTimer := x |}.

Definition with_hooks (x : Hooks) (st : State) : State :=
  {| hooks := x;
     isProcessingRef := isProcessingRef st;
     isRestartingRef := isRestartingRef st;
     timers := timers st;
     nextHandle := nextHandle st;
     nextToken := nextToken st;
     drawn := drawn st;
     mounted := mounted st;
     bridge := bridge st;
     autoPlayCleanup := autoPlayCleanup st;
     restartDeps := restartDeps st;
     units := units st;
     console := console st |}.

Definition with_isProcessingRef (x : bool) (st : State) : State :=
  {| hooks := hooks st;
     isProcessingRef := x;
     isRestartingRef := isRestartingRef st;
     timers := timers st;
     nextHandle := nextHandle st;
     nextToken := nextToken st;
     drawn := drawn st;
     mounted := mounted st;
     bridge := bridge st;
     autoPlayCleanup := autoPlayCleanup st;
     restartDeps := restartDeps st;
     units := units st;
     console := console st |}.

Definition with_isRestartingRef (x : bool) (st : State) : State :=
  {| hooks := hooks st;
     isProcessingRef := isProcessingRef st;
     isRestartingRef := x;
     timers := timers st;
     nextHandle := nextHandle st;
     nextToken := nextToken st;
     drawn := drawn st;
     mounted := mounted st;
     bridge := bridge st;
     autoPlayCleanup := autoPlayCleanup st;
     restartDeps := restartDeps st;
     units := units st;
     console := console st |}.

Definition with_timers (x : list Timer) (st : State) : State :=
  {| hooks := hooks st;
     isProcessingRef := isProcessingRef st;
     isRestartingRef := isRestartingRef st;
     timers := x;
     nextHandle := nextHandle st;
     nextToken := nextToken st;
     drawn := drawn st;
     mounted := mounted st;
     bridge := bridge st;
     autoPlayCleanup := autoPlayCleanup st;
     restartDeps := restartDeps st;
     units := units st;
     console := console st |}.

Definition with_nextHandle (x : nat) (st : State) : State :=
  {| hooks := hooks st;
     isProcessingRef := isProcessingRef st;
     isRestartingRef := isRestartingRef st;
     timers := timers st;
     nextHandle := x;
     nextToken := nextToken st;
     drawn := drawn st;
     mounted := mounted st;
     bridge := bridge st;
     autoPlayCleanup := autoPlayCleanup st;
     restartDeps := restartDeps st;
     units := units st;
     console := console st |}.

Definition with_nextToken (x : nat) (st : State) : State :=
  {| hooks := hooks st;
     isProcessingRef := isProcessingRef st;
     isRestartingRef := isRestartingRef st;
     timers := timers st;
     nextHandle := nextHandle st;
     nextToken := x;
     drawn := drawn st;
     mounted := mounted st;
     bridge := bridge st;
     autoPlayCleanup := autoPlayCleanup st;
     restartDeps := restartDeps st;
     units := units st;
     console := console st |}.

Definition with_drawn (x : nat) (st : State) : State :=
  {| hooks := hooks st;
     isProcessingRef := isProcessingRef st;
     isRestartingRef := isRestartingRef st;
     timers := timers st;
     nextHandle := nextHandle st;
     nextToken := nextToken st;
     drawn := x;
     mounted := mounted st;
     bridge := bridge st;
     autoPlayCleanup := autoPlayCleanup st;
     restartDeps := restartDeps st;
     units := units st;
     console := console st |}.

Definition with_mounted (x : bool) (st : State) : State :=
  {| hooks := hooks st;
     isProcessingRef := isProcessingRef st;
     isRestartingRef := isRestartingRef st;
     timers := timers st;
     nextHandle := nextHandle st;
     nextToken := nextToken st;
     drawn := drawn st;
     mounted := x;
     bridge := bridge st;
     autoPlayCleanup := autoPlayCleanup st;
     restartDeps := restartDeps st;
     units := units st;
     console := console st |}.

Definition with_bridge (x : bool) (st : State) : State :=
  {| hooks := hooks st;
     isProcessingRef := isProcessingRef st;
     isRestartingRef := isRestartingRef st;
     timers := timers st;
     nextHandle := nextHandle st;
     nextToken := nextToken st;
     drawn := drawn st;
     mounted := mounted st;
     bridge := x;
     autoPlayCleanup := autoPlayCleanup st;
     restartDeps := restartDeps st;
     units := units st;
     console := console st |}.

Definition with_autoPlayCleanup (x : option (nat * option nat)) (st : State) : State :=
  {| hooks := hooks st;
     isProcessingRef := isProcessingRef st;
     isRestartingRef := isRestartingRef st;
     timers := timers st;
     nextHandle := nextHandle st;
     nextToken := nextToken st;
     drawn := drawn st;
     mounted := mounted st;
     bridge := bridge st;
     autoPlayCleanup := x;
     restartDeps := restartDeps st;
     units := units st;
     console := console st |}.

Definition with_restartDeps (x : nat * nat) (st : State) : State :=
  {| hooks := hooks st;
     isProcessingRef := isProcessingRef st;
     isRestartingRef := isRestartingRef st;
     timers := timers st;
     nextHandle := nextHandle st;
     nextToken := nextToken st;
     drawn := drawn st;
     mounted := mounted st;
     bridge := bridge st;
     autoPlayCleanup := autoPlayCleanup st;
     restartDeps := x;
     units := units st;
     console := console st |}.

Definition with_units (x : list (nat * Hooks)) (st : State) : State :=
  {| hooks := hooks st;
     isProcessingRef := isProcessingRef st;
     isRestartingRef := isRestartingRef st;
     timers := timers st;
     nextHandle := nextHandle st;
     nextToken := nextToken st;
     drawn := drawn st;
     mounted := mounted st;
     bridge := bridge st;
     autoPlayCleanup := autoPlayCleanup st;
     restartDeps := restartDeps st;
     units := x;
     console := console st |}.

Definition with_console (x : list Log) (st : State) : State :=
  {| hooks := hooks st;
     isProcessingRef := isProcessingRef st;
     isRestartingRef := isRestartingRef st;
     timers := timers st;
     nextHandle := nextHandle st;
     nextToken := nextToken st;
     drawn := drawn st;
     mounted := mounted st;
     bridge := bridge st;
     autoPlayCleanup := autoPlayCleanup st;
     restartDeps := restartDeps st;
     units := units st;
     console := x |}.

(** *** Host services *)

Definition log (l : Log) (st : State) : State :=
  with_console (console st ++ [l]) st.

(** [Math.random()]: the next element of the host's sequence. *)
Definition rand (random : nat -> Q) (st : State) : Q * State :=
  (random (drawn st), with_drawn (S (drawn st)) st).

Definition setTimeout (cb : Callback) (ms : Q) (st : State) : nat * State :=
  (nextHandle st,
   with_nextHandle (S (nextHandle st))
     (with_timers
        (timers st ++ [{| handle := nextHandle st; delay := ms; callback := cb |}])
        st)).

Definition clearTimeout (h : nat) (st : State) : State :=
  with_timers (List.filter (fun t => negb (handle t =? h)) (timers st)) st.

Definition findTimer (h : nat) (ts : list Timer) : option Timer :=
  List.find (fun t => handle t =? h) ts.

(** *** State setters: ignored once the component is unmounted *)

Definition setHooks (f : Hooks -> Hooks) (st : State) : State :=
  if mounted st then with_hooks (f (hooks st)) st else st.

Definition setComments (cs : list Comment.t) : State -> State :=
  setHooks (hooks_comments cs).

Definition setActiveDanmaku (f : list Danmaku.t -> list Danmaku.t)
  : State -> State :=
  setHooks (fun h => hooks_activeDanmaku (f (activeDanmaku h)) h).

Definition setPlayedCommentIds
  (f : gset (option string) -> gset (option string)) : State -> State :=
  setHooks (fun h => hooks_playedCommentIds (f (playedCommentIds h)) h).

Definition setAutoPlayTimer (t : option nat) : State -> State :=
  setHooks (hooks_autoPlayTimer t).

Definition setRestartTimer (t : option nat) : State -> State :=
  setHooks (hooks_restartTimer t).

(** *** The filter and the jittered ordering of the two effects *)

(** [comment.text && typeof comment.text === 'string' &&
    comment.text.trim() !== ''] *)
Definition validText (c : Comment.t) : bool :=
  match Comment.text c with
  | Some s => negb (JS.isEmpty s) && negb (JS.isEmpty (JS.trim s))
  | None => false
  end.

(** [!playedCommentIds.has(comment.id)] *)
Definition unplayed (played : gset (option string)) (c : Comment.t) : bool :=
  bool_decide (Comment.id c ∉ played).

(** The comparator: [timeSort + randomFactor], with
    [timeSort = new Date(a.createdAt) - new Date(b.createdAt)] and
    [randomFactor = (Math.random() - 0.5) * 2000] computed from the
    draw [u]; each operation yields the nearest binary64 number. *)
Definition timeSort (a b : Comment.t) : Q :=
  Binary64.round (inject_Z (Comment.createdAt a - Comment.createdAt b)).

Definition randomFactor (u : Q) : Q :=
  Binary64.round (Binary64.round (u - 0.5) * 2000)%Q.

Definition comparefn (u : Q) (a b : Comment.t) : Q :=
  Binary64.round (timeSort a b + randomFactor u)%Q.

(** [sortState.Compare(x, y) < 0]: one call of the comparator, which
    takes draw number [k]. *)
Definition less (random : nat -> Q) (k : nat) (x y : Comment.t) : bool :=
  negb (Qle_bool 0 (comparefn (random k) x y)).

(** [GallopLeft] and [GallopRight] look for the place of a key in a run
    [a], starting at [hint].  Both are the same procedure on the test
    "this element belongs before the key", [isLeft]: for [GallopLeft] it
    is [Compare(element, key) < 0], for [GallopRight] it is
    [Compare(key, element) >= 0].  [gallopScan] is the first loop, over
    the offsets 1, 3, 7, ... from [hint], rightwards when [a[hint]]
    belongs before the key and leftwards otherwise; a scan that runs off
    the run ends with [offset = maxOfs]. *)
Fixpoint gallopScan (isLeft : nat -> Comment.t -> bool) (a : list Comment.t)
         (dflt : Comment.t) (right : bool) (hint maxOfs : Z) (fuel k : nat)
         (lastOfs offset : Z) : Z * Z * nat :=
  match fuel with
  | 0 => (lastOfs, maxOfs, k)
  | S fuel' =>
      if (offset <? maxOfs)%Z then
        let i := if right then (hint + offset)%Z else (hint - offset)%Z in
        if Bool.eqb (isLeft k (nth (Z.to_nat i) a dflt)) right
        then gallopScan isLeft a dflt right hint maxOfs fuel' (S k)
                        offset (2 * offset + 1)%Z
        else (lastOfs, offset, S k)
      else (lastOfs, maxOfs, k)
  end.

(** The binary search that ends a gallop. *)
Fixpoint gallopSearch (isLeft : nat -> Comment.t -> bool) (a : list Comment.t)
         (dflt : Comment.t) (fuel k : nat) (lastOfs offset : Z) : Z * nat :=
  match fuel with
  | 0 => (offset, k)
  | S fuel' =>
      if (lastOfs <? offset)%Z then
        let m := (lastOfs + Z.shiftr (offset - lastOfs) 1)%Z in
        if isLeft k (nth (Z.to_nat m) a dflt)
        then gallopSearch isLeft a dflt fuel' (S k) (m + 1)%Z offset
        else gallopSearch isLeft a dflt fuel' (S k) lastOfs m
      else (offset, k)
  end.

Definition gallop (isLeft : nat -> Comment.t -> bool) (a : list Comment.t)
           (dflt : Comment.t) (hint : Z) (k : nat) : nat * nat :=
  let n := Z.of_nat (length a) in
  let fuel := S (length a) in
  let '(lastOfs, offset, k1) :=
    if isLeft k (nth (Z.to_nat hint) a dflt)
    then
      let '(l, o, k') :=
        gallopScan isLeft a dflt true hint (n - hint)%Z fuel (S k) 0%Z 1%Z in
      ((l + hint)%Z, (o + hint)%Z, k')
    else
      let '(l, o, k') :=
        gallopScan isLeft a dflt false hint (hint + 1)%Z fuel (S k) 0%Z 1%Z in
      ((hint - o)%Z, (hint - l)%Z, k') in
  let (r, k2) := gallopSearch isLeft a dflt fuel k1 (lastOfs + 1)%Z offset in
  (Z.to_nat r, k2).

Definition gallopLeft (random : nat -> Q) (key : Comment.t)
           (a : list Comment.t) (hint : Z) (k : nat) : nat * nat :=
  gallop (fun k x => less random k x key) a key hint k.

Definition gallopRight (random : nat -> Q) (key : Comment.t)
           (a : list Comment.t) (hint : Z) (k : nat) : nat * nat :=
  gallop (fun k x => negb (less random k key x)) a key hint k.

(** [kMinGallopWins] *)
Definition kMinGallopWins : nat := 7.

Inductive MergeMode := OneAtATime | Galloping.

(** The loops of [MergeLow] after its first element has been moved:
    [out] is what has been written, [A] what is left of the copy of the
    first run, [B] what is left of the second run; [minGallop] is the
    local variable and [stored] is [sortState.minGallop].  Label
    [Succeed] yields [out ++ A ++ B] (one of the two is empty), label
    [CopyB] yields [out ++ B ++ A]. *)
Fixpoint mergeLowLoop (random : nat -> Q) (fuel : nat) (mode : MergeMode)
         (out A B : list Comment.t) (minGallop stored nofWinsA nofWinsB k : nat)
  : list Comment.t * nat * nat :=
  match fuel with
  | 0 => (out ++ A ++ B, stored, k)
  | S fuel' =>
      match A, B with
      | a0 :: A', b0 :: B' =>
          match mode with
          | OneAtATime =>
              if less random k b0 a0 then
                match B' with
                | [] => ((out ++ [b0]) ++ A, stored, S k)
                | _ =>
                    if minGallop <=? S nofWinsB
                    then mergeLowLoop random fuel' Galloping (out ++ [b0]) A B'
                                      (S minGallop) stored 0 (S nofWinsB) (S k)
                    else mergeLowLoop random fuel' OneAtATime (out ++ [b0]) A B'
                                      minGallop stored 0 (S nofWinsB) (S k)
                end
              else
                match A' with
                | [_] => ((out ++ [a0]) ++ B ++ A', stored, S k)
                | _ =>
                    if minGallop <=? S nofWinsA
                    then mergeLowLoop random fuel' Galloping (out ++ [a0]) A' B
                                      (S minGallop) stored (S nofWinsA) 0 (S k)
                    else mergeLowLoop random fuel' OneAtATime (out ++ [a0]) A' B
                                      minGallop stored (S nofWinsA) 0 (S k)
                end
          | Galloping =>
              let minGallop := Nat.max 1 (minGallop - 1) in
              let (winsA, k1) := gallopRight random b0 A 0 k in
              let out1 := out ++ take winsA A in
              let A1 := drop winsA A in
              match A1 with
              | [] => (out1 ++ B, minGallop, k1)
              | a1 :: A1' =>
                  if (0 <? winsA) && (length A1 =? 1)
                  then (out1 ++ B ++ A1, minGallop, k1)
                  else
                    let out2 := out1 ++ [b0] in
                    match B' with
                    | [] => (out2 ++ A1, minGallop, k1)
                    | _ =>
                        let (winsB, k2) := gallopLeft random a1 B' 0 k1 in
                        let out3 := out2 ++ take winsB B' in
                        let B3 := drop winsB B' in
                        match B3 with
                        | [] => (out3 ++ A1, minGallop, k2)
                        | _ =>
                            let out4 := out3 ++ [a1] in
                            match A1' with
                            | [_] => (out4 ++ B3 ++ A1', minGallop, k2)
                            | _ =>
                                if (kMinGallopWins <=? winsA)
                                   || (kMinGallopWins <=? winsB)
                                then mergeLowLoop random fuel' Galloping out4 A1' B3
                                                  minGallop minGallop winsA winsB k2
                                else mergeLowLoop random fuel' OneAtATime out4 A1' B3
                                                  (S minGallop) (S minGallop) 0 0 k2
                            end
                        end
                    end
              end
          end
      | _, _ => (out ++ A ++ B, stored, k)
      end
  end.

Definition mergeLow (random : nat -> Q) (A B : list Comment.t)
           (stored k : nat) : list Comment.t * nat * nat :=
  match B with
  | [] => (A, stored, k)
  | b0 :: B' =>
      match B' with
      | [] => (b0 :: A, stored, k)
      | _ =>
          match A with
          | [_] => (b0 :: B' ++ A, stored, k)
          | _ => mergeLowLoop random (length A + length B) OneAtATime
                              [b0] A B' stored stored 0 0 k
          end
      end
  end.

(** A run without its last element, and that element. *)
Definition unsnoc (l : list Comment.t) : option (list Comment.t * Comment.t) :=
  match rev l with
  | [] => None
  | x :: r => Some (rev r, x)
  end.

(** The loops of [MergeHigh], which fills the merged range from its right
    end: [out] is what has been written, [A] what is left of the first
    run, [B] what is left of the copy of the second.  Label [Succeed]
    yields [A ++ B ++ out], label [CopyA] yields [B ++ A ++ out]. *)
Fixpoint mergeHighLoop (random : nat -> Q) (fuel : nat) (mode : MergeMode)
         (A B out : list Comment.t) (minGallop stored nofWinsA nofWinsB k : nat)
  : list Comment.t * nat * nat :=
  match fuel with
  | 0 => (A ++ B ++ out, stored, k)
  | S fuel' =>
      match unsnoc A, unsnoc B with
      | Some (A', aN), Some (B', bN) =>
          match mode with
          | OneAtATime =>
              if less random k bN aN then
                match A' with
                | [] => (B ++ aN :: out, stored, S k)
                | _ =>
                    if minGallop <=? S nofWinsA
                    then mergeHighLoop random fuel' Galloping A' B (aN :: out)
                                       (S minGallop) stored (S nofWinsA) 0 (S k)
                    else mergeHighLoop random fuel' OneAtATime A' B (aN :: out)
                                       minGallop stored (S nofWinsA) 0 (S k)
                end
              else
                match B' with
                | [_] => (B' ++ A ++ bN :: out, stored, S k)
                | _ =>
                    if minGallop <=? S nofWinsB
                    then mergeHighLoop random fuel' Galloping A B' (bN :: out)
                                       (S minGallop) stored 0 (S nofWinsB) (S k)
                    else mergeHighLoop random fuel' OneAtATime A B' (bN :: out)
                                       minGallop stored 0 (S nofWinsB) (S k)
                end
          | Galloping =>
              let minGallop := Nat.max 1 (minGallop - 1) in
              let (kA, k1) :=
                gallopRight random bN A (Z.of_nat (length A) - 1)%Z k in
              let winsA := length A - kA in
              let out1 := drop kA A ++ out in
              let A1 := take kA A in
              match unsnoc A1 with
              | None => (B ++ out1, minGallop, k1)
              | Some (A1', a1) =>
                  let out2 := bN :: out1 in
                  match B' with
                  | [_] => (B' ++ A1 ++ out2, minGallop, k1)
                  | _ =>
                      let (kB, k2) :=
                        gallopLeft random a1 B' (Z.of_nat (length B') - 1)%Z k1 in
                      let winsB := length B' - kB in
                      let out3 := drop kB B' ++ out2 in
                      let B3 := take kB B' in
                      match B3 with
                      | [] => (A1 ++ out3, minGallop, k2)
                      | _ =>
                          if (0 <? winsB) && (length B3 =? 1)
                          then (B3 ++ A1 ++ out3, minGallop, k2)
                          else
                            match A1' with
                            | [] => (B3 ++ a1 :: out3, minGallop, k2)
                            | _ =>
                                if (kMinGallopWins <=? winsA)
                                   || (kMinGallopWins <=? winsB)
                                then mergeHighLoop random fuel' Galloping
                                                   A1' B3 (a1 :: out3)
                                                   minGallop minGallop winsA winsB k2
                                else mergeHighLoop random fuel' OneAtATime
                                                   A1' B3 (a1 :: out3)
                                                   (S minGallop) (S minGallop) 0 0 k2
                            end
                      end
                  end
              end
          end
      | _, _ => (A ++ B ++ out, stored, k)
      end
  end.

Definition mergeHigh (random : nat -> Q) (A B : list Comment.t)
           (stored k : nat) : list Comment.t * nat * nat :=
  match unsnoc A with
  | None => (B, stored, k)
  | Some (A', aN) =>
      match A' with
      | [] => (B ++ [aN], stored, k)
      | _ =>
          match B with
          | [_] => (B ++ A' ++ [aN], stored, k)
          | _ => mergeHighLoop random (length A + length B) OneAtATime
                               A' B [aN] stored stored 0 0 k
          end
      end
  end.

(** [MergeAt]: the adjacent runs [A] and [B] become one.  The elements of
    [A] that belong before [B[0]] and those of [B] that belong after the
    last of [A] stay where they are. *)
Definition mergeAt (random : nat -> Q) (A B : list Comment.t)
           (stored k : nat) : list Comment.t * nat * nat :=
  match B with
  | [] => (A, stored, k)
  | b0 :: _ =>
      let (kA, k1) := gallopRight random b0 A 0 k in
      let A1 := drop kA A in
      match unsnoc A1 with
      | None => (A ++ B, stored, k1)
      | Some (_, aN) =>
          let (nB, k2) :=
            gallopLeft random aN B (Z.of_nat (length B) - 1)%Z k1 in
          let B1 := take nB B in
          match B1 with
          | [] => (A ++ B, stored, k2)
          | _ =>
              let '(m, stored', k3) :=
                if length A1 <=? length B1
                then mergeLow random A1 B1 stored k2
                else mergeHigh random A1 B1 stored k2 in
              (take kA A ++ m ++ drop nB B, stored', k3)
          end
      end
  end.

(** The loop of [CountAndMakeRun] after the first two elements: how many
    more elements continue the run. *)
Fixpoint runTail (random : nat -> Q) (isDescending : bool) (k : nat)
         (previousElement : Comment.t) (l : list Comment.t) : nat * nat :=
  match l with
  | [] => (0, k)
  | currentElement :: l' =>
      if Bool.eqb (less random k currentElement previousElement) isDescending
      then let (n, k') := runTail random isDescending (S k) currentElement l' in
           (S n, k')
      else (0, S k)
  end.

(** [CountAndMakeRun]: the length of the run the array starts with, and
    that run made ascending. *)
Definition countAndMakeRun (random : nat -> Q) (k : nat) (l : list Comment.t)
  : nat * list Comment.t * nat :=
  match l with
  | elementHigh :: elementLow :: l' =>
      let isDescending := less random k elementLow elementHigh in
      let (n, k') := runTail random isDescending (S k) elementLow l' in
      let run := take (2 + n) l in
      (2 + n, if isDescending then rev run else run, k')
  | _ => (length l, l, k)
  end.

(** The binary search of [BinaryInsertionSort] for the place of [pivot]
    in the sorted part [p]. *)
Fixpoint binarySearch (random : nat -> Q) (fuel k : nat) (pivot : Comment.t)
         (p : list Comment.t) (left right : nat) : nat * nat :=
  match fuel with
  | 0 => (left, k)
  | S fuel' =>
      if left <? right then
        let mid := left + (right - left) / 2 in
        if less random k pivot (nth mid p pivot)
        then binarySearch random fuel' (S k) pivot p left mid
        else binarySearch random fuel' (S k) pivot p (S mid) right
      else (left, k)
  end.

(** [BinaryInsertionSort]: the elements [todo] are inserted one by one
    into the sorted part [p]. *)
Fixpoint binaryInsertionSort (random : nat -> Q) (k : nat)
         (p todo : list Comment.t) : list Comment.t * nat :=
  match todo with
  | [] => (p, k)
  | pivot :: todo' =>
      let (left, k') :=
        binarySearch random (S (length p)) k pivot p 0 (length p) in
      binaryInsertionSort random k' (take left p ++ pivot :: drop left p) todo'
  end.

(** [ComputeMinRunLength] *)
Fixpoint minRunLoop (fuel : nat) (n r : N) : N :=
  match fuel with
  | 0 => (n + r)%N
  | S fuel' =>
      if (64 <=? n)%N
      then minRunLoop fuel' (N.shiftr n 1) (N.lor r (N.land n 1))
      else (n + r)%N
  end.

Definition computeMinRunLength (n : nat) : nat :=
  N.to_nat (minRunLoop n (N.of_nat n) 0%N).

(** The pending runs, the most recent first. *)
Definition runInvariantBroken (runs : list (list Comment.t)) : bool :=
  match runs with
  | Z :: Y :: X :: rest =>
      (length X <=? length Y + length Z)
      || match rest with
         | W :: _ => length W <=? length X + length Y
         | [] => false
         end
  | _ => false
  end.

(** [MergeCollapse] *)
Fixpoint mergeCollapse (random : nat -> Q) (fuel : nat)
         (runs : list (list Comment.t)) (stored k : nat)
  : list (list Comment.t) * nat * nat :=
  match fuel with
  | 0 => (runs, stored, k)
  | S fuel' =>
      match runs with
      | Z :: Y :: rest =>
          if runInvariantBroken runs then
            match rest with
            | X :: rest' =>
                if length X <? length Z
                then let '(m, s, k') := mergeAt random X Y stored k in
                     mergeCollapse random fuel' (Z :: m :: rest') s k'
                else let '(m, s, k') := mergeAt random Y Z stored k in
                     mergeCollapse random fuel' (m :: rest) s k'
            | [] => (runs, stored, k)
            end
          else if length Y <=? length Z
          then let '(m, s, k') := mergeAt random Y Z stored k in
               mergeCollapse random fuel' (m :: rest) s k'
          else (runs, stored, k)
      | _ => (runs, stored, k)
      end
  end.

(** [MergeForceCollapse] *)
Fixpoint mergeForceCollapse (random : nat -> Q) (fuel : nat)
         (runs : list (list Comment.t)) (stored k : nat)
  : list (list Comment.t) * nat * nat :=
  match fuel with
  | 0 => (runs, stored, k)
  | S fuel' =>
      match runs with
      | Z :: Y :: rest =>
          match rest with
          | X :: rest' =>
              if length X <? length Z
              then let '(m, s, k') := mergeAt random X Y stored k in
                   mergeForceCollapse random fuel' (Z :: m :: rest') s k'
              else let '(m, s, k') := mergeAt random Y Z stored k in
                   mergeForceCollapse random fuel' (m :: rest) s k'
          | [] => let '(m, s, k') := mergeAt random Y Z stored k in
                  mergeForceCollapse random fuel' (m :: rest) s k'
          end
      | _ => (runs, stored, k)
      end
  end.

(** The loop of [ArrayTimSortImpl] over what is left of the array. *)
Fixpoint sortRuns (random : nat -> Q) (fuel minRunLength : nat)
         (remaining : list Comment.t) (runs : list (list Comment.t))
         (stored k : nat) : list (list Comment.t) * nat * nat :=
  match fuel with
  | 0 => (runs, stored, k)
  | S fuel' =>
      match remaining with
      | [] => (runs, stored, k)
      | _ =>
          let '(currentRunLength, run, k1) := countAndMakeRun random k remaining in
          let '(currentRunLength, run, k2) :=
            if currentRunLength <? minRunLength then
              let forcedRunLength := Nat.min minRunLength (length remaining) in
              let (run', k') :=
                binaryInsertionSort
                  random k1 run
                  (take (forcedRunLength - currentRunLength)
                        (drop currentRunLength remaining)) in
              (forcedRunLength, run', k')
            else (currentRunLength, run, k1) in
          let '(runs', stored', k3) :=
            mergeCollapse random (S (length runs)) (run :: runs) stored k2 in
          sortRuns random fuel' minRunLength (drop currentRunLength remaining)
                   runs' stored' k3
      end
  end.

(** [Array.prototype.sort] is a service of the engine, and ECMAScript
    leaves its result implementation-defined when the comparator is not
    consistent, as this randomized one is.  The embedding is the sort of
    V8, the engine of Chrome and Node.js: TimSort, as its
    [third_party/v8/builtins/array-sort.tq] has it
    ([ArrayTimSortImpl]).  The array is cut into runs, a run shorter
    than the minimal run length being extended by binary insertion, and
    the pending runs are merged.  Every call of the comparator draws a
    fresh [Math.random()]; [k] counts the draws.  [runs] holds the
    pending runs, the most recent first, and [stored] is
    [sortState.minGallop]. *)
Definition sort (random : nat -> Q) (k : nat) (l : list Comment.t)
  : list Comment.t * nat :=
  if length l <? 2 then (l, k)
  else
    let '(runs, stored, k1) :=
      sortRuns random (length l) (computeMinRunLength (length l)) l []
               kMinGallopWins k in
    let '(runs', _, k2) :=
      mergeForceCollapse random (length runs) runs stored k1 in
    (concat (rev runs'), k2).

(** The sort as run by an effect: draws are taken from the host. *)
Definition sortComments (random : nat -> Q) (l : list Comment.t) (st : State)
  : list Comment.t * State :=
  let (sorted, k) := sort random (drawn st) l in
  (sorted, with_drawn k st).

(** *** Release *)

Definition isMobile (innerWidth : Z) : bool := (innerWidth <? 768)%Z.

(** [8 + Math.floor(Math.random() * 5)] on a narrow viewport,
    [20 + Math.floor(Math.random() * 16)] on a wide one. *)
Definition maxConcurrent (mobile : bool) (u : Q) : Z :=
  if mobile then (8 + Qfloor (u * 5))%Z else (20 + Qfloor (u * 16))%Z.

Definition perTick (mobile : bool) : Z := if mobile then 2%Z else 3%Z.

Definition canAdd (maxC : Z) (currentActive : nat) : Z :=
  Z.max 0 (maxC - Z.of_nat currentActive).

(** [Math.min(canAdd, commentsToPlay.length, isMobile ? 2 : 3)] *)
Definition toPlayNow (mobile : bool) (u : Q) (currentActive len : nat) : nat :=
  Z.to_nat
    (Z.min (Z.min (canAdd (maxConcurrent mobile u) currentActive) (Z.of_nat len))
           (perTick mobile)).

(** [2500 + Math.random() * 3000] on a narrow viewport,
    [1500 + Math.random() * 2000] on a wide one. *)
Definition randomDelay (mobile : bool) (u : Q) : Q :=
  if mobile then Binary64.round (2500 + Binary64.round (u * 3000))%Q
  else Binary64.round (1500 + Binary64.round (u * 2000))%Q.

(** [commentData?.id || null] *)
Definition idOrNull (i : option string) : option string :=
  match i with
  | Some s => if String.eqb s "" then None else Some s
  | None => None
  end.

(** [addDanmaku(text, commentData = null)].  The token
    [Date.now() + Math.random()] uses up one draw. *)
Definition addDanmaku (random : nat -> Q) (text : option JS.str)
           (commentData : option Comment.t) (st : State) : State :=
  match text with
  | Some s =>
      if JS.isEmpty s || JS.isEmpty (JS.trim s) then st
      else
        let (_, st) := rand random st in
        let newDanmaku :=
          {| Danmaku.id := nextToken st;
             Danmaku.text := JS.trim s;
             Danmaku.commentId :=
               match commentData with
               | Some c => idOrNull (Comment.id c)
               | None => None
               end;
             Danmaku.likesCount :=
               match commentData with
               | Some c => Comment.likesCount c
               | None => 0
               end |} in
        setActiveDanmaku (fun prev => prev ++ [newDanmaku])
                         (with_nextToken (S (nextToken st)) st)
  | None => st
  end.

(** The body of the [for] loop of [playNextBatch]. *)
Definition playOne (random : nat -> Q) (st : State) (comment : Comment.t)
  : State :=
  let st := log (LogPlaying comment) st in
  let st := addDanmaku random (Comment.text comment) (Some comment) st in
  setPlayedCommentIds (fun prev => prev ∪ {[ Comment.id comment ]}) st.

(** [playNextBatch(commentsToPlay)] of the render [env]:
    [activeDanmaku.length] is the length that render saw. *)
Definition playNextBatch (env : Hooks) (innerWidth : Z) (random : nat -> Q)
           (commentsToPlay : list Comment.t) (st : State) : State :=
  let st := log (LogPlayNextBatch (length commentsToPlay)) st in
  match commentsToPlay with
  | [] => st
  | _ :: _ =>
      let (u, st) := rand random st in
      let n := toPlayNow (isMobile innerWidth) u
                         (length (activeDanmaku env)) (length commentsToPlay) in
      let st := foldl (playOne random) st (take n commentsToPlay) in
      match drop n commentsToPlay with
      | [] => st
      | remaining =>
          let (u', st) := rand random st in
          snd (setTimeout (NextBatch env remaining)
                          (randomDelay (isMobile innerWidth) u') st)
      end
  end.

(** [removeDanmaku(id)] of the render [env]: [comments],
    [playedCommentIds] and [restartTimer] are the ones that render saw;
    [prev] and [isRestartingRef.current] are live. *)
Definition removeDanmaku (env : Hooks) (id : nat) (st : State) : State :=
  if mounted st then
    let updated :=
      List.filter (fun item => negb (Danmaku.id item =? id))
                  (activeDanmaku (hooks st)) in
    let st :=
      if (length updated =? 0)
         && (0 <? length (comments env))
         && (length (comments env) <=? size (playedCommentIds env))
         && negb (isRestartingRef st)
      then
        let st := with_isRestartingRef true st in
        let st := match restartTimer env with
                  | Some h => clearTimeout h st
                  | None => st
                  end in
        let (timer, st) := setTimeout RestartLoop 3000 st in
        setRestartTimer (Some timer) st
      else st in
    setActiveDanmaku (fun _ => updated) st
  else st.

(** *** Effects *)

(** The auto-play effect (dependencies [[comments]]), run in the render
    [env]. *)
Definition autoPlayEffect (random : nat -> Q) (env : Hooks) (st : State)
  : State :=
  if isProcessingRef st || isRestartingRef st
  then with_autoPlayCleanup None st
  else if length (comments env) =? 0
  then with_autoPlayCleanup None st
  else
    let (newComments, st) :=
      sortComments random
        (List.filter (fun c => unplayed (playedCommentIds env) c && validText c)
                     (comments env)) st in
    if length newComments =? 0
    then with_autoPlayCleanup None st
    else
      let st := with_isProcessingRef true st in
      let st := match autoPlayTimer env with
                | Some h => clearTimeout h st
                | None => st
                end in
      let (timer, st) := setTimeout (AutoPlayStart env newComments) 1000 st in
      let st := setAutoPlayTimer (Some timer) st in
      with_autoPlayCleanup (Some (timer, restartTimer env)) st.

(** The cleanup the auto-play effect returned, if it returned one. *)
Definition runAutoPlayCleanup (st : State) : State :=
  match autoPlayCleanup st with
  | Some (timer, restart) =>
      let st := with_isProcessingRef false (clearTimeout timer st) in
      match restart with
      | Some h => with_isRestartingRef false (clearTimeout h st)
      | None => st
      end
  | None => st
  end.

(** The restart effect (dependencies
    [[playedCommentIds.size, comments.length]]), run in the render [env]. *)
Definition restartEffect (random : nat -> Q) (env : Hooks) (st : State)
  : State :=
  if (size (playedCommentIds env) =? 0)
     && (0 <? length (comments env))
     && negb (isProcessingRef st)
     && isRestartingRef st
  then
    let st := with_isRestartingRef false st in
    let (allComments, st) :=
      sortComments random (List.filter validText (comments env)) st in
    if 0 <? length allComments
    then snd (setTimeout (RestartStart env allComments) 1000
                         (with_isProcessingRef true st))
    else st
  else st.

(** *** The component as a machine *)

Inductive Event :=
| CommentsLoaded (cs : list Comment.t)
| Manual (text : option JS.str)
| TimerFires (h : nat)
| UnitFinished (key : nat)
| Unmount.

(** A [DanmakuComment] keeps the [onComplete] of the render that
    mounted it; units already mounted keep theirs. *)
Definition mountUnits (env : Hooks) (old : list (nat * Hooks))
  : list (nat * Hooks) :=
  map (fun d =>
         match List.find (fun ke => fst ke =? Danmaku.id d) old with
         | Some ke => ke
         | None => (Danmaku.id d, env)
         end)
      (activeDanmaku env).

(** What follows every task while the component is mounted: the render
    [env] mounts the new units and the restart effect runs when one of
    its dependencies changed. *)
Definition commit (random : nat -> Q) (env : Hooks) (st : State) : State :=
  if mounted st then
    let st := with_units (mountUnits env (units st)) st in
    let deps := (size (playedCommentIds env), length (comments env)) in
    if (fst deps =? fst (restartDeps st)) && (snd deps =? snd (restartDeps st))
    then st
    else restartEffect random env (with_restartDeps deps st)
  else st.

Definition runCallback (innerWidth : Z) (random : nat -> Q) (cb : Callback)
           (st : State) : State :=
  match cb with
  | AutoPlayStart env newComments =>
      with_isProcessingRef false (playNextBatch env innerWidth random newComments st)
  | RestartStart env allComments =>
      with_isProcessingRef false (playNextBatch env innerWidth random allComments st)
  | NextBatch env remaining =>
      playNextBatch env innerWidth random remaining st
  | RestartLoop =>
      with_isProcessingRef false
        (setPlayedCommentIds (fun _ => ∅) (log LogRestarting st))
  end.

(** Unmounting: the registered cleanup runs, the bridge is deleted, the
    units unmount (each cancels its animation). *)
Definition unmount (st : State) : State :=
  with_mounted false (with_units [] (with_bridge false (runAutoPlayCleanup st))).

Definition step (innerWidth : Z) (random : nat -> Q) (ev : Event) (st : State)
  : State :=
  match ev with
  | CommentsLoaded cs =>
      if mounted st then
        let st := setComments cs st in
        let env := hooks st in
        commit random env (autoPlayEffect random env (runAutoPlayCleanup st))
      else st
  | Manual text =>
      if bridge st then
        let st := addDanmaku random text None st in
        commit random (hooks st) st
      else st
  | TimerFires h =>
      match findTimer h (timers st) with
      | Some t =>
          let st := runCallback innerWidth random (callback t) (clearTimeout h st) in
          commit random (hooks st) st
      | None => st
      end
  | UnitFinished key =>
      match List.find (fun ke => fst ke =? key) (units st) with
      | Some ke =>
          let st := removeDanmaku (snd ke) key st in
          commit random (hooks st) st
      | None => st
      end
  | Unmount => if mounted st then unmount st else st
  end.

(** The component after its first render. *)
Definition initial : State :=
  {| hooks := {| comments := [];
                 activeDanmaku := [];
                 playedCommentIds := ∅;
                 autoPlayTimer := None;
                 restartTimer := None |};
     isProcessingRef := false;
     isRestartingRef := false;
     timers := [];
     nextHandle := 1;
     nextToken := 0;
     drawn := 0;
     mounted := true;
     bridge := true;
     autoPlayCleanup := None;
     restartDeps := (0, 0);
     units := [];
     console := [] |}.

(** A sequence of tasks, each with the viewport width at that moment. *)
Definition run (random : nat -> Q) (evs : list (Z * Event)) (st : State)
  : State :=
  foldl (fun s we => step (fst we) random (snd we) s) st evs.

(** The host fires the oldest pending timer. *)
Definition fireNext (random : nat -> Q) (st : State) (innerWidth : Z) : State :=
  match timers st with
  | t :: _ => step innerWidth random (TimerFires (handle t)) st
  | [] => st
  end.

(** One firing per listed viewport width. *)
Definition drain (random : nat -> Q) (widths : list Z) (st : State) : State :=
  foldl (fireNext random) st widths.

(** The comments announced by ['Playing comment:'], in order. *)
Definition released (st : State) : list Comment.t :=
  omap (fun l => match l with LogPlaying c => Some c | _ => None end)
       (console st).

Definition pool (st : State) : list Danmaku.t := activeDanmaku (hooks st).

Definition played (st : State) : gset (option string) :=
  playedCommentIds (hooks st).

(** *** Closed forms used by the proofs *)

(** The entry [addDanmaku] appends for a comment, with display token
    [token]. *)
Definition unitOf (token : nat) (c : Comment.t) : Danmaku.t :=
  {| Danmaku.id := token;
     Danmaku.text := match Comment.text c with
                     | Some s => JS.trim s
                     | None => []
                     end;
     Danmaku.commentId := idOrNull (Comment.id c);
     Danmaku.likesCount := Comment.likesCount c |}.

Fixpoint unitsOf (token : nat) (l : list Comment.t) : list Danmaku.t :=
  match l with
  | [] => []
  | c :: l' => unitOf token c :: unitsOf (S token) l'
  end.

(** The state the [for] loop of [playNextBatch] leaves when it goes
    through the comments [l], all of valid text, on a mounted component. *)
Definition releaseAll (l : list Comment.t) (st : State) : State :=
  {| hooks :=
       {| comments := comments (hooks st);
          activeDanmaku := activeDanmaku (hooks st) ++ unitsOf (nextToken st) l;
          playedCommentIds :=
            playedCommentIds (hooks st) ∪ list_to_set (map Comment.id l);
          autoPlayTimer := autoPlayTimer (hooks st);
          restartTimer := restartTimer (hooks st) |};
     isProcessingRef := isProcessingRef st;
     isRestartingRef := isRestartingRef st;
     timers := timers st;
     nextHandle := nextHandle st;
     nextToken := nextToken st + length l;
     drawn := drawn st + length l;
     mounted := mounted st;
     bridge := bridge st;
     autoPlayCleanup := autoPlayCleanup st;
     restartDeps := restartDeps st;
     units := units st;
     console := console st ++ map LogPlaying l |}.

(** The comments a pending timer will hand to [playNextBatch]. *)
Definition payload (cb : Callback) : list Comment.t :=
  match cb with
  | AutoPlayStart _ l | RestartStart _ l | NextBatch _ l => l
  | RestartLoop => []
  end.

(** The render whose [playNextBatch] a pending timer calls. *)
Definition closure (cb : Callback) : option Hooks :=
  match cb with
  | AutoPlayStart env _ | RestartStart env _ | NextBatch env _ => Some env
  | RestartLoop => None
  end.

(** Every element of [l] stands in relation [R] to its successor. *)
Fixpoint chained {A : Type} (R : A -> A -> Prop) (l : list A) : Prop :=
  match l with
  | [] => True
  | x :: t =>
      match t with
      | [] => True
      | y :: _ => R x y
      end /\ chained R t
  end.

(** The last element of [X] stands in relation [R] to the first of [Y]. *)
Definition linked {A : Type} (R : A -> A -> Prop) (X Y : list A) : Prop :=
  forall x y, last X = Some x -> head Y = Some y -> R x y.

(** [x] was not created more than one second after [y]. *)
Definition notMuchLater (x y : Comment.t) : Prop :=
  (Comment.createdAt x <= Comment.createdAt y + 1000)%Z.

(** What a search in the run [a] has found out about the place of [key]:
    the element at index [i] belongs before the key ([-1] stands for the
    position in front of the run), the element at index [j] belongs after
    it (the length of the run stands for the position behind it). *)
Definition before (R : Comment.t -> Comment.t -> Prop) (key : Comment.t)
           (a : list Comment.t) (i : Z) : Prop :=
  i = (-1)%Z
  \/ exists x, a !! Z.to_nat i = Some x /\ (0 <= i)%Z /\ R x key.

Definition after (R : Comment.t -> Comment.t -> Prop) (key : Comment.t)
           (a : list Comment.t) (j : Z) : Prop :=
  j = Z.of_nat (length a)
  \/ exists x, a !! Z.to_nat j = Some x /\ (0 <= j)%Z /\ R key x.

(** Every pending run of the sort is not empty and has no element
    created more than one second after its successor. *)
Definition goodRuns (runs : list (list Comment.t)) : Prop :=
  Forall (fun r => r <> [] /\ chained notMuchLater r) runs.

(** The only pending timer of [st] will call [playNextBatch(l)] of the
    render [env]. *)
Definition batchPending (env : Hooks) (l : list Comment.t) (st : State) : Prop :=
  exists t, timers st = [t]
            /\ closure (callback t) = Some env
            /\ payload (callback t) = l.

(** Every entry of [activeDanmaku] is rendered as a mounted unit. *)
Definition unitsMounted (st : State) : Prop :=
  map fst (units st) = map Danmaku.id (activeDanmaku (hooks st)).

(** The tasks in which the given units finish their traversal, in the
    given order. *)
Definition finishAll (w : Z) (ds : list Danmaku.t) : list (Z * Event) :=
  map (fun d => (w, UnitFinished (Danmaku.id d))) ds.

(** [st'] has no entry without text that [st] did not have. *)
Definition addsOnlyText (st st' : State) : Prop :=
  forall d, In d (pool st') ->
            In d (pool st) \/ JS.isEmpty (Danmaku.text d) = false.

End DanmakuManager.

(* ================================================================== *)
(** ** Concrete runs *)

Module Scenario.
Import DanmakuManager.

(** A store row with ASCII text. *)
Definition row (i : string) (t : string) (ms : Z) : Comment.t :=
  {| Comment.id := Some i;
     Comment.text := Some (JS.ofString t);
     Comment.createdAt := ms;
     Comment.likesCount := 0 |}.

(** A host whose [Math.random()] always returns 0. *)
Definition zeros : nat -> Q := fun _ => 0%Q.

(** A host whose [Math.random()] always returns 31/32, which makes every
    jitter 937.5 ms. *)
Definition highs : nat -> Q := fun _ => (31 # 32)%Q.

(** Viewport widths of the two device classes. *)
Definition narrow : Z := 390%Z.
Definition wide : Z := 1280%Z.

(** The comment set of the whitespace scenario. *)
Definition hi_blank : list Comment.t :=
  [row "1" "hi" 0; row "2" "  " 1000].

(** A row whose [objectId] is missing. *)
Definition anonymous : Comment.t :=
  {| Comment.id := None;
     Comment.text := Some (JS.ofString "hi");
     Comment.createdAt := 0%Z;
     Comment.likesCount := 0 |}.

(** Three comments 900 ms apart, newest first as the store lists them. *)
Definition close_three : list Comment.t :=
  [row "c" "third" 1800; row "b" "second" 900; row "a" "first" 0].

(** Three comments well apart, newest first. *)
Definition three : list Comment.t :=
  [row "3" "gamma" 20000; row "2" "beta" 10000; row "1" "alpha" 0].

(** Four comments well apart, newest first. *)
Definition four : list Comment.t :=
  [row "4" "delta" 30000; row "3" "gamma" 20000;
   row "2" "beta" 10000; row "1" "alpha" 0].

(** Ten comments ten seconds apart. *)
Definition ten : list Comment.t :=
  imap (fun i name => row name "hello" (Z.of_nat i * 10000))
       ["c0"; "c1"; "c2"; "c3"; "c4"; "c5"; "c6"; "c7"; "c8"; "c9"]%string.


(** The three comments loaded on a narrow viewport and released in two
    batches: comments 1 and 2 as units 0 and 1, then comment 3 as unit 2. *)
Definition three_on_screen : State :=
  drain zeros [narrow; narrow]
        (step narrow zeros (CommentsLoaded three) initial).

(** The four comments loaded on a wide viewport after the first batch:
    comments 1 to 3 are on screen, the fourth waits for its timer. *)
Definition four_first_batch : State :=
  drain zeros [wide] (step wide zeros (CommentsLoaded four) initial).

End Scenario.

(* ================================================================== *)
(** ** The page shell: countdown *)

Module Countdown.

(** [new Date('2025-09-09T10:00:00-07:00')], in ms since the epoch. *)
Definition targetDate : Z := 1757437200000%Z.

Record t := {
  days : Z;
  hours : Z;
  minutes : Z;
  seconds : Z;
  expired : bool
}.

(** [updateCountdown], as a function of [now]: the value it hands to
    [setCountdown].  [Math.floor(x / c)] on integers is the floor
    quotient and [%] the remainder that takes the sign of the dividend. *)
Definition updateCountdown (now : Z) : t :=
  let diff := (targetDate - now)%Z in
  if (0 <? diff)%Z then
    {| days := (diff / (1000 * 60 * 60 * 24))%Z;
       hours := (Z.rem diff (1000 * 60 * 60 * 24) / (1000 * 60 * 60))%Z;
       minutes := (Z.rem diff (1000 * 60 * 60) / (1000 * 60))%Z;
       seconds := (Z.rem diff (1000 * 60) / 1000)%Z;
       expired := false |}
  else
    {| days := 0; hours := 0; minutes := 0; seconds := 0; expired := true |}.

(** The time a countdown value stands for, in ms. *)
Definition shown (c : t) : Z :=
  (days c * 86400000 + hours c * 3600000 + minutes c * 60000
   + seconds c * 1000)%Z.

End Countdown.

(* ================================================================== *)
(** ** Class names: clsx and cn *)

Module ClassNames.

(** The values class-name helpers are called with: strings, booleans,
    [null], [undefined] and arrays of those. *)
#[warnings="-register-all"]
Inductive value :=
| VUndefined
| VNull
| VBool (b : bool)
| VString (s : string)
| VArray (l : list value).

(** [Boolean(v)] *)
Definition truthy (v : value) : bool :=
  match v with
  | VUndefined | VNull => false
  | VBool b => b
  | VString s => negb (String.eqb s "")
  | VArray _ => true
  end.

(** [String(v)]; an array is its elements joined with commas, [null]
    and [undefined] elements counting as empty. *)
Fixpoint toString (v : value) : string :=
  match v with
  | VUndefined => "undefined"
  | VNull => "null"
  | VBool true => "true"
  | VBool false => "false"
  | VString s => s
  | VArray l =>
      String.concat ","
        (map (fun e => match e with
                       | VUndefined | VNull => ""%string
                       | _ => toString e
                       end) l)
  end.

(** The text [Array.prototype.join] takes for an element. *)
Definition joinElement (e : value) : string :=
  match e with
  | VUndefined | VNull => ""%string
  | _ => toString e
  end.

Definition join (sep : string) (l : list value) : string :=
  String.concat sep (map joinElement l).

(** [Array.prototype.flat()], one level. *)
Definition flat (l : list value) : list value :=
  flat_map (fun v => match v with VArray inner => inner | _ => [v] end) l.

(** [clsx(...inputs)] *)
Definition clsx (inputs : list value) : string :=
  join " " (List.filter truthy (flat inputs)).

(** [cn(...inputs)]: [clsx] is called with the argument array as its one
    argument; [twMerge] is [window.twMerge] when the page loaded it. *)
Definition cn (twMerge : option (string -> string)) (inputs : list value)
  : string :=
  match twMerge with
  | Some merge => merge (clsx [VArray inputs])
  | None => clsx [VArray inputs]
  end.

(** A value that is not an array. *)
Definition atom (v : value) : bool :=
  match v with VArray _ => false | _ => true end.

End ClassNames.

(* ================================================================== *)
(** ** The page shell: visitor id and comment submission *)

Module Shell.

(** The entry of [localStorage] the shell uses. *)
Record Storage := {
  iphone17_user_id : option string
}.

(** ['user_' + Date.now() + '_' + Math.random().toString(36).substr(2, 9)],
    from the two strings the host produces. *)
Definition generateId (now random36 : string) : string :=
  ("user_" ++ now ++ "_" ++ random36)%string.

(** The mount effect, as far as the visitor id goes: the id handed to
    [setUserId] and the storage afterwards. *)
Definition initUserId (now random36 : string) (ls : Storage)
  : string * Storage :=
  match iphone17_user_id ls with
  | Some uid =>
      if String.eqb uid ""
      then (generateId now random36,
            {| iphone17_user_id := Some (generateId now random36) |})
      else (uid, ls)
  | None =>
      (generateId now random36,
       {| iphone17_user_id := Some (generateId now random36) |})
  end.

(** The state cells of [App] that submission reads and writes. *)
Record State := {
  userId : string;
  comments : list Comment.t;
  inputValue : JS.str;
  loading : bool
}.

(** The fields given to [trickleCreateObject]. *)
Record Request := {
  user_id : string;
  text : JS.str;
  created_at : string;
  likes_count : nat
}.

(** What [trickleCreateObject] resolves to. *)
Record Created := {
  objectId : option string;
  objectData_text : option JS.str;
  objectData_likes_count : option nat;
  createdAt : Z
}.

Inductive Reply :=
| Resolved (newComment : Created)
| Rejected.

(** [handleSubmitComment] up to its [await]: the request sent, if any,
    and the state once [setLoading(true)] has been applied.  [nowIso] is
    [new Date().toISOString()]. *)
Definition submitBegin (nowIso : string) (st : State) : option Request * State :=
  if JS.isEmpty (JS.trim (inputValue st)) || loading st
     || String.eqb (userId st) ""
  then (None, st)
  else (Some {| user_id := userId st;
                text := JS.trim (inputValue st);
                created_at := nowIso;
                likes_count := 0 |},
        {| userId := userId st;
           comments := comments st;
           inputValue := inputValue st;
           loading := true |}).

(** The local record built from the created object. *)
Definition localComment (o : Created) : Comment.t :=
  {| Comment.id := objectId o;
     Comment.text := objectData_text o;
     Comment.createdAt := createdAt o;
     Comment.likesCount := match objectData_likes_count o with
                           | Some n => n
                           | None => 0
                           end |}.

(** [handleSubmitComment] after its [await], for the request [req]:
    the shell and the scheduler it reaches through [window.addDanmaku]. *)
Definition submitEnd (innerWidth : Z) (random : nat -> Q) (req : Request)
           (reply : Reply) (st : State) (dm : DanmakuManager.State)
  : State * DanmakuManager.State :=
  match reply with
  | Resolved o =>
      ({| userId := userId st;
          comments := localComment o :: take 99 (comments st);
          inputValue := [];
          loading := false |},
       DanmakuManager.step innerWidth random
                           (DanmakuManager.Manual (Some (text req))) dm)
  | Rejected =>
      ({| userId := userId st;
          comments := comments st;
          inputValue := inputValue st;
          loading := false |},
       dm)
  end.

(** A whole submission. *)
Definition submit (nowIso : string) (innerWidth : Z) (random : nat -> Q)
           (reply : Reply) (st : State) (dm : DanmakuManager.State)
  : State * DanmakuManager.State :=
  match submitBegin nowIso st with
  | (Some req, st') => submitEnd innerWidth random req reply st' dm
  | (None, st') => (st', dm)
  end.

End Shell.

(* ================================================================== *)
(** ** The store and the scheduler's like handler *)

(** Modelled from the spec: the object store behind [trickleGetObject]
    and [trickleUpdateObject], a table from object id to object fields;
    both calls reject for an id the table does not hold. *)
Module Store.

Record ObjectData := {
  user_id : string;
  text : option JS.str;
  created_at : string;
  likes_count : option nat
}.

Definition get (id : string) (s : gmap string ObjectData) : option ObjectData :=
  s !! id.

Definition update (id : string) (data : ObjectData) (s : gmap string ObjectData)
  : option (gmap string ObjectData) :=
  match s !! id with
  | Some _ => Some (<[id := data]> s)
  | None => None
  end.

End Store.

Module ManagerLike.

(** [comment.objectData.likes_count || 0] *)
Definition currentLikes (d : Store.ObjectData) : nat :=
  match Store.likes_count d with
  | Some n => n
  | None => 0
  end.

(** [{...comment.objectData, likes_count: currentLikes + 1}] *)
Definition incremented (d : Store.ObjectData) : Store.ObjectData :=
  {| Store.user_id := Store.user_id d;
     Store.text := Store.text d;
     Store.created_at := Store.created_at d;
     Store.likes_count := Some (currentLikes d + 1) |}.

(** [handleLike] of the scheduler is two store calls with an [await]
    before each; a failure of either is caught and logged.  [likeRead] is
    the first, [likeWrite] the second given what the first returned. *)
Definition likeRead (commentId : string) (s : gmap string Store.ObjectData)
  : option Store.ObjectData :=
  Store.get commentId s.

Definition likeWrite (commentId : string) (comment : Store.ObjectData)
           (s : gmap string Store.ObjectData) : gmap string Store.ObjectData :=
  match Store.update commentId (incremented comment) s with
  | Some s' => s'
  | None => s
  end.

(** [handleLike] when nothing else touches the store in between. *)
Definition handleLike (commentId : string) (s : gmap string Store.ObjectData)
  : gmap string Store.ObjectData :=
  match likeRead commentId s with
  | Some comment => likeWrite commentId comment s
  | None => s
  end.


End ManagerLike.

(* ================================================================== *)
(** ** Notions used to state further properties *)

Module Notions.

(** Whether the pointer is over the unit after the events [es]. *)
Fixpoint hoverAfter (hover : bool) (es : list DanmakuComment.Event) : bool :=
  match es with
  | [] => hover
  | DanmakuComment.MouseEnter :: es' => hoverAfter true es'
  | DanmakuComment.MouseLeave :: es' => hoverAfter false es'
  | _ :: es' => hoverAfter hover es'
  end.

Definition isTeardown (e : DanmakuComment.Event) : bool :=
  match e with DanmakuComment.Teardown => true | _ => false end.



(** The scheduler waits for the restart timer: that timer is the only one
    pending, the restart flag is up and the restart effect last ran with
    the present sizes. *)
Definition awaitingRestart (st : DanmakuManager.State) : Prop :=
  DanmakuManager.mounted st = true
  /\ DanmakuManager.isRestartingRef st = true
  /\ (exists t, DanmakuManager.timers st = [t]
                /\ DanmakuManager.callback t = DanmakuManager.RestartLoop)
  /\ DanmakuManager.restartDeps st
     = (size (DanmakuManager.played st),
        length (DanmakuManager.comments (DanmakuManager.hooks st))).

(** The timer a fired event names runs the restart callback. *)
Definition firesRestart (ev : DanmakuManager.Event) (st : DanmakuManager.State)
  : Prop :=
  exists h t, ev = DanmakuManager.TimerFires h
              /\ DanmakuManager.findTimer h (DanmakuManager.timers st) = Some t
              /\ DanmakuManager.callback t = DanmakuManager.RestartLoop.

(** The scheduler is idle, or it only waits for the start timer the
    auto-play effect armed and registered in its cleanup. *)
Definition quiet (st : DanmakuManager.State) : Prop :=
  DanmakuManager.mounted st = true
  /\ DanmakuManager.isRestartingRef st = false
  /\ ((DanmakuManager.timers st = []
       /\ DanmakuManager.isProcessingRef st = false)
      \/ (exists t r, DanmakuManager.timers st = [t]
                      /\ DanmakuManager.autoPlayCleanup st
                         = Some (DanmakuManager.handle t, r))).

(** The cleanup the auto-play effect registered, if any, names neither
    the timer [t] nor a restart timer. *)
Definition cleanupSpares (t : DanmakuManager.Timer) (st : DanmakuManager.State)
  : Prop :=
  match DanmakuManager.autoPlayCleanup st with
  | Some (h, None) => h <> DanmakuManager.handle t
  | Some (_, Some _) => False
  | None => True
  end.

(** The cleanup the auto-play effect registered holds the handle [r] of a
    restart timer, and neither that one nor its own start timer is [t]. *)
Definition cleanupHoldsRestart (r : nat) (t : DanmakuManager.Timer)
           (st : DanmakuManager.State) : Prop :=
  exists h, DanmakuManager.autoPlayCleanup st = Some (h, Some r)
            /\ h <> DanmakuManager.handle t
            /\ r <> DanmakuManager.handle t.

Definition isUnitFinished (ev : DanmakuManager.Event) : bool :=
  match ev with DanmakuManager.UnitFinished _ => true | _ => false end.

(** The text of an entry is not empty and has no white space at either
    end. *)
Definition trimmedText (d : Danmaku.t) : Prop :=
  JS.trim (Danmaku.text d) = Danmaku.text d
  /\ JS.isEmpty (Danmaku.text d) = false.

(** The pool of [st'] is the pool of [st] followed by at most [k] new
    entries, each with trimmed text. *)
Definition extends (k : nat) (st st' : DanmakuManager.State) : Prop :=
  exists new,
    DanmakuManager.pool st' = DanmakuManager.pool st ++ new
    /\ length new <= k
    /\ Forall trimmedText new.

(** The most units one task may add on a viewport of the given width. *)
Definition perTask (innerWidth : Z) : nat :=
  Z.to_nat (DanmakuManager.perTick (DanmakuManager.isMobile innerWidth)).

End Notions.

(* ================================================================== *)
(** ** Further runs of the scheduler *)

Module Replays.
Import DanmakuManager Scenario.

(** The three comments have been released and their units have finished
    in release order: the scheduler waits for its first restart. *)
Definition awaiting_first_restart : State :=
  run zeros (finishAll narrow (pool three_on_screen)) three_on_screen.

(** The restart timer has fired and the second cycle has released the
    three comments again. *)
Definition second_cycle_on_screen : State :=
  drain zeros [narrow; narrow; narrow]
        (fireNext zeros awaiting_first_restart narrow).

(** A fourth comment is then loaded and released. *)
Definition fourth_released : State :=
  drain zeros [narrow]
        (step narrow zeros (CommentsLoaded four) second_cycle_on_screen).

(** The four units have finished: the scheduler waits for its second
    restart. *)
Definition awaiting_second_restart : State :=
  run zeros (finishAll narrow (pool fourth_released)) fourth_released.

End Replays.

(* ================================================================== *)
(** * Properties of binary64 rounding *)

Section Rounding.
Import Binary64.
Local Open Scope Q_scope.

Lemma pow2_pos (e : Z) : 0 < 2 ^ e.
Proof. apply Qpower_0_lt. reflexivity. Qed.

Lemma pow2_succ (e : Z) : 2 ^ (e + 1) == 2 * 2 ^ e.
Proof. rewrite Qpower_plus by discriminate. rewrite Qpower_1_r. ring. Qed.

Lemma pow2_add (e f : Z) : 2 ^ (e + f) == 2 ^ e * 2 ^ f.
Proof. apply Qpower_plus. discriminate. Qed.

Lemma pow2_le (e f : Z) : (e <= f)%Z -> 2 ^ e <= 2 ^ f.
Proof. intros H. apply Qpower_le_compat_l; [exact H|]. discriminate. Qed.

Lemma pow2_lt_inv (e f : Z) : 2 ^ e < 2 ^ f -> (e < f)%Z.
Proof.
  intros H. destruct (Z_lt_le_dec e f) as [L|L]; [exact L|].
  apply pow2_le in L. lra.
Qed.

Lemma pow2_inject (e : Z) : (0 <= e)%Z -> inject_Z (2 ^ e) == 2 ^ e.
Proof. intros H. rewrite Zpower_Qpower by exact H. reflexivity. Qed.

Lemma squeeze (a N D P R : Q) :
  0 < a -> a * D == N -> P <= N -> N < 2 * P -> R <= D -> D < 2 * R -> 0 < R ->
  a * R < 2 * P /\ P < a * (2 * R).
Proof. intros. split; nra. Qed.

Lemma ilog2_spec (a : Q) :
  0 < a -> 2 ^ ilog2 a <= a /\ a < 2 ^ (ilog2 a + 1).
Proof.
  intros Ha. unfold ilog2.
  set (n := Qnum a). set (d := Zpos (Qden a)).
  assert (Hn : (0 < n)%Z).
  { unfold n. destruct a as [num den]. unfold Qlt in Ha. simpl in *. lia. }
  assert (Hd : (0 < d)%Z) by (unfold d; lia).
  destruct (Z.log2_spec n Hn) as [Ln1 Ln2].
  destruct (Z.log2_spec d Hd) as [Ld1 Ld2].
  set (ln := Z.log2 n) in *. set (ld := Z.log2 d) in *.
  assert (Hln : (0 <= ln)%Z) by apply Z.log2_nonneg.
  assert (Hld : (0 <= ld)%Z) by apply Z.log2_nonneg.
  assert (Ea : a * inject_Z d == inject_Z n).
  { unfold n, d. destruct a as [num den]. unfold Qeq. simpl.
    rewrite Pos.mul_1_r. ring. }
  assert (P1 : 2 ^ ln <= inject_Z n)
    by (rewrite <- pow2_inject by exact Hln; rewrite <- Zle_Qle; exact Ln1).
  assert (P2 : inject_Z n < 2 * 2 ^ ln).
  { rewrite <- pow2_succ, <- pow2_inject by lia. rewrite <- Zlt_Qlt.
    exact Ln2. }
  assert (R1 : 2 ^ ld <= inject_Z d)
    by (rewrite <- pow2_inject by exact Hld; rewrite <- Zle_Qle; exact Ld1).
  assert (R2 : inject_Z d < 2 * 2 ^ ld).
  { rewrite <- pow2_succ, <- pow2_inject by lia. rewrite <- Zlt_Qlt.
    exact Ld2. }
  destruct (squeeze a (inject_Z n) (inject_Z d) (2 ^ ln) (2 ^ ld)
                    Ha Ea P1 P2 R1 R2 (pow2_pos ld)) as [S1 S2].
  assert (E0 : 2 ^ (ln - ld) * 2 ^ ld == 2 ^ ln).
  { rewrite <- pow2_add. now replace (ln - ld + ld)%Z with ln by lia. }
  pose proof (pow2_pos ld) as Old. pose proof (pow2_pos (ln - ld)) as Oe.
  destruct (Qle_bool (2 ^ (ln - ld)) a) eqn:T.
  - apply Qle_bool_iff in T. split; [exact T|].
    rewrite pow2_succ. nra.
  - assert (T' : a < 2 ^ (ln - ld)).
    { apply Qnot_le_lt. intros C. apply Qle_bool_iff in C. congruence. }
    replace (ln - ld - 1 + 1)%Z with (ln - ld)%Z by lia.
    split; [|exact T'].
    assert (E1 : 2 * 2 ^ (ln - ld - 1) == 2 ^ (ln - ld)).
    { rewrite <- pow2_succ. now replace (ln - ld - 1 + 1)%Z with (ln - ld)%Z by lia. }
    nra.
Qed.

Lemma ilog2_mono (a b : Q) : 0 < a -> a <= b -> (ilog2 a <= ilog2 b)%Z.
Proof.
  intros Ha Hab.
  destruct (ilog2_spec a Ha) as [A1 _].
  destruct (ilog2_spec b) as [_ B2]; [lra|].
  assert (H : 2 ^ ilog2 a < 2 ^ (ilog2 b + 1)) by lra.
  apply pow2_lt_inv in H. lia.
Qed.

(** round half to even *)
Lemma roundToEven_floor (z : Q) :
  (Qfloor z <= roundToEven z <= Qfloor z + 1)%Z.
Proof.
  unfold roundToEven.
  destruct (Qcompare _ _); [destruct (Z.even _)| |]; lia.
Qed.

Lemma roundToEven_Z (n : Z) : roundToEven (inject_Z n) = n.
Proof.
  unfold roundToEven. rewrite Qfloor_Z.
  assert (E : Qcompare (inject_Z n - inject_Z n) (1 # 2) = Lt).
  { rewrite <- Qlt_alt. lra. }
  now rewrite E.
Qed.

Lemma roundToEven_mono (x y : Q) : x <= y -> (roundToEven x <= roundToEven y)%Z.
Proof.
  intros H. pose proof (Qfloor_resp_le x y H) as F.
  destruct (Z.eq_dec (Qfloor x) (Qfloor y)) as [E|E].
  - unfold roundToEven. rewrite <- E.
    destruct (Qcompare (x - inject_Z (Qfloor x)) (1 # 2)) eqn:Cx;
      destruct (Qcompare (y - inject_Z (Qfloor x)) (1 # 2)) eqn:Cy;
      try (destruct (Z.even (Qfloor x))); try lia;
      rewrite <- ?Qeq_alt, <- ?Qlt_alt, <- ?Qgt_alt in *; lra.
  - pose proof (roundToEven_floor x). pose proof (roundToEven_floor y). lia.
Qed.

Lemma roundToEven_error (z : Q) :
  z - (1 # 2) <= inject_Z (roundToEven z) /\ inject_Z (roundToEven z) <= z + (1 # 2).
Proof.
  pose proof (Qfloor_le z) as F1. pose proof (Qlt_floor z) as F2.
  rewrite inject_Z_plus in F2. change (inject_Z 1) with 1 in F2.
  unfold roundToEven.
  destruct (Qcompare (z - inject_Z (Qfloor z)) (1 # 2)) eqn:C;
    rewrite <- ?Qeq_alt, <- ?Qlt_alt, <- ?Qgt_alt in C;
    try destruct (Z.even (Qfloor z)); rewrite ?inject_Z_plus;
    change (inject_Z 1) with 1; split; lra.
Qed.

Lemma roundToEven_ge (n : Z) (z : Q) : inject_Z n <= z -> (n <= roundToEven z)%Z.
Proof. intros H. rewrite <- (roundToEven_Z n). now apply roundToEven_mono. Qed.

Lemma roundToEven_le (n : Z) (z : Q) : z <= inject_Z n -> (roundToEven z <= n)%Z.
Proof. intros H. rewrite <- (roundToEven_Z n). now apply roundToEven_mono. Qed.

(** rounding a positive number *)
Lemma roundPositive_eq (a : Q) :
  roundPositive a
  == inject_Z (roundToEven (a / 2 ^ ulpExponent a)) * 2 ^ ulpExponent a.
Proof. unfold roundPositive. apply Qred_correct. Qed.

Lemma ulpExponent_mono (a b : Q) :
  0 < a -> a <= b -> (ulpExponent a <= ulpExponent b)%Z.
Proof.
  intros Ha Hab. unfold ulpExponent.
  pose proof (ilog2_mono a b Ha Hab). lia.
Qed.

Lemma div_pow2 (a : Q) (q : Z) : a / 2 ^ q * 2 ^ q == a.
Proof. pose proof (pow2_pos q). field. lra. Qed.

(** a positive number is below the top of its binade, and a normal one is
    at least the bottom *)
Lemma roundPositive_upper (a : Q) :
  0 < a -> roundPositive a <= 2 ^ (ulpExponent a + 53).
Proof.
  intros Ha. rewrite roundPositive_eq.
  set (q := ulpExponent a).
  destruct (ilog2_spec a Ha) as [_ U].
  assert (Hq : (ilog2 a + 1 <= q + 53)%Z) by (unfold q, ulpExponent; lia).
  assert (Ua : a <= 2 ^ (q + 53)) by (pose proof (pow2_le _ _ Hq); lra).
  assert (Ud : a / 2 ^ q <= inject_Z (2 ^ 53)).
  { rewrite pow2_add in Ua. pose proof (pow2_pos q) as Pq.
    apply Qle_shift_div_r; [exact Pq|].
    change (inject_Z (2 ^ 53)) with (2 ^ 53). lra. }
  apply roundToEven_le in Ud. rewrite Zle_Qle in Ud.
  rewrite pow2_add. pose proof (pow2_pos q) as Pq.
  change (inject_Z (2 ^ 53)) with (2 ^ 53) in Ud.
  rewrite (Qmult_comm (2 ^ q)). apply Qmult_le_compat_r; lra.
Qed.

Lemma roundPositive_lower (a : Q) :
  0 < a -> (-1022 <= ilog2 a)%Z -> 2 ^ (ulpExponent a + 52) <= roundPositive a.
Proof.
  intros Ha Hn. rewrite roundPositive_eq.
  set (q := ulpExponent a).
  destruct (ilog2_spec a Ha) as [L _].
  assert (Hq : (q + 52 = ilog2 a)%Z) by (unfold q, ulpExponent; lia).
  rewrite <- Hq in L.
  assert (Ld : inject_Z (2 ^ 52) <= a / 2 ^ q).
  { rewrite pow2_add in L. pose proof (pow2_pos q) as Pq.
    apply Qle_shift_div_l; [exact Pq|].
    change (inject_Z (2 ^ 52)) with (2 ^ 52). lra. }
  apply roundToEven_ge in Ld. rewrite Zle_Qle in Ld.
  rewrite pow2_add. pose proof (pow2_pos q) as Pq.
  change (inject_Z (2 ^ 52)) with (2 ^ 52) in Ld.
  rewrite (Qmult_comm (2 ^ q)). apply Qmult_le_compat_r; lra.
Qed.

Lemma roundPositive_nonneg (a : Q) : 0 < a -> 0 <= roundPositive a.
Proof.
  intros Ha. rewrite roundPositive_eq.
  pose proof (pow2_pos (ulpExponent a)) as Pq.
  assert (H : inject_Z 0 <= a / 2 ^ ulpExponent a).
  { apply Qle_shift_div_l; [exact Pq|]. change (inject_Z 0) with 0. lra. }
  apply roundToEven_ge in H. rewrite Zle_Qle in H.
  change (inject_Z 0) with 0 in H. nra.
Qed.

Lemma roundPositive_mono (a b : Q) :
  0 < a -> a <= b -> roundPositive a <= roundPositive b.
Proof.
  intros Ha Hab. assert (Hb : 0 < b) by lra.
  pose proof (ulpExponent_mono a b Ha Hab) as Hq.
  destruct (Z.eq_dec (ulpExponent a) (ulpExponent b)) as [E|E].
  - rewrite !roundPositive_eq, E.
    pose proof (pow2_pos (ulpExponent b)) as Pq.
    assert (D : a / 2 ^ ulpExponent b <= b / 2 ^ ulpExponent b).
    { apply Qle_shift_div_l; [exact Pq|]. rewrite div_pow2. exact Hab. }
    apply roundToEven_mono in D. rewrite Zle_Qle in D.
    apply Qmult_le_compat_r; lra.
  - assert (Hlt : (ulpExponent a < ulpExponent b)%Z) by lia.
    assert (Hnb : (-1022 <= ilog2 b)%Z) by (unfold ulpExponent in *; lia).
    pose proof (roundPositive_upper a Ha) as U.
    pose proof (roundPositive_lower b Hb Hnb) as L.
    assert (M : 2 ^ (ulpExponent a + 53) <= 2 ^ (ulpExponent b + 52))
      by (apply pow2_le; lia).
    lra.
Qed.

Lemma round_pos (x : Q) : 0 < x -> round x = roundPositive x.
Proof.
  intros H. unfold round. destruct x as [[|p|p] d]; try reflexivity;
    unfold Qlt in H; simpl in H; lia.
Qed.

Lemma round_neg (x : Q) : x < 0 -> round x = - roundPositive (- x).
Proof.
  intros H. unfold round. destruct x as [[|p|p] d]; try reflexivity;
    unfold Qlt in H; simpl in H; lia.
Qed.

Lemma round_zero (x : Q) : x == 0 -> round x = 0.
Proof.
  intros H. unfold round. destruct x as [[|p|p] d]; try reflexivity;
    unfold Qeq in H; simpl in H; lia.
Qed.

Lemma round_nonneg (x : Q) : 0 <= x -> 0 <= round x.
Proof.
  intros H. destruct (Qlt_le_dec 0 x) as [P|P].
  - rewrite round_pos by exact P. now apply roundPositive_nonneg.
  - rewrite round_zero by lra. lra.
Qed.

Lemma round_nonpos (x : Q) : x <= 0 -> round x <= 0.
Proof.
  intros H. destruct (Qlt_le_dec x 0) as [P|P].
  - rewrite round_neg by exact P.
    assert (0 <= roundPositive (- x)) by (apply roundPositive_nonneg; lra). lra.
  - rewrite round_zero by lra. lra.
Qed.

(** Rounding never reverses an order. *)
Lemma round_mono (x y : Q) : x <= y -> round x <= round y.
Proof.
  intros H.
  destruct (Qlt_le_dec 0 x) as [Px|Px].
  - rewrite !round_pos by lra. now apply roundPositive_mono.
  - destruct (Qlt_le_dec 0 y) as [Py|Py].
    + pose proof (round_nonpos x Px). pose proof (round_nonneg y). lra.
    + destruct (Qlt_le_dec y 0) as [Ny|Ny].
      * rewrite !round_neg by lra.
        assert (roundPositive (- y) <= roundPositive (- x))
          by (apply roundPositive_mono; lra). lra.
      * pose proof (round_nonpos x Px). rewrite (round_zero y) by lra. lra.
Qed.

(** The relative error of rounding a normal positive number is at most
    2^-53. *)
Lemma round_error (x : Q) :
  2 ^ (-1022) <= x ->
  x * (1 - 2 ^ (-53)) <= round x /\ round x <= x * (1 + 2 ^ (-53)).
Proof.
  intros Hx. pose proof (pow2_pos (-1022)) as P0.
  assert (Px : 0 < x) by lra.
  rewrite round_pos by exact Px. rewrite roundPositive_eq.
  destruct (ilog2_spec x Px) as [L U].
  assert (Hn : (-1022 <= ilog2 x)%Z).
  { assert (H : 2 ^ (-1022) < 2 ^ (ilog2 x + 1)) by lra.
    apply pow2_lt_inv in H. lia. }
  set (q := ulpExponent x).
  assert (Hq : (ilog2 x = q + 52)%Z) by (unfold q, ulpExponent; lia).
  rewrite Hq in L.
  pose proof (pow2_pos q) as Pq.
  destruct (roundToEven_error (x / 2 ^ q)) as [E1 E2].
  set (m := inject_Z (roundToEven (x / 2 ^ q))) in *.
  pose proof (div_pow2 x q) as D.
  assert (Hu : 2 ^ q <= x * 2 ^ (-52)).
  { assert (E : 2 ^ q == 2 ^ (q + 52) * 2 ^ (-52)).
    { rewrite <- pow2_add. now replace (q + 52 + -52)%Z with q by lia. }
    pose proof (pow2_pos (-52)). rewrite E. apply Qmult_le_compat_r; lra. }
  assert (Eh : 2 ^ (-52) == 2 * 2 ^ (-53)) by reflexivity.
  set (y := x / 2 ^ q) in *.
  split; nra.
Qed.

Lemma round_compat (x y : Q) : x == y -> round x == round y.
Proof.
  intros H. apply Qle_antisym; apply round_mono; rewrite H; apply Qle_refl.
Qed.

Lemma unit_roundoff : 2 ^ (-53) == 1 # 9007199254740992.
Proof. reflexivity. Qed.



(** [round] against the hardware binary64 arithmetic, on operations of
    the kind the program performs and on the smallest numbers. *)
Lemma round_agrees_with_hardware :
  ofFloat (0.8 + 3 * 0.02)%float
  == round (round 0.8 + round (3 * round 0.02))
  /\ ofFloat (2500 + 0x1.fffffffffffffp-1 * 3000)%float
     == round (2500 + round ((1 - 2 ^ (-53)) * 3000))
  /\ ofFloat ((0.3 - 0.5) * 2000)%float
     == round (round (round 0.3 - 0.5) * 2000)
  /\ ofFloat (1 / 3)%float == round (1 / 3)
  /\ ofFloat (0x1p-1074 / 2)%float == round (2 ^ (-1075))
  /\ ofFloat (0x1p-1074 * 1.5)%float == round (3 * 2 ^ (-1075))
  /\ ofFloat (0x1p-1022 - 0x1p-1074)%float
     == round (2 ^ (-1022) - 2 ^ (-1074)).
Proof. repeat split; vm_compute; reflexivity. Qed.

End Rounding.


(** * Properties of the floating unit *)

Section UnitScale.
Import DanmakuComment Binary64.
Local Open Scope Q_scope.

(** The two literals as binary64 numbers. *)
Lemma scale_literals :
  baseScale == 3602879701896397 # 4503599627370496
  /\ scalePerLike == 5764607523034235 # 288230376151711744.
Proof. split; vm_compute; reflexivity. Qed.

Lemma getScale_mono (x y : Q) : x <= y -> getScale x <= getScale y.
Proof.
  intros H. unfold getScale. destruct scale_literals as [_ C].
  apply round_mono. apply Qplus_le_r. apply round_mono.
  rewrite C. nra.
Qed.

Lemma product_bounds (n : Z) :
  (0 <= n)%Z ->
  count n * scalePerLike * (1 - 2 ^ (-53)) <= round (count n * scalePerLike)
  /\ round (count n * scalePerLike) <= count n * scalePerLike * (1 + 2 ^ (-53)).
Proof.
  intros Hn. destruct scale_literals as [_ C].
  destruct (Z.eq_dec n 0%Z) as [->|Hne].
  - rewrite (round_zero (count 0 * scalePerLike)) by (unfold count; ring).
    unfold count. split; ring_simplify; apply Qle_refl.
  - apply round_error.
    assert (L : 1 <= count n).
    { unfold count. change 1 with (inject_Z 1). rewrite <- Zle_Qle. lia. }
    assert (T : 2 ^ (-1022) <= scalePerLike).
    { rewrite C. apply Qle_bool_iff. vm_compute. reflexivity. }
    assert (P : 0 < 2 ^ (-1022)) by apply pow2_pos.
    nra.
Qed.

Lemma getScale_bounds (n : Z) :
  (0 <= n)%Z ->
  (baseScale + count n * scalePerLike * (1 - 2 ^ (-53))) * (1 - 2 ^ (-53))
  <= getScale (count n)
  /\ getScale (count n)
     <= (baseScale + count n * scalePerLike * (1 + 2 ^ (-53))) * (1 + 2 ^ (-53)).
Proof.
  intros Hn. destruct (product_bounds n Hn) as [PL PU].
  destruct scale_literals as [B C].
  assert (N0 : 0 <= count n).
  { unfold count. change 0 with (inject_Z 0). rewrite <- Zle_Qle. lia. }
  unfold getScale.
  set (p := round (count n * scalePerLike)) in *.
  rewrite unit_roundoff in *.
  assert (P0 : 0 <= p).
  { eapply Qle_trans; [|exact PL]. rewrite C. nra. }
  assert (T : 2 ^ (-1022) <= baseScale + p).
  { assert (2 ^ (-1022) <= baseScale)
      by (rewrite B; apply Qle_bool_iff; vm_compute; reflexivity).
    lra. }
  destruct (round_error (baseScale + p) T) as [RL RU].
  rewrite unit_roundoff in *.
  split.
  - eapply Qle_trans; [|exact RL].
    apply Qmult_le_compat_r; [lra|discriminate].
  - eapply Qle_trans; [exact RU|].
    apply Qmult_le_compat_r; [lra|discriminate].
Qed.

Lemma getScale_lt (m n : Z) :
  (0 <= m < n)%Z -> (n <= 2 ^ 50)%Z -> getScale (count m) < getScale (count n).
Proof.
  intros Hmn Hn.
  destruct (getScale_bounds m) as [_ U]; [lia|].
  destruct (getScale_bounds n) as [L _]; [lia|].
  destruct scale_literals as [B C].
  rewrite unit_roundoff, B, C in *.
  assert (M0 : 0 <= count m).
  { unfold count. change 0 with (inject_Z 0). rewrite <- Zle_Qle. lia. }
  assert (S1 : count m + 1 <= count n).
  { unfold count. change 1 with (inject_Z 1). rewrite <- inject_Z_plus.
    rewrite <- Zle_Qle. lia. }
  assert (T : count n <= 1125899906842624).
  { unfold count. change 1125899906842624 with (inject_Z (2 ^ 50)).
    rewrite <- Zle_Qle. exact Hn. }
  lra.
Qed.

Lemma getScale_near (n : Z) :
  (0 <= n)%Z ->
  (0.8 + 0.02 * count n) * (1 - 2 ^ (-51)) <= getScale (count n)
  /\ getScale (count n) <= (0.8 + 0.02 * count n) * (1 + 2 ^ (-51)).
Proof.
  intros Hn. destruct (getScale_bounds n Hn) as [L U].
  destruct scale_literals as [B C].
  rewrite unit_roundoff, B, C in *.
  assert (E : 2 ^ (-51) == 1 # 2251799813685248) by reflexivity.
  rewrite E.
  assert (N0 : 0 <= count n).
  { unfold count. change 0 with (inject_Z 0). rewrite <- Zle_Qle. lia. }
  split; lra.
Qed.

(** C8 (as amended).  The scale is the binary64 result of
    [0.8 + likes * 0.02].  It is 0.8 for no like, 1 for 10 likes and 1.8
    for 50, the numbers 0.8 and 1.8 being the binary64 numbers nearest to
    them; for every like count up to 2^53 it lies within a relative
    distance of 2^-51 of [0.8 + 0.02 * likes], so that nothing caps it;
    it never decreases when the like count grows, and it increases with
    every like for counts up to 2^50.  The hardware binary64 arithmetic
    gives the same numbers for the counts up to 2000. *)
Theorem getScale_linear_increasing_unbounded :
  (getScale 0 == round 0.8 /\ getScale 10 == 1 /\ getScale 50 == round 1.8)
  /\ (forall likes : Z,
        (0 <= likes <= 2 ^ 53)%Z ->
        (0.8 + 0.02 * count likes) * (1 - 2 ^ (-51)) <= getScale (count likes)
        /\ getScale (count likes) <= (0.8 + 0.02 * count likes) * (1 + 2 ^ (-51)))
  /\ (forall x y : Q, x <= y -> getScale x <= getScale y)
  /\ (forall m n : Z,
        (0 <= m < n)%Z -> (n <= 2 ^ 50)%Z ->
        getScale (count m) < getScale (count n))
  /\ (getScale64 0 = 0.8 /\ getScale64 10 = 1 /\ getScale64 50 = 1.8)%float
  /\ agree64_upto 2001 = true.
Proof.
  split; [repeat split; vm_compute; reflexivity|].
  split; [intros likes [H0 _]; now apply getScale_near|].
  split; [exact getScale_mono|].
  split; [exact getScale_lt|].
  split; [repeat split; vm_compute; reflexivity|].
  vm_compute. reflexivity.
Qed.

Lemma getScale_increasing_witness :
  ((0.8 + 0.02 * count 3) * (1 - 2 ^ (-51)) <= getScale (count 3)
   /\ getScale (count 3) <= (0.8 + 0.02 * count 3) * (1 + 2 ^ (-51)))
  /\ getScale 3 <= getScale 7
  /\ getScale (count 3) < getScale (count 7).
Proof.
  destruct getScale_linear_increasing_unbounded as (_ & N & M & L & _).
  split; [apply (N 3%Z); split; [lia|vm_compute; discriminate]|].
  split; [apply (M 3 7); vm_compute; discriminate|].
  apply (L 3%Z 7%Z); [lia|vm_compute; discriminate].
Defined.

(** C8 as stated fails.  For 3 likes the scale is 0.8600000000000001,
    the binary64 number that follows the one nearest to 0.86; and the
    scale does not grow from 9007199254740990 likes to 9007199254740991,
    two counts that are binary64 numbers. *)
Lemma getScale_not_exact_nor_increasing :
  (~ getScale (count 3) == 0.8 + 0.02 * count 3
   /\ getScale (count 3) == round (0.8 + 0.02 * count 3) + 2 ^ (-53)
   /\ getScale64 3 = 0.8600000000000001%float
   /\ ofFloat (getScale64 3) == getScale (count 3))
  /\ (round (count 9007199254740990) == count 9007199254740990
      /\ round (count 9007199254740991) == count 9007199254740991
      /\ getScale (count 9007199254740990) == getScale (count 9007199254740991)
      /\ getScale64 (float_of_Z 9007199254740990)
         = getScale64 (float_of_Z 9007199254740991)
      /\ ofFloat (getScale64 (float_of_Z 9007199254740990))
         == getScale (count 9007199254740990)).
Proof.
  split.
  - split; [vm_compute; discriminate|]. repeat split; vm_compute; reflexivity.
  - repeat split; vm_compute; reflexivity.
Qed.

End UnitScale.

Section UnitLikes.
Import DanmakuComment.












End UnitLikes.

Section UnitTraversal.
Import DanmakuComment.

Lemma run_unmounted (es : list Event) (u : Unit) :
  unmounted u = true -> run es u = u.
Proof.
  intros Hu. induction es as [|e es IH]; [reflexivity|].
  unfold run in *. simpl. unfold step at 2. rewrite Hu. exact IH.
Qed.

Lemma run_cons (e : Event) (es : list Event) (u : Unit) :
  run (e :: es) u = run es (step e u).
Proof. reflexivity. Qed.

Lemma run_app (es1 es2 : list Event) (u : Unit) :
  run (es1 ++ es2) u = run es2 (run es1 u).
Proof. unfold run. apply foldl_app. Qed.

Lemma travelling_calls (es : list Event) :
  forall hover t, (t < duration)%N ->
    onCompleteCalls (run es (travelling hover t))
    = if (duration <=? t + playedTime hover es)%N then 1 else 0.
Proof.
  induction es as [|e es IH]; intros hover t Ht.
  - simpl. rewrite N.add_0_r.
    destruct (N.leb_spec duration t); [lia|reflexivity].
  - rewrite run_cons. destruct e as [| |ms|].
    + change (step MouseEnter (travelling hover t)) with (travelling true t).
      now apply IH.
    + change (step MouseLeave (travelling hover t)) with (travelling false t).
      now apply IH.
    + destruct hover.
      * change (step (Elapse ms) (travelling true t)) with (travelling true t).
        simpl playedTime. rewrite N.add_0_l. now apply IH.
      * unfold step, travelling; simpl.
        destruct (N.leb_spec duration (t + ms)) as [Hfin|Hgo].
        -- rewrite run_unmounted by reflexivity. simpl.
           destruct (N.leb_spec duration (t + (ms + playedTime false es)));
             [reflexivity|lia].
        -- fold (travelling false (t + ms)). rewrite IH by assumption.
           now rewrite N.add_assoc.
    + unfold step, travelling; simpl.
      rewrite run_unmounted by reflexivity. simpl. rewrite N.add_0_r.
      destruct (N.leb_spec duration t); [lia|reflexivity].
Qed.

Lemma onComplete_count (es : list Event) :
  onCompleteCalls (run es mountUnit)
  = if (duration <=? playedTime false es)%N then 1 else 0.
Proof.
  change mountUnit with (travelling false 0).
  rewrite travelling_calls by reflexivity. reflexivity.
Qed.

Lemma playedTime_teardown (es1 es2 : list Event) (hover : bool) :
  playedTime hover (es1 ++ Teardown :: es2) = playedTime hover es1.
Proof.
  revert hover. induction es1 as [|e es1 IH]; intros hover; [reflexivity|].
  destruct e; simpl; rewrite ?IH; reflexivity.
Qed.

Lemma step_unmounted_no_animation (e : Event) (u : Unit) :
  (unmounted u = true -> animationRef u = None) ->
  unmounted (step e u) = true -> animationRef (step e u) = None.
Proof.
  intros Hinv. unfold step. destruct (unmounted u) eqn:E; [auto|].
  destruct e as [| |ms|]; simpl; try discriminate; [|reflexivity].
  destruct (animationRef u) as [a|] eqn:Ea; [|now rewrite E].
  destruct (playState a); [|now rewrite E].
  destruct (duration <=? currentTime a + ms)%N; simpl;
    [reflexivity|discriminate].
Qed.

Lemma unmounted_no_animation (es : list Event) (u : Unit) :
  (unmounted u = true -> animationRef u = None) ->
  unmounted (run es u) = true -> animationRef (run es u) = None.
Proof.
  revert u. induction es as [|e es IH]; intros u Hinv; [exact Hinv|].
  rewrite run_cons. apply IH. now apply step_unmounted_no_animation.
Qed.

(** C6.  Over any sequence of pointer events, elapsed time and teardown,
    [onComplete] is called once if the unit was granted its 16 s of
    un-hovered travel before being torn down, and not at all otherwise;
    so it is never called twice, and a unit torn down before it completed
    never calls it afterwards. *)
Theorem onComplete_once_iff_traversal_finished :
  (forall es,
      onCompleteCalls (run es mountUnit)
      = if (duration <=? playedTime false es)%N then 1 else 0)
  /\ (forall es, onCompleteCalls (run es mountUnit) <= 1)
  /\ (forall es1 es2,
        onCompleteCalls (run es1 mountUnit) = 0 ->
        onCompleteCalls (run (es1 ++ Teardown :: es2) mountUnit) = 0
        /\ animationRef (run (es1 ++ Teardown :: es2) mountUnit) = None).
Proof.
  split; [exact onComplete_count|]. split.
  - intros es. rewrite onComplete_count.
    destruct (duration <=? playedTime false es)%N; lia.
  - intros es1 es2 H0. split.
    + rewrite onComplete_count in *. now rewrite playedTime_teardown.
    + rewrite run_app, run_cons.
      assert (Hdead : unmounted (step Teardown (run es1 mountUnit)) = true).
      { unfold step. destruct (unmounted (run es1 mountUnit)) eqn:E;
          [exact E|reflexivity]. }
      rewrite run_unmounted by exact Hdead.
      change (step Teardown (run es1 mountUnit))
        with (run [Teardown] (run es1 mountUnit)) in *.
      rewrite <- run_app in *.
      apply unmounted_no_animation; [discriminate|exact Hdead].
Qed.

Lemma onComplete_teardown_witness :
  onCompleteCalls
    (run ([Elapse 9000; MouseEnter; Elapse 20000] ++ Teardown :: [Elapse 16000])
         mountUnit) = 0
  /\ animationRef
       (run ([Elapse 9000; MouseEnter; Elapse 20000] ++ Teardown :: [Elapse 16000])
            mountUnit) = None.
Proof.
  apply (proj2 (proj2 onComplete_once_iff_traversal_finished)
           [Elapse 9000; MouseEnter; Elapse 20000] [Elapse 16000]).
  vm_compute. reflexivity.
Defined.

End UnitTraversal.


(* ================================================================== *)
(** * Properties of the scheduler *)

Section ReleaseLoop.
Import DanmakuManager.

Lemma validText_text (c : Comment.t) :
  validText c = true ->
  exists s, Comment.text c = Some s
            /\ JS.isEmpty s || JS.isEmpty (JS.trim s) = false.
Proof.
  unfold validText. destruct (Comment.text c) as [s|]; [|discriminate].
  intros H. exists s. split; [reflexivity|].
  destruct (JS.isEmpty s), (JS.isEmpty (JS.trim s)); simpl in *; congruence.
Qed.

Lemma invalidText_addDanmaku (random : nat -> Q) (c : Comment.t)
      (cd : option Comment.t) (st : State) :
  validText c = false -> addDanmaku random (Comment.text c) cd st = st.
Proof.
  unfold validText, addDanmaku. destruct (Comment.text c) as [s|]; [|reflexivity].
  destruct (JS.isEmpty s), (JS.isEmpty (JS.trim s)); simpl; congruence.
Qed.

Lemma playOne_releaseAll (random : nat -> Q) (st : State) (c : Comment.t) :
  mounted st = true -> validText c = true ->
  playOne random st c = releaseAll [c] st.
Proof.
  intros Hm Hv. destruct (validText_text c Hv) as [s [Hs He]].
  unfold playOne, addDanmaku, releaseAll, unitsOf, unitOf.
  unfold log, rand, setPlayedCommentIds, setActiveDanmaku, setHooks.
  rewrite Hs, He. simpl. rewrite Hm. simpl. rewrite Hm.
  unfold with_hooks, hooks_playedCommentIds, hooks_activeDanmaku; simpl.
  f_equal; [f_equal; set_solver|lia|lia|congruence].
Qed.

Lemma releaseAll_mounted (l : list Comment.t) (st : State) :
  mounted (releaseAll l st) = mounted st.
Proof. reflexivity. Qed.

Lemma unitsOf_app (l1 l2 : list Comment.t) (k : nat) :
  unitsOf k (l1 ++ l2) = unitsOf k l1 ++ unitsOf (k + length l1) l2.
Proof.
  revert k. induction l1 as [|c l1 IH]; intros k; simpl.
  - now rewrite Nat.add_0_r.
  - rewrite IH. do 3 f_equal. lia.
Qed.


Lemma releaseAll_app (l1 l2 : list Comment.t) (st : State) :
  releaseAll l2 (releaseAll l1 st) = releaseAll (l1 ++ l2) st.
Proof.
  unfold releaseAll; simpl. rewrite length_app, map_app, map_app.
  f_equal; [|lia|lia|now rewrite app_assoc].
  f_equal.
  - rewrite <- app_assoc. f_equal. now rewrite unitsOf_app.
  - rewrite list_to_set_app_L. set_solver.
Qed.

Lemma foldl_playOne (random : nat -> Q) (l : list Comment.t) (st : State) :
  mounted st = true -> Forall (fun c => validText c = true) l ->
  foldl (playOne random) st l = releaseAll l st.
Proof.
  revert st. induction l as [|c l IH]; intros st Hm Hv.
  - unfold releaseAll. destruct st as [[? ? ? ? ?] ? ? ? ? ? ? ? ? ? ? ? ?]; simpl.
    rewrite !app_nil_r, !Nat.add_0_r. f_equal. f_equal. set_solver.
  - inversion Hv as [|? ? Hc Hl]; subst. simpl.
    rewrite playOne_releaseAll by assumption.
    rewrite IH by assumption. apply (releaseAll_app [c] l).
Qed.

End ReleaseLoop.

Section Unsnoc.
Import DanmakuManager.

Lemma unsnoc_Some (l l' : list Comment.t) (x : Comment.t) :
  unsnoc l = Some (l', x) -> l = l' ++ [x].
Proof.
  unfold unsnoc. intros H. destruct (rev l) as [|y r] eqn:E; [discriminate|].
  inversion H; subst. rewrite <- (rev_involutive l), E. reflexivity.
Qed.

Lemma unsnoc_None (l : list Comment.t) : unsnoc l = None -> l = [].
Proof.
  unfold unsnoc. intros H. destruct (rev l) as [|y r] eqn:E; [|discriminate].
  rewrite <- (rev_involutive l), E. reflexivity.
Qed.

Lemma unsnoc_snoc (l : list Comment.t) (x : Comment.t) :
  unsnoc (l ++ [x]) = Some (l, x).
Proof. unfold unsnoc. rewrite rev_unit, rev_involutive. reflexivity. Qed.

End Unsnoc.

(** [cut_at n l as T D] hides [take n l] and [drop n l] behind the names
    [T] and [D] and rewrites [l] as their concatenation; [case_if]
    splits on the condition of a conditional of the goal; [unsnoc_all]
    resolves what is known of [unsnoc]; [tidy] proves an equation
    between two bracketings of a concatenation. *)
Tactic Notation "cut_at" constr(n) constr(l) "as" ident(T) ident(D) :=
  let E := fresh "E" in
  pose proof (take_drop n l) as E;
  set (T := take n l) in *; set (D := drop n l) in *;
  clearbody T D; try rewrite <- E in *; try subst l.

Ltac case_if :=
  match goal with |- context [if ?c then _ else _] => destruct c end.

Ltac unsnoc_all :=
  repeat match goal with
         | H : DanmakuManager.unsnoc ?l = Some (_, _) |- _ =>
             apply unsnoc_Some in H; subst l
         | H : DanmakuManager.unsnoc ?l = None |- _ =>
             apply unsnoc_None in H; subst l
         end.

Ltac tidy :=
  cbn [app]; repeat (rewrite <- app_assoc; cbn [app]); reflexivity.

Section SortPermutation.
Import DanmakuManager.

Variable random : nat -> Q.


Lemma mergeLowLoop_perm (fuel : nat) :
  forall mode out A B minGallop stored winsA winsB k,
    (mergeLowLoop random fuel mode out A B minGallop stored winsA winsB k).1.1
    ≡ₚ out ++ A ++ B.
Proof.
  induction fuel as [|fuel IH]; intros mode out A B mg st wa wb k;
    [reflexivity|].
  cbn [mergeLowLoop].
  destruct A as [|a0 A']; [reflexivity|].
  destruct B as [|b0 B']; [reflexivity|].
  destruct mode.
  - destruct (less random k b0 a0).
    + destruct B' as [|b1 B'']; [cbn; solve_Permutation|].
      destruct (mg <=? S wb); rewrite IH; solve_Permutation.
    + destruct A' as [|a1 [|a2 A'']];
        try (destruct (mg <=? S wa); rewrite IH); cbn; solve_Permutation.
  - destruct (gallopRight random b0 (a0 :: A') 0 k) as [w k1].
    set (A := a0 :: A') in *. clearbody A.
    cut_at w A as T D.
    destruct D as [|a1 A1']; [cbn; solve_Permutation|].
    destruct ((0 <? w) && (length (a1 :: A1') =? 1));
      [cbn; solve_Permutation|].
    destruct B' as [|b1 B'']; [cbn; solve_Permutation|].
    destruct (gallopLeft random a1 (b1 :: B'') 0 k1) as [w' k2].
    set (B := b1 :: B'') in *. clearbody B.
    cut_at w' B as T' D'.
    destruct D' as [|b2 B3]; [cbn; solve_Permutation|].
    destruct A1' as [|a2 [|a3 A1'']]; cbn;
      try (case_if; rewrite IH); solve_Permutation.
Qed.

Lemma mergeLow_perm (A B : list Comment.t) (stored k : nat) :
  (mergeLow random A B stored k).1.1 ≡ₚ A ++ B.
Proof.
  unfold mergeLow. destruct B as [|b0 [|b1 B'']]; cbn.
  - now rewrite app_nil_r.
  - solve_Permutation.
  - destruct A as [|a0 [|a1 A'']]; try (rewrite mergeLowLoop_perm);
      cbn; solve_Permutation.
Qed.

Lemma mergeHighLoop_perm (fuel : nat) :
  forall mode A B out minGallop stored winsA winsB k,
    (mergeHighLoop random fuel mode A B out minGallop stored winsA winsB k).1.1
    ≡ₚ A ++ B ++ out.
Proof.
  induction fuel as [|fuel IH]; intros mode A B out mg st wa wb k;
    [reflexivity|].
  cbn [mergeHighLoop].
  destruct (unsnoc A) as [[A' aN]|] eqn:UA; [|reflexivity].
  destruct (unsnoc B) as [[B' bN]|] eqn:UB; [|reflexivity].
  destruct mode.
  - apply unsnoc_Some in UA, UB.
    destruct (less random k bN aN).
    + destruct A' as [|a1 A'']; [subst; cbn; solve_Permutation|].
      destruct (mg <=? S wa); rewrite IH; subst; solve_Permutation.
    + destruct B' as [|b1 [|b2 B'']];
        try (destruct (mg <=? S wb); rewrite IH); subst; cbn;
        solve_Permutation.
  - apply unsnoc_Some in UB. clear UA A' aN.
    destruct (gallopRight random bN A (Z.of_nat (length A) - 1) k) as [w k1].
    set (lA := length A). clearbody lA.
    cut_at w A as T D.
    destruct (unsnoc T) as [[A1' a1]|] eqn:UT;
      [|apply unsnoc_None in UT; subst; cbn; solve_Permutation].
    apply unsnoc_Some in UT.
    destruct B' as [|b1 [|b2 B'']]; [| subst; cbn; solve_Permutation |].
    + destruct (gallopLeft random a1 []
                           (Z.of_nat (length (@nil Comment.t)) - 1) k1)
        as [w' k2].
      rewrite take_nil, drop_nil. subst; cbn; solve_Permutation.
    + destruct (gallopLeft random a1 (b1 :: b2 :: B'')
                           (Z.of_nat (length (b1 :: b2 :: B'')) - 1) k1)
        as [w' k2].
      set (B1 := b1 :: b2 :: B'') in *. clearbody B1.
      set (lB := length B1). clearbody lB.
      cut_at w' B1 as T' D'.
      destruct T' as [|b3 B3]; [subst; cbn; solve_Permutation|].
      case_if; [subst; cbn; solve_Permutation|].
      destruct A1' as [|a2 A1'']; [subst; cbn; solve_Permutation|].
      case_if; rewrite IH; subst; cbn; solve_Permutation.
Qed.

Lemma mergeHigh_perm (A B : list Comment.t) (stored k : nat) :
  (mergeHigh random A B stored k).1.1 ≡ₚ A ++ B.
Proof.
  unfold mergeHigh.
  destruct (unsnoc A) as [[A' aN]|] eqn:UA;
    [apply unsnoc_Some in UA|apply unsnoc_None in UA; now subst].
  destruct A' as [|a1 A'']; [subst; cbn; solve_Permutation|].
  destruct B as [|b0 [|b1 B'']]; try rewrite mergeHighLoop_perm; subst; cbn;
    solve_Permutation.
Qed.

Lemma mergeAt_perm (A B : list Comment.t) (stored k : nat) :
  (mergeAt random A B stored k).1.1 ≡ₚ A ++ B.
Proof.
  unfold mergeAt. destruct B as [|b0 B']; [cbn; now rewrite app_nil_r|].
  destruct (gallopRight random b0 A 0 k) as [kA k1].
  destruct (unsnoc (drop kA A)) as [[A1' aN]|]; [|reflexivity].
  destruct (gallopLeft random aN (b0 :: B') _ k1) as [nB k2].
  set (B := b0 :: B') in *. clearbody B.
  destruct (take nB B) as [|b1 B1] eqn:ET; [reflexivity|]. rewrite <- ET.
  assert (M : forall r : list Comment.t * nat * nat,
             r.1.1 ≡ₚ drop kA A ++ take nB B ->
             (let '(m, stored', k3) := r in
              (take kA A ++ m ++ drop nB B, stored', k3)).1.1 ≡ₚ A ++ B).
  { intros [[m s'] k3] Hm. cbn in *. rewrite Hm.
    rewrite <- (take_drop kA A) at 3. rewrite <- (take_drop nB B) at 3.
    solve_Permutation. }
  apply M. case_if; [apply mergeLow_perm|apply mergeHigh_perm].
Qed.

Lemma runTail_le (isDescending : bool) (l : list Comment.t) :
  forall k previous, (runTail random isDescending k previous l).1 <= length l.
Proof.
  induction l as [|x l IH]; intros k previous; cbn; [lia|].
  case_if; cbn; [|lia].
  specialize (IH (S k) x). destruct (runTail random isDescending (S k) x l).
  cbn in *. lia.
Qed.

(** [CountAndMakeRun] cuts a non-empty prefix off the array and returns
    it, possibly reversed. *)
Lemma countAndMakeRun_spec (k : nat) (l : list Comment.t) :
  l <> [] ->
  let '(n, run, _) := countAndMakeRun random k l in
  0 < n <= length l /\ run ≡ₚ take n l.
Proof.
  intros Hl. unfold countAndMakeRun.
  destruct l as [|x [|y l']]; [contradiction| |].
  - cbn. split; [lia|reflexivity].
  - pose proof (runTail_le (less random k y x) l' (S k) y) as Hn.
    destruct (runTail random (less random k y x) (S k) y l') as [n k'].
    cbn in Hn. split; [cbn [length]; lia|].
    case_if; [symmetry; apply Permutation_rev|reflexivity].
Qed.

Lemma binaryInsertionSort_perm (todo : list Comment.t) :
  forall k p, (binaryInsertionSort random k p todo).1 ≡ₚ p ++ todo.
Proof.
  induction todo as [|pivot todo IH]; intros k p; cbn [binaryInsertionSort];
    [cbn; now rewrite app_nil_r|].
  destruct (binarySearch random (S (length p)) k pivot p 0 (length p))
    as [left k'].
  rewrite IH. rewrite <- (take_drop left p) at 3. solve_Permutation.
Qed.

Lemma mergeCollapse_perm (fuel : nat) :
  forall runs stored k,
    concat (rev (mergeCollapse random fuel runs stored k).1.1)
    ≡ₚ concat (rev runs).
Proof.
  induction fuel as [|fuel IH]; intros runs stored k; [reflexivity|].
  cbn [mergeCollapse].
  destruct runs as [|Z [|Y rest]]; [reflexivity..|].
  assert (MYZ : forall r : list Comment.t * nat * nat,
             r.1.1 ≡ₚ Y ++ Z ->
             concat (rev (let '(m, s, k') := r in
                          mergeCollapse random fuel (m :: rest) s k').1.1)
             ≡ₚ concat (rev (Z :: Y :: rest))).
  { intros [[m s] k'] Hm. cbn in Hm. rewrite IH. cbn.
    rewrite !concat_app. cbn. rewrite Hm, !app_nil_r. solve_Permutation. }
  case_if.
  - destruct rest as [|X rest']; [reflexivity|].
    case_if.
    + pose proof (mergeAt_perm X Y stored k) as Hm.
      destruct (mergeAt random X Y stored k) as [[m s] k']. cbn in Hm.
      rewrite IH. cbn. rewrite !concat_app. cbn. rewrite Hm, !app_nil_r.
      solve_Permutation.
    + apply MYZ, mergeAt_perm.
  - case_if; [apply MYZ, mergeAt_perm|reflexivity].
Qed.

Lemma mergeForceCollapse_perm (fuel : nat) :
  forall runs stored k,
    concat (rev (mergeForceCollapse random fuel runs stored k).1.1)
    ≡ₚ concat (rev runs).
Proof.
  induction fuel as [|fuel IH]; intros runs stored k; [reflexivity|].
  cbn [mergeForceCollapse].
  destruct runs as [|Z [|Y rest]]; [reflexivity..|].
  assert (MYZ : forall r : list Comment.t * nat * nat,
             r.1.1 ≡ₚ Y ++ Z ->
             concat (rev (let '(m, s, k') := r in
                          mergeForceCollapse random fuel (m :: rest) s k').1.1)
             ≡ₚ concat (rev (Z :: Y :: rest))).
  { intros [[m s] k'] Hm. cbn in Hm. rewrite IH. cbn.
    rewrite !concat_app. cbn. rewrite Hm, !app_nil_r. solve_Permutation. }
  destruct rest as [|X rest']; [apply MYZ, mergeAt_perm|].
  case_if.
  - pose proof (mergeAt_perm X Y stored k) as Hm.
    destruct (mergeAt random X Y stored k) as [[m s] k']. cbn in Hm.
    rewrite IH. cbn. rewrite !concat_app. cbn. rewrite Hm, !app_nil_r.
    solve_Permutation.
  - apply MYZ, mergeAt_perm.
Qed.

(** One turn of the loop of [ArrayTimSortImpl]: the run that is pushed is
    a non-empty prefix of what is left, rearranged. *)
Lemma nextRun_spec (minRunLength k : nat) (remaining : list Comment.t) :
  remaining <> [] ->
  let '(currentRunLength, run, k1) := countAndMakeRun random k remaining in
  let '(n, run', _) :=
    if currentRunLength <? minRunLength then
      let forcedRunLength := Nat.min minRunLength (length remaining) in
      let (run', k') :=
        binaryInsertionSort
          random k1 run
          (take (forcedRunLength - currentRunLength)
                (drop currentRunLength remaining)) in
      (forcedRunLength, run', k')
    else (currentRunLength, run, k1) in
  0 < n <= length remaining /\ run' ≡ₚ take n remaining.
Proof.
  intros Hr. pose proof (countAndMakeRun_spec k remaining Hr) as C.
  destruct (countAndMakeRun random k remaining) as [[n run] k1].
  destruct C as [Hn Hp].
  destruct (Nat.ltb_spec n minRunLength) as [L|L]; [|now split].
  cbv zeta.
  pose proof (binaryInsertionSort_perm
                (take (Nat.min minRunLength (length remaining) - n)
                      (drop n remaining)) k1 run) as B.
  destruct (binaryInsertionSort random k1 run _) as [run' k'].
  cbn in B. split; [lia|].
  rewrite B, Hp, take_take_drop.
  now replace (n + (Nat.min minRunLength (length remaining) - n))
    with (Nat.min minRunLength (length remaining)) by lia.
Qed.

Lemma sortRuns_perm (fuel : nat) :
  forall minRunLength remaining runs stored k,
    length remaining <= fuel ->
    concat (rev (sortRuns random fuel minRunLength remaining runs stored k).1.1)
    ≡ₚ concat (rev runs) ++ remaining.
Proof.
  induction fuel as [|fuel IH]; intros minRun remaining runs stored k Hf.
  - destruct remaining; [cbn; now rewrite app_nil_r|cbn in Hf; lia].
  - cbn [sortRuns].
    destruct remaining as [|x rem']; [cbn; now rewrite app_nil_r|].
    set (remaining := x :: rem') in *.
    assert (Hr : remaining <> []) by discriminate.
    pose proof (nextRun_spec minRun k remaining Hr) as N.
    destruct (countAndMakeRun random k remaining) as [[n0 run0] k1].
    destruct (if n0 <? minRun then _ else _) as [[n run] k2].
    destruct N as [Hn Hp].
    pose proof (mergeCollapse_perm (S (length runs)) (run :: runs) stored k2)
      as M.
    destruct (mergeCollapse random (S (length runs)) (run :: runs) stored k2)
      as [[runs' stored'] k3].
    cbn in M. rewrite IH.
    + rewrite M, concat_app. cbn. rewrite app_nil_r, Hp.
      rewrite <- (take_drop n remaining) at 3. solve_Permutation.
    + rewrite length_drop. clearbody remaining. lia.
Qed.

Lemma sort_perm (k : nat) (l : list Comment.t) :
  Permutation (fst (sort random k l)) l.
Proof.
  unfold sort. case_if; [reflexivity|].
  pose proof (sortRuns_perm (length l) (computeMinRunLength (length l)) l []
                            kMinGallopWins k (le_n _)) as S.
  destruct (sortRuns random (length l) _ l [] kMinGallopWins k)
    as [[runs stored] k1].
  pose proof (mergeForceCollapse_perm (length runs) runs stored k1) as F.
  destruct (mergeForceCollapse random (length runs) runs stored k1)
    as [[runs' s'] k2].
  cbn in *. now rewrite F, S.
Qed.

Lemma sort_nil (k : nat) : sort random k [] = ([], k).
Proof. reflexivity. Qed.

Lemma sort_length (k : nat) (l : list Comment.t) :
  length (fst (sort random k l)) = length l.
Proof. apply Permutation_length, sort_perm. Qed.

Lemma sort_Forall (P : Comment.t -> Prop) (k : nat) (l : list Comment.t) :
  Forall P l -> Forall P (fst (sort random k l)).
Proof.
  intros H. eapply Permutation_Forall; [|exact H]. symmetry. apply sort_perm.
Qed.

End SortPermutation.

Section Chains.

Context {A : Type} (R : A -> A -> Prop).
Import DanmakuManager.

Lemma chained_cons (x : A) (l : list A) :
  chained R (x :: l) <-> (forall y, head l = Some y -> R x y) /\ chained R l.
Proof.
  destruct l as [|y l]; cbn [chained head].
  - split; [intros _; split; [discriminate|exact I]|tauto].
  - split; intros [H1 H2]; (split; [|exact H2]).
    + intros z Hz. now inversion Hz; subst.
    + now apply H1.
Qed.

Lemma chained_app_iff (l1 l2 : list A) :
  chained R (l1 ++ l2) <-> chained R l1 /\ chained R l2 /\ linked R l1 l2.
Proof.
  unfold linked. induction l1 as [|x l1 IH].
  - cbn. split; [intros H; repeat split; auto; discriminate|tauto].
  - change ((x :: l1) ++ l2) with (x :: (l1 ++ l2)).
    rewrite !chained_cons, IH. destruct l1 as [|x' l1'].
    + cbn. split.
      * intros (H1 & _ & H2 & _). split; [split; [discriminate|exact I]|].
        split; [exact H2|].
        intros a b Ha Hb. inversion Ha; subst. now apply H1.
      * intros (_ & H2 & H3). split; [intros y Hy; now apply H3|].
        split; [exact I|]. split; [exact H2|]. discriminate.
    + cbn [app head last]. tauto.
Qed.

Lemma chained_snoc (l : list A) (a : A) :
  chained R l -> (forall b, last l = Some b -> R b a) -> chained R (l ++ [a]).
Proof.
  intros H1 H2. apply chained_app_iff. repeat split; auto.
  intros x y Hx Hy. inversion Hy; subst. now apply H2.
Qed.

Lemma linked_nil_l (Y : list A) : linked R [] Y.
Proof. intros x y H. discriminate H. Qed.

Lemma linked_nil_r (X : list A) : linked R X [].
Proof. intros x y _ H. discriminate H. Qed.

Lemma last_app_ne (l1 l2 : list A) : l2 <> [] -> last (l1 ++ l2) = last l2.
Proof.
  intros H. destruct l2 as [|y l2] using rev_ind; [contradiction|].
  now rewrite app_assoc, !last_snoc.
Qed.

Lemma head_app_ne (l1 l2 : list A) : l1 <> [] -> head (l1 ++ l2) = head l1.
Proof. intros H. destruct l1; [contradiction|reflexivity]. Qed.

(** Moving the front part [X1] of one continuation in front of the
    other. *)
Lemma splice_front (P X1 X2 Y : list A) :
  chained R (P ++ X1 ++ X2) -> chained R (P ++ Y) -> linked R X1 Y ->
  chained R ((P ++ X1) ++ Y).
Proof.
  intros H1 H2 L. destruct X1 as [|x X1'] eqn:EX.
  - now rewrite app_nil_r.
  - rewrite <- EX in *. assert (Hne : X1 <> []) by (rewrite EX; discriminate).
    clear EX. rewrite app_assoc in H1.
    apply chained_app_iff in H1. apply chained_app_iff in H2.
    apply chained_app_iff. repeat split; [tauto|tauto|].
    intros a b Ha Hb. rewrite last_app_ne in Ha by exact Hne. now apply L.
Qed.

(** Moving the back part [X2] of one continuation behind the other. *)
Lemma splice_back (X1 X2 Y S : list A) :
  chained R ((X1 ++ X2) ++ S) -> chained R (Y ++ S) -> linked R Y X2 ->
  chained R (Y ++ X2 ++ S).
Proof.
  intros H1 H2 L. destruct X2 as [|x X2'] eqn:EX.
  - exact H2.
  - rewrite <- EX in *. assert (Hne : X2 <> []) by (rewrite EX; discriminate).
    clear EX. rewrite <- app_assoc in H1.
    apply chained_app_iff in H1. apply chained_app_iff in H2.
    apply chained_app_iff. repeat split; [tauto|tauto|].
    intros a b Ha Hb. rewrite head_app_ne in Hb by exact Hne. now apply L.
Qed.

Lemma chained_rev (l : list A) :
  chained (fun x y => R y x) l -> chained R (rev l).
Proof.
  induction l as [|a l IH]; intros Hc; simpl; [exact I|].
  destruct Hc as [Ha Hc]. apply chained_snoc; [now apply IH|].
  intros b Hb. destruct l as [|a' l']; simpl in *; [discriminate Hb|].
  rewrite last_snoc in Hb. now inversion Hb; subst.
Qed.

Lemma chained_take (n : nat) (l : list A) : chained R l -> chained R (take n l).
Proof.
  intros H. rewrite <- (take_drop n l) in H.
  now apply chained_app_iff in H.
Qed.

Lemma chained_drop (n : nat) (l : list A) : chained R l -> chained R (drop n l).
Proof.
  intros H. rewrite <- (take_drop n l) in H.
  now apply chained_app_iff in H.
Qed.

End Chains.

Section Comparator.
Import DanmakuManager Binary64.
Local Open Scope Q_scope.

Variable random : nat -> Q.
Hypothesis random_range : forall k, 0 <= random k /\ random k < 1.

Lemma round_half : round (1 # 2) == 1 # 2 /\ round (- (1 # 2)) == - (1 # 2).
Proof. split; vm_compute; reflexivity. Qed.

Lemma round_thousand : round 1000 == 1000 /\ round (- 1000) == - 1000.
Proof. split; vm_compute; reflexivity. Qed.

Lemma randomFactor_range (k : nat) :
  -1000 <= randomFactor (random k) /\ randomFactor (random k) <= 1000.
Proof.
  unfold randomFactor. destruct (random_range k) as [H0 H1].
  destruct round_half as [Rp Rn]. destruct round_thousand as [Tp Tn].
  assert (L : - (1 # 2) <= round (random k - 0.5))
    by (rewrite <- Rn; apply round_mono; lra).
  assert (U : round (random k - 0.5) <= 1 # 2)
    by (rewrite <- Rp; apply round_mono; lra).
  split.
  - rewrite <- Tn. apply round_mono. lra.
  - rewrite <- Tp. apply round_mono. lra.
Qed.

Lemma timeSort_le (a b : Comment.t) (n : Z) :
  round (inject_Z n) == inject_Z n ->
  (Comment.createdAt a - Comment.createdAt b <= n)%Z ->
  timeSort a b <= inject_Z n.
Proof.
  intros E H. unfold timeSort. rewrite <- E. apply round_mono.
  now rewrite <- Zle_Qle.
Qed.

Lemma timeSort_ge (a b : Comment.t) (n : Z) :
  round (inject_Z n) == inject_Z n ->
  (n <= Comment.createdAt a - Comment.createdAt b)%Z ->
  inject_Z n <= timeSort a b.
Proof.
  intros E H. unfold timeSort. rewrite <- E. apply round_mono.
  now rewrite <- Zle_Qle.
Qed.

Lemma comparefn_far_earlier (k : nat) (a b : Comment.t) :
  (Comment.createdAt a + 1000 < Comment.createdAt b)%Z ->
  comparefn (random k) a b < 0.
Proof.
  intros Hab. unfold comparefn. destruct (randomFactor_range k) as [_ Hr].
  assert (E : round (- 1) == - 1) by (vm_compute; reflexivity).
  assert (D : timeSort a b <= inject_Z (- 1001))
    by (apply timeSort_le; [vm_compute; reflexivity|lia]).
  change (inject_Z (- 1001)) with (- 1001) in D.
  assert (M : round (timeSort a b + randomFactor (random k)) <= round (- 1))
    by (apply round_mono; lra).
  lra.
Qed.

Lemma comparefn_far_later (k : nat) (a b : Comment.t) :
  (Comment.createdAt b + 1000 < Comment.createdAt a)%Z ->
  0 < comparefn (random k) a b.
Proof.
  intros Hab. unfold comparefn. destruct (randomFactor_range k) as [Hr _].
  assert (E : round 1 == 1) by (vm_compute; reflexivity).
  assert (D : inject_Z 1001 <= timeSort a b)
    by (apply timeSort_ge; [vm_compute; reflexivity|lia]).
  change (inject_Z 1001) with 1001 in D.
  assert (M : round 1 <= round (timeSort a b + randomFactor (random k)))
    by (apply round_mono; lra).
  lra.
Qed.

Lemma comparefn_small (k : nat) (a b : Comment.t) :
  (Comment.createdAt a + 1000 <= Comment.createdAt b)%Z ->
  comparefn (random k) a b <= 0.
Proof.
  intros Hab. unfold comparefn. destruct (randomFactor_range k) as [_ Hr].
  assert (D : timeSort a b <= inject_Z (- 1000))
    by (apply timeSort_le; [vm_compute; reflexivity|lia]).
  change (inject_Z (- 1000)) with (- 1000) in D.
  apply round_nonpos. lra.
Qed.

Lemma comparefn_large (k : nat) (a b : Comment.t) :
  (Comment.createdAt b + 1000 <= Comment.createdAt a)%Z ->
  0 <= comparefn (random k) a b.
Proof.
  intros Hab. unfold comparefn. destruct (randomFactor_range k) as [Hr _].
  assert (D : inject_Z 1000 <= timeSort a b)
    by (apply timeSort_ge; [vm_compute; reflexivity|lia]).
  change (inject_Z 1000) with 1000 in D.
  apply round_nonneg. lra.
Qed.

(** What one call of the comparator tells about its arguments. *)
Lemma less_true (k : nat) (x y : Comment.t) :
  less random k x y = true -> notMuchLater x y.
Proof.
  unfold less, notMuchLater. intros H. apply negb_true_iff in H.
  destruct (Z_le_gt_dec (Comment.createdAt x) (Comment.createdAt y + 1000))
    as [L|G]; [exact L|].
  assert (C : 0 <= comparefn (random k) x y) by (apply comparefn_large; lia).
  apply Qle_bool_iff in C. congruence.
Qed.

Lemma less_false (k : nat) (x y : Comment.t) :
  less random k x y = false -> notMuchLater y x.
Proof.
  unfold less, notMuchLater. intros H. apply negb_false_iff in H.
  apply Qle_bool_iff in H.
  destruct (Z_le_gt_dec (Comment.createdAt y) (Comment.createdAt x + 1000))
    as [L|G]; [exact L|].
  assert (C : comparefn (random k) x y < 0)
    by (apply comparefn_far_earlier; lia).
  lra.
Qed.

End Comparator.

Section Gallop.
Import DanmakuManager.

Variable isLeft : nat -> Comment.t -> bool.
Variable key : Comment.t.
Variable R : Comment.t -> Comment.t -> Prop.
Hypothesis isLeft_true : forall k x, isLeft k x = true -> R x key.
Hypothesis isLeft_false : forall k x, isLeft k x = false -> R key x.

Variable a : list Comment.t.
Variable dflt : Comment.t.

Lemma element_at (i : Z) :
  (0 <= i < Z.of_nat (length a))%Z ->
  exists x, a !! Z.to_nat i = Some x /\ nth (Z.to_nat i) a dflt = x.
Proof.
  intros Hi. destruct (lookup_lt_is_Some_2 a (Z.to_nat i)) as [x Hx]; [lia|].
  exists x. split; [exact Hx|]. rewrite nth_lookup, Hx. reflexivity.
Qed.

Lemma gallopScan_right (hint maxOfs : Z) (fuel : nat) :
  (0 <= hint)%Z -> (hint + maxOfs = Z.of_nat (length a))%Z ->
  forall k lastOfs offset,
    (0 <= lastOfs < offset)%Z -> (lastOfs < maxOfs)%Z ->
    before R key a (hint + lastOfs) ->
    let '(l, o, _) :=
      gallopScan isLeft a dflt true hint maxOfs fuel k lastOfs offset in
    (0 <= l < o)%Z /\ (o <= maxOfs)%Z
    /\ before R key a (hint + l) /\ after R key a (hint + o).
Proof.
  intros Hh Hn. induction fuel as [|fuel IH]; intros k lastOfs offset Ho Hl Hb;
    cbn [gallopScan].
  - repeat split; try lia; [exact Hb|]. left. lia.
  - destruct (Z.ltb_spec offset maxOfs) as [L|L].
    + destruct (element_at (hint + offset)) as [x [Hx Hnth]]; [lia|].
      rewrite Hnth. destruct (isLeft k x) eqn:E; cbn [Bool.eqb].
      * apply IH; [lia|lia|]. right. exists x. repeat split; [exact Hx|lia|].
        now apply (isLeft_true k).
      * repeat split; try lia; [exact Hb|]. right. exists x.
        repeat split; [exact Hx|lia|]. now apply (isLeft_false k).
    + repeat split; try lia; [exact Hb|]. left. lia.
Qed.

Lemma gallopScan_left (hint : Z) (fuel : nat) :
  (0 <= hint < Z.of_nat (length a))%Z ->
  forall k lastOfs offset,
    (0 <= lastOfs < offset)%Z -> (lastOfs < hint + 1)%Z ->
    after R key a (hint - lastOfs) ->
    let '(l, o, _) :=
      gallopScan isLeft a dflt false hint (hint + 1) fuel k lastOfs offset in
    (0 <= l < o)%Z /\ (o <= hint + 1)%Z
    /\ after R key a (hint - l) /\ before R key a (hint - o).
Proof.
  intros Hh. induction fuel as [|fuel IH]; intros k lastOfs offset Ho Hl Hb;
    cbn [gallopScan].
  - repeat split; try lia; [exact Hb|]. left. lia.
  - destruct (Z.ltb_spec offset (hint + 1)) as [L|L].
    + destruct (element_at (hint - offset)) as [x [Hx Hnth]]; [lia|].
      rewrite Hnth. destruct (isLeft k x) eqn:E; cbn [Bool.eqb].
      * repeat split; try lia; [exact Hb|]. right. exists x.
        repeat split; [exact Hx|lia|]. now apply (isLeft_true k).
      * apply IH; [lia|lia|]. right. exists x. repeat split; [exact Hx|lia|].
        now apply (isLeft_false k).
    + repeat split; try lia; [exact Hb|]. left. lia.
Qed.

Lemma gallopSearch_spec (fuel : nat) :
  forall k lo hi,
    (0 <= lo <= hi)%Z -> (hi <= Z.of_nat (length a))%Z ->
    before R key a (lo - 1) -> after R key a hi ->
    (hi - lo < Z.of_nat fuel)%Z ->
    let (r, _) := gallopSearch isLeft a dflt fuel k lo hi in
    (0 <= r <= Z.of_nat (length a))%Z
    /\ before R key a (r - 1) /\ after R key a r.
Proof.
  induction fuel as [|fuel IH]; intros k lo hi Hlo Hhi Hb Ha Hf;
    cbn [gallopSearch]; [lia|].
  destruct (Z.ltb_spec lo hi) as [L|L].
  - rewrite Z.shiftr_div_pow2 by lia. change (2 ^ 1)%Z with 2%Z.
    set (m := (lo + (hi - lo) / 2)%Z).
    assert (Hm : (lo <= m < hi)%Z).
    { unfold m. pose proof (Z.div_pos (hi - lo) 2).
      pose proof (Z.div_lt_upper_bound (hi - lo) 2 (hi - lo)). lia. }
    destruct (element_at m) as [x [Hx Hnth]]; [lia|].
    rewrite Hnth. destruct (isLeft k x) eqn:E.
    + apply IH; try lia; [|exact Ha]. right. exists x.
      replace (m + 1 - 1)%Z with m by lia.
      repeat split; [exact Hx|lia|]. now apply (isLeft_true k).
    + apply IH; try lia; [exact Hb|]. right. exists x.
      repeat split; [exact Hx|lia|]. now apply (isLeft_false k).
  - assert (lo = hi) by lia. subst lo. repeat split; try lia; assumption.
Qed.

Lemma last_take_lookup (r : nat) (x : Comment.t) :
  r <= length a -> last (take r a) = Some x ->
  exists i, r = S i /\ a !! i = Some x.
Proof.
  intros Hr H. rewrite last_lookup, length_take in H.
  rewrite Nat.min_l in H by exact Hr.
  destruct r as [|i]; [now rewrite take_0 in H|].
  exists i. split; [reflexivity|]. cbn [pred] in H.
  rewrite lookup_take_lt in H by lia. exact H.
Qed.

Lemma head_drop_lookup (r : nat) (x : Comment.t) :
  head (drop r a) = Some x -> a !! r = Some x.
Proof.
  intros H. rewrite head_lookup, lookup_drop in H.
  now rewrite Nat.add_0_r in H.
Qed.

(** A gallop returns a position [r] such that the element in front of it
    was found to belong before the key and the element at it after. *)
Lemma gallop_spec (hint : Z) (k : nat) :
  (0 <= hint < Z.of_nat (length a))%Z ->
  let (r, _) := gallop isLeft a dflt hint k in
  r <= length a
  /\ (forall x, last (take r a) = Some x -> R x key)
  /\ (forall x, head (drop r a) = Some x -> R key x).
Proof.
  intros Hh. unfold gallop.
  assert (S : exists lo hi k1,
             (if isLeft k (nth (Z.to_nat hint) a dflt)
              then
                let '(l, o, k') :=
                  gallopScan isLeft a dflt true hint
                             (Z.of_nat (length a) - hint) (S (length a))
                             (S k) 0 1 in
                ((l + hint)%Z, (o + hint)%Z, k')
              else
                let '(l, o, k') :=
                  gallopScan isLeft a dflt false hint (hint + 1)
                             (S (length a)) (S k) 0 1 in
                ((hint - o)%Z, (hint - l)%Z, k'))
             = (lo, hi, k1)
             /\ (-1 <= lo < hi)%Z /\ (hi <= Z.of_nat (length a))%Z
             /\ before R key a lo /\ after R key a hi).
  { destruct (element_at hint Hh) as [x [Hx Hnth]]. rewrite Hnth.
    destruct (isLeft k x) eqn:E.
    - pose proof (gallopScan_right hint (Z.of_nat (length a) - hint)
                    (S (length a)) ltac:(lia) ltac:(lia) (S k) 0%Z 1%Z
                    ltac:(lia) ltac:(lia)) as G.
      destruct (gallopScan isLeft a dflt true hint _ _ _ 0 1) as [[l o] k'].
      destruct G as (G1 & G2 & G3 & G4).
      { right. exists x. rewrite Z.add_0_r.
        repeat split; [exact Hx|lia|]. now apply (isLeft_true k). }
      exists (l + hint)%Z, (o + hint)%Z, k'.
      rewrite (Z.add_comm l), (Z.add_comm o).
      repeat split; try lia; assumption.
    - pose proof (gallopScan_left hint (S (length a)) Hh (S k) 0%Z 1%Z
                    ltac:(lia) ltac:(lia)) as G.
      destruct (gallopScan isLeft a dflt false hint _ _ _ 0 1) as [[l o] k'].
      destruct G as (G1 & G2 & G3 & G4).
      { right. exists x. rewrite Z.sub_0_r.
        repeat split; [exact Hx|lia|]. now apply (isLeft_false k). }
      exists (hint - o)%Z, (hint - l)%Z, k'.
      repeat split; try lia; assumption. }
  destruct S as (lo & hi & k1 & -> & Hlh & Hhi & Hb & Ha).
  pose proof (gallopSearch_spec (S (length a)) k1 (lo + 1)%Z hi
                ltac:(lia) Hhi) as G.
  replace (lo + 1 - 1)%Z with lo in G by lia.
  specialize (G Hb Ha ltac:(lia)).
  destruct (gallopSearch isLeft a dflt (S (length a)) k1 (lo + 1) hi)
    as [r k2].
  destruct G as (Gr & Gb & Ga).
  split; [lia|]. split.
  - intros x Hx. apply last_take_lookup in Hx; [|lia].
    destruct Hx as [i [Ei Hx]].
    destruct Gb as [Gb|[y (Hy & _ & Ry)]]; [lia|].
    replace (Z.to_nat (r - 1)) with i in Hy by lia. congruence.
  - intros x Hx. apply head_drop_lookup in Hx.
    destruct Ga as [Ga|[y (Hy & _ & Ry)]]; [|congruence].
    apply lookup_lt_Some in Hx. lia.
Qed.

End Gallop.

Section Neighbours.
Import DanmakuManager.

Variable random : nat -> Q.
Hypothesis random_range : forall k, (0 <= random k /\ random k < 1)%Q.

Lemma gallopLeft_spec (key : Comment.t) (a : list Comment.t) (hint : Z)
      (k : nat) :
  (0 <= hint < Z.of_nat (length a))%Z ->
  let (r, _) := gallopLeft random key a hint k in
  r <= length a
  /\ (forall x, last (take r a) = Some x -> notMuchLater x key)
  /\ (forall x, head (drop r a) = Some x -> notMuchLater key x).
Proof.
  intros Hh. unfold gallopLeft. apply gallop_spec; [| |exact Hh].
  - intros k' x H. now apply (less_true random random_range k').
  - intros k' x H. now apply (less_false random random_range k').
Qed.

Lemma gallopRight_spec (key : Comment.t) (a : list Comment.t) (hint : Z)
      (k : nat) :
  (0 <= hint < Z.of_nat (length a))%Z ->
  let (r, _) := gallopRight random key a hint k in
  r <= length a
  /\ (forall x, last (take r a) = Some x -> notMuchLater x key)
  /\ (forall x, head (drop r a) = Some x -> notMuchLater key x).
Proof.
  intros Hh. unfold gallopRight. apply gallop_spec; [| |exact Hh].
  - intros k' x H. apply negb_true_iff in H.
    now apply (less_false random random_range k').
  - intros k' x H. apply negb_false_iff in H.
    now apply (less_true random random_range k').
Qed.

Lemma binarySearch_spec (pivot : Comment.t) (p : list Comment.t) (fuel : nat) :
  forall k left right,
    left <= right <= length p ->
    (forall i x, left = S i -> p !! i = Some x -> notMuchLater x pivot) ->
    (forall x, p !! right = Some x -> notMuchLater pivot x) ->
    right - left < fuel ->
    let (r, _) := binarySearch random fuel k pivot p left right in
    r <= length p
    /\ (forall i x, r = S i -> p !! i = Some x -> notMuchLater x pivot)
    /\ (forall x, p !! r = Some x -> notMuchLater pivot x).
Proof.
  induction fuel as [|fuel IH]; intros k left right Hlr Hb Ha Hf;
    cbn [binarySearch]; [lia|].
  destruct (Nat.ltb_spec left right) as [L|L].
  - set (mid := left + (right - left) / 2).
    assert (Hm : left <= mid < right).
    { unfold mid. pose proof (Nat.div_lt (right - left) 2). lia. }
    destruct (lookup_lt_is_Some_2 p mid) as [x Hx]; [lia|].
    assert (Hnth : nth mid p pivot = x) by (now rewrite nth_lookup, Hx).
    rewrite Hnth.
    destruct (less random k pivot x) eqn:E.
    + apply IH; try lia; [exact Hb|]. intros y Hy.
      assert (y = x) by congruence. subst y.
      now apply (less_true random random_range k).
    + apply IH; try lia; [|exact Ha]. intros i y Ei Hy.
      assert (i = mid) by lia. subst i.
      assert (y = x) by congruence. subst y.
      now apply (less_false random random_range k).
  - assert (left = right) by lia. subst left.
    split; [lia|]. split; assumption.
Qed.

Lemma binaryInsertionSort_chained (todo : list Comment.t) :
  forall k p,
    chained notMuchLater p ->
    chained notMuchLater (binaryInsertionSort random k p todo).1.
Proof.
  induction todo as [|pivot todo IH]; intros k p Hp;
    cbn [binaryInsertionSort]; [exact Hp|].
  pose proof (binarySearch_spec pivot p (S (length p)) k 0 (length p)
                ltac:(lia)) as B.
  destruct (binarySearch random (S (length p)) k pivot p 0 (length p))
    as [r k'].
  destruct B as (Br & Bb & Ba); [intros i x E; lia| |lia|].
  { intros x Hx. apply lookup_lt_Some in Hx. lia. }
  apply IH. apply chained_app_iff. split; [now apply chained_take|]. split.
  - apply chained_cons. split; [|now apply chained_drop].
    intros y Hy. apply Ba. rewrite head_lookup, lookup_drop in Hy.
    now rewrite Nat.add_0_r in Hy.
  - intros x y Hx Hy. inversion Hy; subst.
    rewrite last_lookup, length_take, Nat.min_l in Hx by exact Br.
    destruct r as [|i]; [now rewrite take_0 in Hx|]. cbn [pred] in Hx.
    rewrite lookup_take_lt in Hx by lia. now apply (Bb i).
Qed.

End Neighbours.

Section MergeChains.
Import DanmakuManager.

Variable random : nat -> Q.
Hypothesis random_range : forall k, (0 <= random k /\ random k < 1)%Q.

Lemma runTail_chained (isDescending : bool) (l : list Comment.t) :
  forall k previous,
    chained (if isDescending then fun x y => notMuchLater y x else notMuchLater)
            (previous :: take (runTail random isDescending k previous l).1 l).
Proof.
  induction l as [|x l IH]; intros k previous; cbn [runTail].
  - cbn. tauto.
  - destruct (less random k x previous) eqn:E; destruct isDescending;
      cbn [Bool.eqb]; try (cbn; tauto).
    + specialize (IH (S k) x).
      destruct (runTail random true (S k) x l) as [n k']. cbn [fst take] in *.
      apply chained_cons. split; [|exact IH].
      intros y Hy. inversion Hy; subst.
      now apply (less_true random random_range k).
    + specialize (IH (S k) x).
      destruct (runTail random false (S k) x l) as [n k']. cbn [fst take] in *.
      apply chained_cons. split; [|exact IH].
      intros y Hy. inversion Hy; subst.
      now apply (less_false random random_range k).
Qed.

Lemma countAndMakeRun_chained (k : nat) (l : list Comment.t) :
  chained notMuchLater (countAndMakeRun random k l).1.2.
Proof.
  unfold countAndMakeRun. destruct l as [|x [|y l']]; [exact I|cbn; tauto|].
  pose proof (runTail_chained (less random k y x) l' (S k) y) as T.
  destruct (runTail random (less random k y x) (S k) y l') as [n k'].
  cbn [fst snd] in *. change (take (2 + n) (x :: y :: l'))
    with (x :: y :: take n l').
  destruct (less random k y x) eqn:E.
  - apply chained_rev. apply chained_cons. split; [|exact T].
    intros z Hz. inversion Hz; subst.
    now apply (less_true random random_range k).
  - apply chained_cons. split; [|exact T].
    intros z Hz. inversion Hz; subst.
    now apply (less_false random random_range k).
Qed.

(** A block [T] taken from the front of one of two continuations of
    [out] may be written next when its last element is linked to the
    other continuation. *)
Lemma move_block (out T D Y S : list Comment.t) :
  chained notMuchLater (out ++ (T ++ D) ++ S) -> chained notMuchLater (out ++ Y ++ S) ->
  linked notMuchLater T (Y ++ S) ->
  chained notMuchLater ((out ++ T) ++ D ++ S) /\ chained notMuchLater ((out ++ T) ++ Y ++ S).
Proof.
  intros H1 H2 L. split.
  - now rewrite <- !app_assoc in *.
  - apply (splice_front notMuchLater out T (D ++ S)); [|exact H2|exact L].
    now rewrite <- !app_assoc in H1.
Qed.

(** Label [CopyB]: what is left of [B] is written, then the last element
    of [A]. *)
Lemma copy_block (out B S : list Comment.t) (a : Comment.t) :
  chained notMuchLater (out ++ B ++ S) -> chained notMuchLater (out ++ [a] ++ S) ->
  (forall x, last B = Some x -> notMuchLater x a) ->
  chained notMuchLater ((out ++ B ++ [a]) ++ S).
Proof.
  intros H1 H2 L.
  destruct (move_block out B [] [a] S) as [_ M].
  - now rewrite app_nil_r.
  - exact H2.
  - intros x y Hx Hy. inversion Hy; subst. now apply L.
  - now rewrite <- !app_assoc in *.
Qed.

Lemma last_cons_ne (x : Comment.t) (l : list Comment.t) :
  l <> [] -> last (x :: l) = last l.
Proof. intros H. destruct l; [contradiction|reflexivity]. Qed.

Lemma mergeLowLoop_chained (sfx : list Comment.t) (fuel : nat) :
  forall mode out A B minGallop stored winsA winsB k,
    length A + length B <= fuel ->
    chained notMuchLater (out ++ A ++ sfx) -> chained notMuchLater (out ++ B ++ sfx) ->
    (forall x y, last B = Some x -> last A = Some y -> notMuchLater x y) ->
    chained notMuchLater ((mergeLowLoop random fuel mode out A B minGallop stored
                             winsA winsB k).1.1 ++ sfx).
Proof.
  induction fuel as [|fuel IH]; intros mode out A B mg st wa wb k Hf J1 J2 J3.
  - destruct A; [|cbn in Hf; lia]. destruct B; [|cbn in Hf; lia].
    cbn. now rewrite <- app_assoc.
  - cbn [mergeLowLoop].
    destruct A as [|a0 A'];
      [cbn [fst]; now rewrite <- !app_assoc|].
    destruct B as [|b0 B'];
      [cbn [fst]; now rewrite app_nil_r, <- !app_assoc|].
    destruct mode.
    + (* one element at a time *)
      destruct (less random k b0 a0) eqn:E.
      * destruct (move_block out [b0] B' (a0 :: A') sfx J2 J1) as [M2 M1].
        { intros x y Hx Hy. inversion Hx; inversion Hy; subst.
          now apply (less_true random random_range k). }
        destruct B' as [|b1 B'']; [cbn [fst]; now rewrite <- !app_assoc in *|].
        assert (J3' : forall x y, last (b1 :: B'') = Some x ->
                                  last (a0 :: A') = Some y -> notMuchLater x y).
        { intros x y Hx Hy. apply J3; [|exact Hy].
          now rewrite last_cons_ne. }
        case_if; apply IH; auto; cbn [length] in *; lia.
      * destruct (move_block out [a0] A' (b0 :: B') sfx J1 J2) as [M1 M2].
        { intros x y Hx Hy. inversion Hx; inversion Hy; subst.
          now apply (less_false random random_range k). }
        destruct A' as [|a1 A''].
        { case_if; apply IH; auto; try (cbn [length] in *; lia).
          all: intros x y _ Hy; discriminate Hy. }
        assert (J3' : forall x y, last (b0 :: B') = Some x ->
                                  last (a1 :: A'') = Some y -> notMuchLater x y).
        { intros x y Hx Hy. apply J3; [exact Hx|].
          now rewrite last_cons_ne. }
        destruct A'' as [|a2 A'''].
        { cbn [fst]. apply copy_block; [exact M2|exact M1|].
          intros x Hx. now apply J3'. }
        case_if; apply IH; auto; cbn [length] in *; lia.
    + (* galloping *)
      pose proof (gallopRight_spec random random_range b0 (a0 :: A') 0 k
                    ltac:(cbn [length]; lia)) as G.
      destruct (gallopRight random b0 (a0 :: A') 0 k) as [w k1].
      destruct G as (Gw & Gb & Ga).
      set (A := a0 :: A') in *.
      assert (HA : length A = S (length A')) by reflexivity.
      clearbody A.
      pose proof (take_drop w A) as EA.
      set (T := take w A) in *. set (D := drop w A) in *.
      clearbody T D. subst A.
      destruct (move_block out T D (b0 :: B') sfx J1 J2) as [M1 M2].
      { intros x y Hx Hy. inversion Hy; subst. now apply Gb. }
      destruct D as [|a1 A1'];
        [cbn [fst]; now rewrite <- !app_assoc in *|].
      assert (J3a : forall x y, last (b0 :: B') = Some x ->
                                last (a1 :: A1') = Some y -> notMuchLater x y).
      { intros x y Hx Hy. apply J3; [exact Hx|].
        now rewrite last_app_ne. }
      destruct ((0 <? w) && (length (a1 :: A1') =? 1)) eqn:EC.
      { apply andb_true_iff in EC. destruct EC as [_ EC].
        apply Nat.eqb_eq in EC.
        destruct A1' as [|a2 A1'']; [|cbn [length] in EC; lia].
        cbn [fst]. apply copy_block; [exact M2|exact M1|].
        intros x Hx. now apply J3a. }
      destruct (move_block (out ++ T) [b0] B' (a1 :: A1') sfx M2 M1) as [N2 N1].
      { intros x y Hx Hy. inversion Hx; inversion Hy; subst.
        apply Ga. reflexivity. }
      destruct B' as [|b1 B''];
        [cbn [fst]; now rewrite <- !app_assoc in *|].
      pose proof (gallopLeft_spec random random_range a1 (b1 :: B'') 0 k1
                    ltac:(cbn [length]; lia)) as G'.
      destruct (gallopLeft random a1 (b1 :: B'') 0 k1) as [w' k2].
      destruct G' as (Gw' & Gb' & Ga').
      set (B := b1 :: B'') in *.
      assert (HB : length B = S (length B'')) by reflexivity.
      clearbody B.
      pose proof (take_drop w' B) as EB.
      set (T' := take w' B) in *. set (D' := drop w' B) in *.
      clearbody T' D'. subst B.
      destruct (move_block ((out ++ T) ++ [b0]) T' D' (a1 :: A1') sfx N2 N1)
        as [O2 O1].
      { intros x y Hx Hy. inversion Hy; subst. now apply Gb'. }
      destruct D' as [|b2 B3];
        [cbn [fst]; now rewrite <- !app_assoc in *|].
      destruct (move_block (((out ++ T) ++ [b0]) ++ T') [a1] A1' (b2 :: B3) sfx
                           O1 O2) as [P1 P2].
      { intros x y Hx Hy. inversion Hx; inversion Hy; subst.
        apply Ga'. reflexivity. }
      assert (J3b : forall x y, last (b2 :: B3) = Some x ->
                                last A1' = Some y -> notMuchLater x y).
      { intros x y Hx Hy. apply J3a.
        - rewrite last_cons_ne by (destruct T'; discriminate).
          now rewrite last_app_ne.
        - rewrite last_cons_ne; [exact Hy|]. intros ->. discriminate Hy. }
      rewrite length_app in *. cbn [length] in *. rewrite length_app in *.
      cbn [length] in *.
      destruct A1' as [|a2 [|a3 A1'']].
      * case_if; apply IH; auto; cbn [length] in *; lia.
      * cbn [fst]. apply copy_block; [exact P2|exact P1|].
        intros x Hx. now apply J3b.
      * case_if; apply IH; auto; cbn [length] in *; lia.
Qed.

(** What the loops of [MergeLow] return starts with what was written
    before. *)
Lemma mergeLowLoop_prefix (pfx : list Comment.t) (fuel : nat) :
  forall mode out A B minGallop stored winsA winsB k,
    mergeLowLoop random fuel mode (pfx ++ out) A B minGallop stored winsA winsB k
    = let '(m, s, k') :=
        mergeLowLoop random fuel mode out A B minGallop stored winsA winsB k in
      (pfx ++ m, s, k').
Proof.
  induction fuel as [|fuel IH]; intros mode out A B mg st wa wb k.
  - cbn. now rewrite <- !app_assoc.
  - cbn [mergeLowLoop].
    destruct A as [|a0 A']; [now rewrite <- !app_assoc|].
    destruct B as [|b0 B']; [now rewrite <- !app_assoc|].
    destruct mode.
    + destruct (less random k b0 a0).
      * destruct B' as [|b1 B'']; [now rewrite <- !app_assoc|].
        rewrite <- !app_assoc. destruct (mg <=? S wb); apply IH.
      * destruct A' as [|a1 [|a2 A'']]; rewrite <- ?app_assoc;
          try reflexivity; destruct (mg <=? S wa); apply IH.
    + destruct (gallopRight random b0 (a0 :: A') 0 k) as [w k1].
      destruct (drop w (a0 :: A')) as [|a1 A1'];
        [now rewrite <- !app_assoc|].
      destruct ((0 <? w) && (length (a1 :: A1') =? 1));
        [now rewrite <- !app_assoc|].
      destruct B' as [|b1 B'']; [now rewrite <- !app_assoc|].
      destruct (gallopLeft random a1 (b1 :: B'') 0 k1) as [w' k2].
      destruct (drop w' (b1 :: B'')) as [|b2 B3];
        [now rewrite <- !app_assoc|].
      destruct A1' as [|a2 [|a3 A1'']]; rewrite <- ?app_assoc;
        try reflexivity;
        destruct ((kMinGallopWins <=? w) || (kMinGallopWins <=? w'));
        apply IH.
Qed.

Lemma mergeLow_chained (pfx sfx A B : list Comment.t) (stored k : nat) :
  A <> [] ->
  chained notMuchLater (pfx ++ A ++ sfx) -> chained notMuchLater (pfx ++ B ++ sfx) ->
  (forall x y, head B = Some x -> head A = Some y -> notMuchLater x y) ->
  (forall x y, last B = Some x -> last A = Some y -> notMuchLater x y) ->
  chained notMuchLater (pfx ++ (mergeLow random A B stored k).1.1 ++ sfx).
Proof.
  intros HA J1 J2 Hh Hl. unfold mergeLow.
  destruct B as [|b0 B']; [exact J1|].
  destruct A as [|a0 A']; [contradiction|].
  destruct (move_block pfx [b0] B' (a0 :: A') sfx J2 J1) as [M2 M1].
  { intros x y Hx Hy. inversion Hx; inversion Hy; subst. now apply Hh. }
  destruct B' as [|b1 B'']; [cbn [fst]; now rewrite <- !app_assoc in *|].
  destruct A' as [|a1 A''].
  - cbn [fst].
    pose proof (copy_block pfx (b0 :: b1 :: B'') sfx a0 J2 J1) as C.
    rewrite <- !app_assoc in C.
    change (chained notMuchLater (pfx ++ ((b0 :: b1 :: B'') ++ [a0]) ++ sfx)).
    rewrite <- (app_assoc (b0 :: b1 :: B'')).
    apply C. intros x Hx. now apply Hl.
  - pose proof (mergeLowLoop_prefix pfx (length (a0 :: a1 :: A'')
                                         + length (b0 :: b1 :: B''))
                  OneAtATime [b0] (a0 :: a1 :: A'') (b1 :: B'')
                  stored stored 0 0 k) as E.
    pose proof (mergeLowLoop_chained sfx (length (a0 :: a1 :: A'')
                                          + length (b0 :: b1 :: B''))
                  OneAtATime (pfx ++ [b0]) (a0 :: a1 :: A'') (b1 :: B'')
                  stored stored 0 0 k) as L.
    rewrite E in L.
    destruct (mergeLowLoop random _ OneAtATime [b0] _ _ stored stored 0 0 k)
      as [[m s] k'].
    cbn [fst] in *. rewrite (app_assoc pfx m sfx).
    apply L; [cbn [length]; lia|exact M1|exact M2|].
    intros x y Hx Hy. apply Hl; [|exact Hy]. now rewrite last_cons_ne.
Qed.

(** The mirror image, for [MergeHigh]: a block [T] taken from the back
    of one of two lists that both precede [out]. *)
Lemma move_block_back (pfx D T Y out : list Comment.t) :
  chained notMuchLater (pfx ++ (D ++ T) ++ out) -> chained notMuchLater (pfx ++ Y ++ out) ->
  Y <> [] -> linked notMuchLater Y T ->
  chained notMuchLater (pfx ++ D ++ T ++ out) /\ chained notMuchLater (pfx ++ Y ++ T ++ out).
Proof.
  intros H1 H2 HY L. split.
  - now rewrite <- !app_assoc in *.
  - rewrite app_assoc.
    apply (splice_back notMuchLater (pfx ++ D) T (pfx ++ Y) out).
    + now rewrite <- !app_assoc in *.
    + now rewrite <- app_assoc.
    + intros x y Hx Hy. rewrite last_app_ne in Hx by exact HY. now apply L.
Qed.

(** Label [CopyA]: what is left of [A] is written in front of [out], and
    the first element of [B] in front of it. *)
Lemma copy_front (pfx A out : list Comment.t) (b : Comment.t) :
  chained notMuchLater (pfx ++ [b] ++ out) -> chained notMuchLater (pfx ++ A ++ out) ->
  (forall y, head A = Some y -> notMuchLater b y) ->
  chained notMuchLater (pfx ++ [b] ++ A ++ out).
Proof.
  intros H1 H2 L.
  destruct (move_block_back pfx [] A [b] out) as [_ M].
  - exact H2.
  - exact H1.
  - discriminate.
  - intros x y Hx Hy. inversion Hx; subst. now apply L.
  - exact M.
Qed.

Lemma head_snoc_ne (l : list Comment.t) (x : Comment.t) :
  l <> [] -> head (l ++ [x]) = head l.
Proof. intros H. destruct l; [contradiction|reflexivity]. Qed.

Lemma mergeHighLoop_chained (pfx : list Comment.t) (fuel : nat) :
  forall mode A B out minGallop stored winsA winsB k,
    length A + length B <= fuel ->
    chained notMuchLater (pfx ++ A ++ out) -> chained notMuchLater (pfx ++ B ++ out) ->
    (forall x y, head B = Some x -> head A = Some y -> notMuchLater x y) ->
    chained notMuchLater (pfx ++ (mergeHighLoop random fuel mode A B out minGallop stored
                                     winsA winsB k).1.1).
Proof.
  induction fuel as [|fuel IH]; intros mode A B out mg st wa wb k Hf J1 J2 J3.
  - destruct A; [|cbn in Hf; lia]. destruct B; [|cbn in Hf; lia].
    exact J1.
  - cbn [mergeHighLoop].
    destruct (unsnoc A) as [[A' aN]|] eqn:UA;
      [|apply unsnoc_None in UA; subst A; exact J2].
    destruct (unsnoc B) as [[B' bN]|] eqn:UB;
      [|apply unsnoc_None in UB; subst B; cbn [fst app] in *; exact J1].
    apply unsnoc_Some in UB. subst B.
    destruct mode.
    + (* one element at a time *)
      apply unsnoc_Some in UA. subst A.
      rewrite !length_app in Hf. cbn [length] in Hf.
      destruct (less random k bN aN) eqn:E.
      * destruct (move_block_back pfx A' [aN] (B' ++ [bN]) out J1 J2)
          as [M1 M2].
        { destruct B'; discriminate. }
        { intros x y Hx Hy. rewrite last_snoc in Hx.
          inversion Hx; inversion Hy; subst.
          now apply (less_true random random_range k). }
        destruct A' as [|a1 A'']; [exact M2|].
        assert (J3' : forall x y, head (B' ++ [bN]) = Some x ->
                                  head (a1 :: A'') = Some y -> notMuchLater x y).
        { intros x y Hx Hy. apply J3; [exact Hx|exact Hy]. }
        case_if; apply IH; auto; rewrite ?length_app; cbn [length] in *; lia.
      * destruct (move_block_back pfx B' [bN] (A' ++ [aN]) out J2 J1)
          as [M2 M1].
        { destruct A'; discriminate. }
        { intros x y Hx Hy. rewrite last_snoc in Hx.
          inversion Hx; inversion Hy; subst.
          now apply (less_false random random_range k). }
        destruct B' as [|b1 B''].
        { case_if; apply IH; auto; rewrite ?length_app; cbn [length] in *;
            try lia.
          all: intros x y Hx; discriminate Hx. }
        assert (J3' : forall x y, head (b1 :: B'') = Some x ->
                                  head (A' ++ [aN]) = Some y -> notMuchLater x y).
        { intros x y Hx Hy. apply J3; [|exact Hy]. exact Hx. }
        destruct B'' as [|b2 B'''].
        { cbn [fst]. apply copy_front; [exact M2|exact M1|].
          intros y Hy. now apply J3'. }
        case_if; apply IH; auto; rewrite ?length_app; cbn [length] in *; lia.
    + (* galloping *)
      assert (HAne : A <> []).
      { apply unsnoc_Some in UA. subst A. destruct A'; discriminate. }
      clear UA A' aN.
      pose proof (gallopRight_spec random random_range bN A
                    (Z.of_nat (length A) - 1) k) as G.
      destruct (gallopRight random bN A (Z.of_nat (length A) - 1) k) as [w k1].
      destruct G as (Gw & Gb & Ga).
      { destruct A; [contradiction|cbn [length]; lia]. }
      set (lA := length A) in *.
      assert (HlA : lA = length A) by reflexivity. clearbody lA.
      pose proof (take_drop w A) as EA.
      set (T := take w A) in *. set (D := drop w A) in *.
      clearbody T D. subst A.
      destruct (move_block_back pfx T D (B' ++ [bN]) out J1 J2) as [M1 M2].
      { destruct B'; discriminate. }
      { intros x y Hx Hy. rewrite last_snoc in Hx. inversion Hx; subst.
        now apply Ga. }
      destruct (unsnoc T) as [[A1' a1]|] eqn:UT;
        [|apply unsnoc_None in UT; subst T; exact M2].
      apply unsnoc_Some in UT. subst T.
      assert (J3a : forall x y, head (B' ++ [bN]) = Some x ->
                                head (A1' ++ [a1]) = Some y -> notMuchLater x y).
      { intros x y Hx Hy. apply J3; [exact Hx|].
        rewrite head_app_ne; [exact Hy|]. destruct A1'; discriminate. }
      rewrite <- (app_assoc B' [bN]) in M2.
      destruct (move_block_back pfx B' [bN] (A1' ++ [a1]) (D ++ out))
        as [N2 N1].
      { now rewrite <- !app_assoc in *. }
      { exact M1. }
      { destruct A1'; discriminate. }
      { intros x y Hx Hy. inversion Hy; subst. apply Gb. exact Hx. }
      destruct B' as [|b1 B''].
      { (* nothing is left of B *)
        destruct (gallopLeft random a1 [] _ k1) as [w' k2].
        rewrite take_nil, drop_nil. cbn [fst app] in *. exact N1. }
      destruct B'' as [|b2 B'''].
      { cbn [fst]. apply copy_front; [exact N2|exact N1|].
        intros y Hy. apply J3a; [reflexivity|exact Hy]. }
      set (B1 := b1 :: b2 :: B''') in *.
      assert (HB1 : B1 <> []) by discriminate.
      assert (HlB : length B1 = S (S (length B'''))) by reflexivity.
      clearbody B1.
      pose proof (gallopLeft_spec random random_range a1 B1
                    (Z.of_nat (length B1) - 1) k1) as G'.
      destruct (gallopLeft random a1 B1 (Z.of_nat (length B1) - 1) k1)
        as [w' k2].
      destruct G' as (Gw' & Gb' & Ga'); [lia|].
      set (lB := length B1) in *.
      assert (HlB' : lB = length B1) by reflexivity. clearbody lB.
      pose proof (take_drop w' B1) as EB.
      set (T' := take w' B1) in *. set (D' := drop w' B1) in *.
      clearbody T' D'. subst B1.
      destruct (move_block_back pfx T' D' (A1' ++ [a1]) ([bN] ++ D ++ out))
        as [O2 O1].
      { exact N2. }
      { exact N1. }
      { destruct A1'; discriminate. }
      { intros x y Hx Hy. rewrite last_snoc in Hx. inversion Hx; subst.
        now apply Ga'. }
      destruct T' as [|b3 B3]; [exact O1|].
      assert (J3b : forall x y, head (b3 :: B3) = Some x ->
                                head (A1' ++ [a1]) = Some y -> notMuchLater x y).
      { intros x y Hx Hy. apply J3a; [|exact Hy].
        rewrite <- app_assoc. exact Hx. }
      destruct ((0 <? lB - w') && (length (b3 :: B3) =? 1)) eqn:EC.
      { apply andb_true_iff in EC. destruct EC as [_ EC].
        apply Nat.eqb_eq in EC.
        destruct B3 as [|b4 B3']; [|cbn [length] in EC; lia].
        cbn [fst].
        apply (copy_front pfx (A1' ++ [a1]) (D' ++ [bN] ++ D ++ out) b3);
          [exact O2|exact O1|].
        intros y Hy. apply J3b; [reflexivity|exact Hy]. }
      rewrite <- (app_assoc A1' [a1]) in O1.
      destruct (move_block_back pfx A1' [a1] (b3 :: B3) (D' ++ [bN] ++ D ++ out))
        as [P1 P2].
      { now rewrite <- !app_assoc in *. }
      { exact O2. }
      { discriminate. }
      { intros x y Hx Hy. inversion Hy; subst. now apply Gb'. }
      rewrite !length_app in *. cbn [length] in *.
      destruct A1' as [|a2 A1'']; [cbn [fst]; now rewrite <- !app_assoc in *|].
      assert (J3c : forall x y, head (b3 :: B3) = Some x ->
                                head (a2 :: A1'') = Some y -> notMuchLater x y).
      { intros x y Hx Hy. apply J3b; [exact Hx|exact Hy]. }
      case_if; apply IH; auto; rewrite ?length_app; cbn [length] in *;
        try lia; now rewrite <- !app_assoc in *.
Qed.

(** What the loops of [MergeHigh] return ends with what was written
    before. *)
Lemma mergeHighLoop_suffix (sfx : list Comment.t) (fuel : nat) :
  forall mode A B out minGallop stored winsA winsB k,
    mergeHighLoop random fuel mode A B (out ++ sfx) minGallop stored winsA winsB k
    = let '(m, s, k') :=
        mergeHighLoop random fuel mode A B out minGallop stored winsA winsB k in
      (m ++ sfx, s, k').
Proof.
  induction fuel as [|fuel IH]; intros mode A B out mg st wa wb k.
  - cbn. tidy.
  - cbn [mergeHighLoop].
    destruct (unsnoc A) as [[A' aN]|]; [|tidy].
    destruct (unsnoc B) as [[B' bN]|]; [|tidy].
    destruct mode.
    + destruct (less random k bN aN).
      * destruct A' as [|a1 A'']; [tidy|].
        destruct (mg <=? S wa); apply (IH _ _ _ (aN :: out)).
      * destruct B' as [|b1 [|b2 B'']];
          try (destruct (mg <=? S wb); apply (IH _ _ _ (bN :: out))).
        tidy.
    + destruct (gallopRight random bN A (Z.of_nat (length A) - 1) k) as [w k1].
      destruct (unsnoc (take w A)) as [[A1' a1]|];
        [|tidy].
      destruct B' as [|b1 [|b2 B'']].
      * destruct (gallopLeft random a1 [] _ k1) as [w' k2].
        rewrite take_nil, drop_nil. tidy.
      * tidy.
      * destruct (gallopLeft random a1 (b1 :: b2 :: B'') _ k1) as [w' k2].
        destruct (take w' (b1 :: b2 :: B'')) as [|b3 B3];
          [tidy|].
        destruct ((0 <? length (b1 :: b2 :: B'') - w')
                  && (length (b3 :: B3) =? 1));
          [tidy|].
        destruct A1' as [|a2 A1'']; [tidy|].
        destruct ((kMinGallopWins <=? length A - w)
                  || (kMinGallopWins <=? length (b1 :: b2 :: B'') - w'));
          (rewrite <- (IH _ _ _ (a1 :: drop w' (b1 :: b2 :: B'')
                                    ++ bN :: drop w A ++ out));
           do 2 f_equal; tidy).
Qed.

Lemma mergeHigh_chained (pfx sfx A B : list Comment.t) (stored k : nat) :
  B <> [] ->
  chained notMuchLater (pfx ++ A ++ sfx) -> chained notMuchLater (pfx ++ B ++ sfx) ->
  (forall x y, head B = Some x -> head A = Some y -> notMuchLater x y) ->
  (forall x y, last B = Some x -> last A = Some y -> notMuchLater x y) ->
  chained notMuchLater (pfx ++ (mergeHigh random A B stored k).1.1 ++ sfx).
Proof.
  intros HB J1 J2 Hh Hl. unfold mergeHigh.
  destruct (unsnoc A) as [[A' aN]|] eqn:UA;
    [apply unsnoc_Some in UA; subst A|exact J2].
  destruct (unsnoc B) as [[B' bN]|] eqn:UB;
    [apply unsnoc_Some in UB|apply unsnoc_None in UB; contradiction].
  rewrite <- (app_assoc A' [aN]) in J1.
  destruct (move_block_back pfx A' [aN] B sfx) as [M1 M2].
  { now rewrite <- app_assoc. }
  { exact J2. }
  { exact HB. }
  { intros x y Hx Hy. inversion Hy; subst. apply Hl; [exact Hx|].
    now rewrite last_snoc. }
  destruct A' as [|a1 A'']; [cbn [fst]; now rewrite <- !app_assoc|].
  destruct B as [|b0 [|b1 B'']]; [contradiction| |].
  - cbn [fst].
    apply (copy_front pfx ((a1 :: A'') ++ [aN]) sfx b0); [exact J2| |].
    + now rewrite <- !app_assoc.
    + intros y Hy. now apply Hh.
  - pose proof (mergeHighLoop_suffix sfx
                  (length ((a1 :: A'') ++ [aN]) + length (b0 :: b1 :: B''))
                  OneAtATime (a1 :: A'') (b0 :: b1 :: B'') [aN]
                  stored stored 0 0 k) as E.
    pose proof (mergeHighLoop_chained pfx
                  (length ((a1 :: A'') ++ [aN]) + length (b0 :: b1 :: B''))
                  OneAtATime (a1 :: A'') (b0 :: b1 :: B'') ([aN] ++ sfx)
                  stored stored 0 0 k) as L.
    rewrite E in L.
    destruct (mergeHighLoop random _ OneAtATime _ _ [aN] stored stored 0 0 k)
      as [[m s] k'].
    cbn [fst] in *.
    apply L; [rewrite length_app; cbn [length]; lia|exact M1|exact M2|].
    intros x y Hx Hy. now apply Hh.
Qed.

Lemma last_take_drop_nil (n : nat) (l : list Comment.t) :
  drop n l = [] -> take n l = l.
Proof.
  intros H. rewrite <- (take_drop n l) at 2. now rewrite H, app_nil_r.
Qed.

Lemma mergeAt_chained (A B : list Comment.t) (stored k : nat) :
  A <> [] -> chained notMuchLater A -> chained notMuchLater B ->
  chained notMuchLater (mergeAt random A B stored k).1.1.
Proof.
  intros HA CA CB. unfold mergeAt.
  destruct B as [|b0 B']; [exact CA|].
  set (B := b0 :: B') in *.
  assert (HB : head B = Some b0) by reflexivity.
  assert (HBne : B <> []) by discriminate.
  clearbody B.
  pose proof (gallopRight_spec random random_range b0 A 0 k) as G.
  destruct (gallopRight random b0 A 0 k) as [kA k1].
  destruct G as (Gw & Gb & Ga); [destruct A; [contradiction|cbn; lia]|].
  pose proof (take_drop kA A) as EA.
  set (T := take kA A) in *. set (A1 := drop kA A) in *.
  clearbody T A1. subst A.
  apply chained_app_iff in CA. destruct CA as (CT & CA1 & LTA).
  destruct (unsnoc A1) as [[A1' aN]|] eqn:UA.
  2:{ apply unsnoc_None in UA. subst A1. cbn [fst].
      apply chained_app_iff. split; [now rewrite app_nil_r|].
      split; [exact CB|]. intros x y Hx Hy. rewrite app_nil_r in Hx.
      assert (y = b0) by congruence. subst y. now apply Gb. }
  apply unsnoc_Some in UA.
  pose proof (gallopLeft_spec random random_range aN B
                (Z.of_nat (length B) - 1) k1) as G'.
  destruct (gallopLeft random aN B (Z.of_nat (length B) - 1) k1) as [nB k2].
  destruct G' as (Gw' & Gb' & Ga'); [destruct B; [contradiction|cbn; lia]|].
  pose proof (take_drop nB B) as EB.
  set (B1 := take nB B) in *. set (sfx := drop nB B) in *.
  clearbody B1 sfx. subst B.
  apply chained_app_iff in CB. destruct CB as (CB1 & Csfx & LBS).
  assert (LA1 : last A1 = Some aN) by (subst A1; apply last_snoc).
  destruct B1 as [|b1 B1'] eqn:EB1.
  { cbn [fst app] in *. apply chained_app_iff. split.
    - apply chained_app_iff. repeat split; assumption.
    - split; [exact Csfx|]. intros x y Hx Hy.
      rewrite last_app_ne in Hx by (subst A1; destruct A1'; discriminate).
      assert (x = aN) by congruence. subst x. now apply Ga'. }
  rewrite <- EB1 in *.
  assert (HB1 : B1 <> []) by (rewrite EB1; discriminate).
  assert (HA1 : A1 <> []) by (subst A1; destruct A1'; discriminate).
  assert (Hb0 : head B1 = Some b0).
  { rewrite head_app_ne in HB by exact HB1. exact HB. }
  clear EB1.
  assert (J1 : chained notMuchLater (T ++ A1 ++ sfx)).
  { rewrite app_assoc. apply chained_app_iff. split.
    - apply chained_app_iff. repeat split; assumption.
    - split; [exact Csfx|]. intros x y Hx Hy.
      rewrite last_app_ne in Hx by exact HA1.
      assert (x = aN) by congruence. subst x. now apply Ga'. }
  assert (J2 : chained notMuchLater (T ++ B1 ++ sfx)).
  { apply chained_app_iff. split; [exact CT|]. split.
    - apply chained_app_iff. repeat split; assumption.
    - intros x y Hx Hy. rewrite head_app_ne in Hy by exact HB1.
      assert (y = b0) by congruence. subst y. now apply Gb. }
  assert (Hh : forall x y, head B1 = Some x -> head A1 = Some y -> notMuchLater x y).
  { intros x y Hx Hy. assert (x = b0) by congruence. subst x. now apply Ga. }
  assert (Hl : forall x y, last B1 = Some x -> last A1 = Some y -> notMuchLater x y).
  { intros x y Hx Hy. assert (y = aN) by congruence. subst y. now apply Gb'. }
  destruct (length A1 <=? length B1).
  - pose proof (mergeLow_chained T sfx A1 B1 stored k2 HA1 J1 J2 Hh Hl) as M.
    destruct (mergeLow random A1 B1 stored k2) as [[m s] k3]. exact M.
  - pose proof (mergeHigh_chained T sfx A1 B1 stored k2 HB1 J1 J2 Hh Hl) as M.
    destruct (mergeHigh random A1 B1 stored k2) as [[m s] k3]. exact M.
Qed.

Lemma mergeAt_nonempty (A B : list Comment.t) (stored k : nat) :
  A <> [] -> (mergeAt random A B stored k).1.1 <> [].
Proof.
  intros HA H. pose proof (mergeAt_perm random A B stored k) as P.
  rewrite H in P. apply Permutation_nil_l in P.
  destruct A; [contradiction|discriminate].
Qed.

Lemma goodRuns_merge (X Y : list Comment.t) (stored k : nat) :
  X <> [] /\ chained notMuchLater X -> Y <> [] /\ chained notMuchLater Y ->
  (mergeAt random X Y stored k).1.1 <> []
  /\ chained notMuchLater (mergeAt random X Y stored k).1.1.
Proof.
  intros [HX CX] [HY CY]. split.
  - now apply mergeAt_nonempty.
  - now apply mergeAt_chained.
Qed.

Lemma mergeCollapse_good (fuel : nat) :
  forall runs stored k,
    goodRuns runs ->
    goodRuns (mergeCollapse random fuel runs stored k).1.1.
Proof.
  unfold goodRuns.
  induction fuel as [|fuel IH]; intros runs stored k G; [exact G|].
  cbn [mergeCollapse].
  destruct runs as [|Z [|Y rest]]; [exact G..|].
  inversion G as [|? ? GZ G1]; subst. inversion G1 as [|? ? GY G2]; subst.
  assert (MYZ : goodRuns
                  (let '(m, s, k') := mergeAt random Y Z stored k in
                   mergeCollapse random fuel (m :: rest) s k').1.1).
  { pose proof (goodRuns_merge Y Z stored k GY GZ) as M.
    destruct (mergeAt random Y Z stored k) as [[m s] k'].
    apply IH. constructor; assumption. }
  destruct (runInvariantBroken (Z :: Y :: rest)).
  - destruct rest as [|X rest']; [exact G|].
    inversion G2 as [|? ? GX G3]; subst.
    destruct (length X <? length Z); [|exact MYZ].
    pose proof (goodRuns_merge X Y stored k GX GY) as M.
    destruct (mergeAt random X Y stored k) as [[m s] k'].
    apply IH. constructor; [exact GZ|]. constructor; assumption.
  - destruct (length Y <=? length Z); [exact MYZ|exact G].
Qed.

Lemma mergeForceCollapse_good (fuel : nat) :
  forall runs stored k,
    goodRuns runs -> length runs <= S fuel ->
    goodRuns (mergeForceCollapse random fuel runs stored k).1.1
    /\ length (mergeForceCollapse random fuel runs stored k).1.1 <= 1.
Proof.
  unfold goodRuns.
  induction fuel as [|fuel IH]; intros runs stored k G Hl;
    [split; [exact G|exact Hl]|].
  cbn [mergeForceCollapse].
  destruct runs as [|Z [|Y rest]]; [split; [exact G|cbn; lia]..|].
  inversion G as [|? ? GZ G1]; subst. inversion G1 as [|? ? GY G2]; subst.
  cbn [length] in Hl.
  assert (MYZ : let r := (let '(m, s, k') := mergeAt random Y Z stored k in
                          mergeForceCollapse random fuel (m :: rest) s k') in
                goodRuns r.1.1 /\ length r.1.1 <= 1).
  { pose proof (goodRuns_merge Y Z stored k GY GZ) as M.
    destruct (mergeAt random Y Z stored k) as [[m s] k'].
    apply IH; [constructor; assumption|cbn [length]; lia]. }
  destruct rest as [|X rest']; [exact MYZ|].
  inversion G2 as [|? ? GX G3]; subst.
  destruct (length X <? length Z); [|exact MYZ].
  pose proof (goodRuns_merge X Y stored k GX GY) as M.
  destruct (mergeAt random X Y stored k) as [[m s] k'].
  apply IH; [|cbn [length] in *; lia].
  constructor; [exact GZ|]. constructor; assumption.
Qed.

Lemma sortRuns_good (fuel : nat) :
  forall minRunLength remaining runs stored k,
    goodRuns runs ->
    goodRuns (sortRuns random fuel minRunLength remaining runs stored k).1.1.
Proof.
  induction fuel as [|fuel IH]; intros minRun remaining runs stored k G;
    [exact G|].
  cbn [sortRuns]. destruct remaining as [|x rem']; [exact G|].
  set (remaining := x :: rem') in *.
  assert (Hr : remaining <> []) by discriminate. clearbody remaining.
  pose proof (nextRun_spec random minRun k remaining Hr) as N.
  pose proof (countAndMakeRun_chained k remaining) as C.
  destruct (countAndMakeRun random k remaining) as [[n0 run0] k1].
  cbn [fst snd] in C.
  assert (C' : chained notMuchLater
                 (if n0 <? minRun
                  then
                    let forcedRunLength := Nat.min minRun (length remaining) in
                    let (run', k') :=
                      binaryInsertionSort
                        random k1 run0
                        (take (forcedRunLength - n0) (drop n0 remaining)) in
                    (forcedRunLength, run', k')
                  else (n0, run0, k1)).1.2).
  { destruct (n0 <? minRun); [|exact C]. cbv zeta.
    pose proof (binaryInsertionSort_chained random random_range
                  (take (Nat.min minRun (length remaining) - n0)
                        (drop n0 remaining)) k1 run0 C) as B.
    destruct (binaryInsertionSort random k1 run0 _) as [run' k']. exact B. }
  destruct (if n0 <? minRun then _ else _) as [[n run] k2].
  cbn [fst snd] in C'. destruct N as [Hn Hp].
  assert (Hrun : run <> []).
  { intros ->. apply Permutation_nil_l in Hp.
    destruct remaining; [contradiction|]. destruct n; [lia|discriminate]. }
  pose proof (mergeCollapse_good (S (length runs)) (run :: runs) stored k2) as M.
  destruct (mergeCollapse random (S (length runs)) (run :: runs) stored k2)
    as [[runs' stored'] k3].
  apply IH. apply M. constructor; [split; assumption|exact G].
Qed.

(** In what [sort] returns, no element is more than a second later than
    the one after it. *)
Lemma sort_chained (k : nat) (l : list Comment.t) :
  chained notMuchLater (sort random k l).1.
Proof.
  unfold sort. destruct (length l <? 2) eqn:E.
  - apply Nat.ltb_lt in E. destruct l as [|x [|y l']]; cbn in *; try tauto; lia.
  - pose proof (sortRuns_good (length l) (computeMinRunLength (length l)) l []
                  kMinGallopWins k (Forall_nil_2 _)) as G.
    destruct (sortRuns random (length l) _ l [] kMinGallopWins k)
      as [[runs stored] k1].
    cbn [fst] in G.
    pose proof (mergeForceCollapse_good (length runs) runs stored k1 G
                  (Nat.le_succ_diag_r _)) as [G' L].
    destruct (mergeForceCollapse random (length runs) runs stored k1)
      as [[runs' s'] k2].
    cbn [fst] in *.
    destruct runs' as [|r [|r' rest]]; [exact I| |cbn in L; lia].
    cbn. rewrite app_nil_r. inversion G' as [|? ? [_ C] _]; subst. exact C.
Qed.

End MergeChains.

Section BatchSize.
Import DanmakuManager.

Lemma perTick_pos (mobile : bool) : (0 < perTick mobile)%Z.
Proof. destruct mobile; reflexivity. Qed.

Lemma canAdd_nonneg (maxC : Z) (active : nat) : (0 <= canAdd maxC active)%Z.
Proof. unfold canAdd. lia. Qed.

Lemma toPlayNow_formula (mobile : bool) (u : Q) (active len : nat) :
  Z.of_nat (toPlayNow mobile u active len)
  = Z.min (Z.min (Z.max 0 (maxConcurrent mobile u - Z.of_nat active))
                 (Z.of_nat len))
          (perTick mobile).
Proof.
  unfold toPlayNow, canAdd. pose proof (perTick_pos mobile). lia.
Qed.

Lemma toPlayNow_le_len (mobile : bool) (u : Q) (active len : nat) :
  toPlayNow mobile u active len <= len.
Proof. pose proof (toPlayNow_formula mobile u active len). lia. Qed.

Lemma maxConcurrent_lower (mobile : bool) (u : Q) :
  (0 <= u)%Q -> (8 <= maxConcurrent mobile u)%Z.
Proof.
  intros Hu. unfold maxConcurrent.
  assert (H5 : (0 <= Qfloor (u * 5))%Z).
  { change 0%Z with (Qfloor 0). apply Qfloor_resp_le. lra. }
  assert (H16 : (0 <= Qfloor (u * 16))%Z).
  { change 0%Z with (Qfloor 0). apply Qfloor_resp_le. lra. }
  destruct mobile; lia.
Qed.


Lemma toPlayNow_pos (mobile : bool) (u : Q) (active len : nat) :
  (0 <= u)%Q -> active < 8 -> 0 < len ->
  1 <= toPlayNow mobile u active len.
Proof.
  intros Hu Ha Hl.
  pose proof (toPlayNow_formula mobile u active len) as F.
  pose proof (maxConcurrent_lower mobile u Hu).
  assert (2 <= perTick mobile)%Z by (destruct mobile; simpl; lia).
  lia.
Qed.

End BatchSize.

Section Batch.
Import DanmakuManager.

Variable random : nat -> Q.

Lemma released_playing (l : list Comment.t) :
  omap (fun e => match e with LogPlaying c => Some c | _ => None end)
       (map LogPlaying l) = l.
Proof.
  induction l as [|c l IH]; [reflexivity|].
  change (map LogPlaying (c :: l)) with ([LogPlaying c] ++ map LogPlaying l).
  rewrite omap_app, IH. reflexivity.
Qed.

Lemma playNextBatch_cons (env : Hooks) (w : Z) (c : Comment.t)
      (rest : list Comment.t) (st : State) :
  mounted st = true -> Forall (fun c => validText c = true) (c :: rest) ->
  playNextBatch env w random (c :: rest) st
  = let n := toPlayNow (isMobile w) (random (drawn st))
                       (length (activeDanmaku env)) (length (c :: rest)) in
    let st1 :=
      releaseAll (take n (c :: rest))
                 (with_drawn (S (drawn st))
                    (log (LogPlayNextBatch (length (c :: rest))) st)) in
    match drop n (c :: rest) with
    | [] => st1
    | remaining =>
        snd (setTimeout (NextBatch env remaining)
                        (randomDelay (isMobile w) (random (drawn st1)))
                        (with_drawn (S (drawn st1)) st1))
    end.
Proof.
  intros Hm Hv. unfold playNextBatch.
  change (rand random (log (LogPlayNextBatch (length (c :: rest))) st))
    with (random (drawn st),
          with_drawn (S (drawn st))
                     (log (LogPlayNextBatch (length (c :: rest))) st)).
  cbv zeta. cbv beta iota.
  rewrite foldl_playOne; [reflexivity|exact Hm|].
  apply Forall_take. exact Hv.
Qed.

(** What one call of [playNextBatch] on a non-empty list of valid comments
    does to a mounted component. *)
Lemma playNextBatch_effect (env : Hooks) (w : Z) (l : list Comment.t)
      (st : State) :
  mounted st = true -> Forall (fun c => validText c = true) l -> l <> [] ->
  let n := toPlayNow (isMobile w) (random (drawn st))
                     (length (activeDanmaku env)) (length l) in
  let st' := playNextBatch env w random l st in
  released st' = released st ++ take n l
  /\ pool st' = pool st ++ unitsOf (nextToken st) (take n l)
  /\ played st' = played st ∪ list_to_set (map Comment.id (take n l))
  /\ nextToken st' = nextToken st + length (take n l)
  /\ mounted st' = true
  /\ isRestartingRef st' = isRestartingRef st
  /\ comments (hooks st') = comments (hooks st)
  /\ timers st'
     = timers st
       ++ match drop n l with
          | [] => []
          | remaining =>
              [{| handle := nextHandle st;
                  delay := randomDelay (isMobile w)
                                       (random (S (drawn st) + length (take n l)));
                  callback := NextBatch env remaining |}]
          end.
Proof.
  intros Hm Hv Hne. destruct l as [|c rest]; [congruence|]. clear Hne.
  cbv zeta. rewrite playNextBatch_cons by assumption. cbv zeta.
  set (n := toPlayNow _ _ _ _).
  destruct (drop n (c :: rest)) as [|r rem] eqn:Hd;
    unfold released, pool, played, setTimeout, log; simpl;
    rewrite !omap_app, released_playing; simpl;
    rewrite ?app_nil_r; repeat split; auto.
Qed.

(** With no restart armed, the commit that follows a task only records
    the mounted units and the dependencies of the restart effect. *)
Lemma restartEffect_idle (env : Hooks) (st : State) :
  isRestartingRef st = false -> restartEffect random env st = st.
Proof.
  intros H. unfold restartEffect. rewrite H.
  now rewrite andb_false_r.
Qed.

Lemma commit_idle (env : Hooks) (st : State) :
  isRestartingRef st = false ->
  hooks (commit random env st) = hooks st
  /\ timers (commit random env st) = timers st
  /\ console (commit random env st) = console st
  /\ mounted (commit random env st) = mounted st
  /\ isRestartingRef (commit random env st) = false
  /\ isProcessingRef (commit random env st) = isProcessingRef st
  /\ nextToken (commit random env st) = nextToken st
  /\ nextHandle (commit random env st) = nextHandle st
  /\ drawn (commit random env st) = drawn st.
Proof.
  intros H. unfold commit. destruct (mounted st) eqn:Hm; [|now rewrite Hm].
  match goal with |- context [if ?b then _ else _] => destruct b end.
  - simpl. now rewrite Hm.
  - rewrite restartEffect_idle by exact H. simpl. now rewrite Hm.
Qed.

End Batch.

Section Frames.
Import DanmakuManager.

Variable random : nat -> Q.

(** The restart effect and the commit touch neither the state cells nor
    the console. *)
Lemma restartEffect_frame (env : Hooks) (st : State) :
  hooks (restartEffect random env st) = hooks st
  /\ console (restartEffect random env st) = console st
  /\ mounted (restartEffect random env st) = mounted st
  /\ units (restartEffect random env st) = units st
  /\ nextToken (restartEffect random env st) = nextToken st.
Proof.
  unfold restartEffect.
  match goal with |- context [if ?b then _ else _] => destruct b end;
    [|repeat split].
  unfold sortComments.
  destruct (sort random (drawn (with_isRestartingRef false st))
                 (List.filter validText (comments env))) as [l k].
  destruct (0 <? length l); repeat split.
Qed.

Lemma commit_frame (env : Hooks) (st : State) :
  hooks (commit random env st) = hooks st
  /\ console (commit random env st) = console st
  /\ mounted (commit random env st) = mounted st
  /\ nextToken (commit random env st) = nextToken st.
Proof.
  unfold commit. destruct (mounted st) eqn:Hm; [|repeat split; exact Hm].
  match goal with |- context [if ?b then _ else _] => destruct b end.
  - simpl. repeat split. exact Hm.
  - destruct (restartEffect_frame env
                (with_restartDeps
                   (size (playedCommentIds env), length (comments env))
                   (with_units (mountUnits env (units st)) st)))
      as (Rh & Rc & Rm & _ & Rt).
    rewrite Rh, Rc, Rm, Rt. simpl. repeat split. exact Hm.
Qed.

Lemma mountUnits_keys (env : Hooks) (old : list (nat * Hooks)) :
  map fst (mountUnits env old) = map Danmaku.id (activeDanmaku env).
Proof.
  unfold mountUnits. rewrite map_map. apply map_ext_in. intros d _.
  destruct (List.find (fun ke => fst ke =? Danmaku.id d) old) as [ke|] eqn:F;
    [|reflexivity].
  apply List.find_some in F. destruct F as [_ F].
  now apply Nat.eqb_eq in F.
Qed.

Lemma commit_units (env : Hooks) (st : State) :
  mounted st = true ->
  map fst (units (commit random env st)) = map Danmaku.id (activeDanmaku env).
Proof.
  intros Hm. unfold commit. rewrite Hm.
  match goal with |- context [if ?b then _ else _] => destruct b end.
  - simpl. apply mountUnits_keys.
  - destruct (restartEffect_frame env
                (with_restartDeps
                   (size (playedCommentIds env), length (comments env))
                   (with_units (mountUnits env (units st)) st)))
      as (_ & _ & _ & Ru & _).
    rewrite Ru. simpl. apply mountUnits_keys.
Qed.

Lemma commit_synced (st : State) :
  mounted st = true -> unitsMounted (commit random (hooks st) st).
Proof.
  intros Hm. unfold unitsMounted.
  destruct (commit_frame (hooks st) st) as (Ch & _).
  rewrite Ch. now apply commit_units.
Qed.

(** [removeDanmaku] drops the entries carrying the token and leaves the
    played set and the console alone. *)
Lemma removeDanmaku_frame (env : Hooks) (key : nat) (st : State) :
  mounted st = true ->
  pool (removeDanmaku env key st)
  = List.filter (fun item => negb (Danmaku.id item =? key)) (pool st)
  /\ played (removeDanmaku env key st) = played st
  /\ comments (hooks (removeDanmaku env key st)) = comments (hooks st)
  /\ console (removeDanmaku env key st) = console st
  /\ mounted (removeDanmaku env key st) = true.
Proof.
  intros Hm. unfold removeDanmaku, pool, played. rewrite Hm.
  match goal with |- context [if ?b then _ else _] => destruct b end.
  - destruct (restartTimer env) as [h|];
      unfold setActiveDanmaku, setRestartTimer, setHooks, setTimeout,
             clearTimeout; simpl; rewrite Hm; simpl; rewrite Hm; simpl;
        repeat split; exact Hm.
  - unfold setActiveDanmaku, setHooks. rewrite Hm. simpl. repeat split.
    exact Hm.
Qed.





End Frames.

Section Drain.
Import DanmakuManager.

Variable random : nat -> Q.

Lemma findTimer_head (t : Timer) (ts : list Timer) :
  findTimer (handle t) (t :: ts) = Some t.
Proof. unfold findTimer. simpl. now rewrite Nat.eqb_refl. Qed.

Lemma clearTimeout_single (t : Timer) (st : State) :
  timers st = [t] -> timers (clearTimeout (handle t) st) = [].
Proof.
  intros Ht. unfold clearTimeout. simpl. rewrite Ht. simpl.
  now rewrite Nat.eqb_refl.
Qed.

Lemma released_console (st st' : State) :
  console st' = console st -> released st' = released st.
Proof. unfold released. now intros ->. Qed.

(** One firing of the pending batch timer. *)
Lemma fireNext_batch (env : Hooks) (l : list Comment.t) (st : State) (w : Z) :
  batchPending env l st -> mounted st = true -> isRestartingRef st = false ->
  Forall (fun c => validText c = true) l -> l <> [] ->
  let n := toPlayNow (isMobile w) (random (drawn st))
                     (length (activeDanmaku env)) (length l) in
  let st' := fireNext random st w in
  released st' = released st ++ take n l
  /\ pool st' = pool st ++ unitsOf (nextToken st) (take n l)
  /\ played st' = played st ∪ list_to_set (map Comment.id (take n l))
  /\ nextToken st' = nextToken st + length (take n l)
  /\ mounted st' = true
  /\ isRestartingRef st' = false
  /\ comments (hooks st') = comments (hooks st)
  /\ unitsMounted st'
  /\ match drop n l with
     | [] => timers st' = []
     | remaining => batchPending env remaining st'
     end.
Proof.
  intros [t [Ht [Hc Hp]]] Hm Hr Hv Hne. cbv zeta.
  unfold fireNext. rewrite Ht. unfold step.
  rewrite Ht, findTimer_head.
  pose proof (clearTimeout_single t st Ht) as Hclear.
  set (st0 := clearTimeout (handle t) st) in *.
  assert (Hm0 : mounted st0 = true) by exact Hm.
  pose proof (playNextBatch_effect random env w l st0 Hm0 Hv Hne) as E.
  cbv zeta in E.
  change (drawn st0) with (drawn st) in E.
  change (nextToken st0) with (nextToken st) in E.
  change (released st0) with (released st) in E.
  change (pool st0) with (pool st) in E.
  change (played st0) with (played st) in E.
  change (isRestartingRef st0) with (isRestartingRef st) in E.
  change (comments (hooks st0)) with (comments (hooks st)) in E.
  change (nextHandle st0) with (nextHandle st) in E.
  rewrite Hclear in E. simpl app in E.
  set (n := toPlayNow _ _ _ _) in *.
  set (st1 := playNextBatch env w random l st0) in *.
  destruct E as (Erel & Epool & Eplayed & Etok & Emount & Erest & Ecom & Etim).
  assert (Hst2 : exists st2,
             runCallback w random (callback t) st0 = st2
             /\ released st2 = released st1 /\ hooks st2 = hooks st1
             /\ nextToken st2 = nextToken st1 /\ mounted st2 = mounted st1
             /\ isRestartingRef st2 = isRestartingRef st1
             /\ timers st2 = timers st1).
  { destruct (callback t) as [e l'|e l'|e l'|]; simpl in Hc, Hp;
      try discriminate Hc; inversion Hc; subst e l';
        eexists; (split; [reflexivity|]); simpl; fold st1; repeat split. }
  destruct Hst2 as (st2 & -> & Hrel2 & Hh2 & Htok2 & Hm2 & Hr2 & Ht2).
  assert (Hr2' : isRestartingRef st2 = false) by congruence.
  destruct (commit_idle random (hooks st2) st2 Hr2')
    as (Ch & Ct & Cc & Cm & Cr & _ & Ctok & _ & _).
  set (st3 := commit random (hooks st2) st2) in *.
  assert (Hrel3 : released st3 = released st2) by now apply released_console.
  assert (Hsync : unitsMounted st3) by (apply commit_synced; congruence).
  unfold pool, played in *.
  repeat split; try congruence.
  destruct (drop n l) as [|r rem].
  - congruence.
  - exists {| handle := nextHandle st;
              delay := randomDelay (isMobile w)
                                   (random (S (drawn st) + length (take n l)));
              callback := NextBatch env (r :: rem) |}.
    split; [rewrite Ct, Ht2; exact Etim|split; reflexivity].
Qed.


Hypothesis random_range : forall k, (0 <= random k /\ random k < 1)%Q.

(** Firing the batch timer until the list is used up releases exactly
    the list, provided the render the timers belong to saw fewer active
    units than the smallest target. *)
Lemma drain_releases (widths : list Z) :
  forall (env : Hooks) (l : list Comment.t) (st : State),
    length l <= length widths ->
    mounted st = true -> isRestartingRef st = false ->
    length (activeDanmaku env) < 8 ->
    Forall (fun c => validText c = true) l ->
    match l with
    | [] => timers st = []
    | _ => batchPending env l st
    end ->
    unitsMounted st ->
    let st' := drain random widths st in
    released st' = released st ++ l
    /\ pool st' = pool st ++ unitsOf (nextToken st) l
    /\ played st' = played st ∪ list_to_set (map Comment.id l)
    /\ timers st' = []
    /\ mounted st' = true
    /\ isRestartingRef st' = false
    /\ comments (hooks st') = comments (hooks st)
    /\ unitsMounted st'.
Proof.
  induction widths as [|w ws IH];
    intros env l st Hlen Hm Hr Hact Hv Hpend Hsync.
  - destruct l; [|simpl in Hlen; lia]. simpl.
    rewrite !app_nil_r. repeat split; auto. unfold played. set_solver.
  - destruct l as [|c rest].
    + assert (Hstay : fireNext random st w = st)
        by (unfold fireNext; now rewrite Hpend).
      unfold drain in *. simpl. rewrite Hstay.
      apply (IH env [] st); simpl; auto; lia.
    + assert (Hne : c :: rest <> []) by discriminate.
      pose proof (fireNext_batch env (c :: rest) st w Hpend Hm Hr Hv Hne) as F.
      cbv zeta in F.
      set (n := toPlayNow _ _ _ _) in *.
      assert (Hn1 : 1 <= n).
      { apply toPlayNow_pos; [apply random_range|exact Hact|simpl; lia]. }
      assert (Hn2 : n <= length (c :: rest)) by apply toPlayNow_le_len.
      destruct F
        as (Frel & Fpool & Fplayed & Ftok & Fm & Fr & Fcom & Fsync & Ftim).
      set (st1 := fireNext random st w) in *.
      assert (Hlen' : length (drop n (c :: rest)) <= length ws).
      { rewrite length_drop. simpl in *. lia. }
      assert (Hv' : Forall (fun c => validText c = true) (drop n (c :: rest)))
        by now apply Forall_drop.
      assert (Hpend' : match drop n (c :: rest) with
                       | [] => timers st1 = []
                       | _ => batchPending env (drop n (c :: rest)) st1
                       end).
      { destruct (drop n (c :: rest)); exact Ftim. }
      specialize
        (IH env (drop n (c :: rest)) st1 Hlen' Fm Fr Hact Hv' Hpend' Fsync).
      cbv zeta in IH. cbv zeta.
      change (drain random (w :: ws) st) with (drain random ws st1).
      destruct IH as (Irel & Ipool & Iplayed & Itim & Im & Ir & Icom & Isync).
      rewrite Irel, Ipool, Iplayed, Frel, Fpool, Fplayed, Ftok.
      rewrite <- !app_assoc, <- unitsOf_app, take_drop.
      repeat split; auto; [|congruence].
      rewrite <- (take_drop n (c :: rest)) at 3.
      rewrite map_app, list_to_set_app_L. set_solver.
Qed.

End Drain.

Section Loading.
Import DanmakuManager.

Variable random : nat -> Q.



Lemma filter_validText_Forall (f : Comment.t -> bool) (cs : list Comment.t) :
  Forall (fun c => validText c = true)
         (List.filter (fun c => f c && validText c) cs).
Proof.
  apply List.Forall_forall. intros c Hc. apply List.filter_In in Hc.
  destruct Hc as [_ Hc]. now apply andb_true_iff in Hc.
Qed.

(** The cleanup of the auto-play effect when no timer is pending. *)
Lemma runAutoPlayCleanup_idle (st : State) :
  timers st = [] -> isProcessingRef st = false -> isRestartingRef st = false ->
  let st' := runAutoPlayCleanup st in
  timers st' = [] /\ isProcessingRef st' = false /\ isRestartingRef st' = false
  /\ hooks st' = hooks st /\ console st' = console st
  /\ mounted st' = mounted st /\ nextToken st' = nextToken st
  /\ drawn st' = drawn st.
Proof.
  intros Ht Hp Hr. cbv zeta. unfold runAutoPlayCleanup.
  destruct (autoPlayCleanup st) as [[timer [h|]]|];
    unfold clearTimeout; simpl; rewrite ?Ht; simpl; repeat split; auto.
Qed.

(** The auto-play effect on an idle component: it arms the 1 s timer that
    will start releasing the unplayed comments of valid text, in the order
    the jittered sort gave them. *)
Lemma autoPlayEffect_idle (env : Hooks) (st : State) :
  timers st = [] -> isProcessingRef st = false -> isRestartingRef st = false ->
  mounted st = true ->
  let l := fst (sort random (drawn st)
                     (List.filter
                        (fun c => unplayed (playedCommentIds env) c && validText c)
                        (comments env))) in
  let st' := autoPlayEffect random env st in
  console st' = console st
  /\ activeDanmaku (hooks st') = activeDanmaku (hooks st)
  /\ playedCommentIds (hooks st') = playedCommentIds (hooks st)
  /\ comments (hooks st') = comments (hooks st)
  /\ nextToken st' = nextToken st
  /\ mounted st' = true
  /\ isRestartingRef st' = false
  /\ match l with
     | [] => timers st' = []
     | _ => batchPending env l st'
     end.
Proof.
  intros Ht Hp Hr Hm. cbv zeta. unfold autoPlayEffect.
  rewrite Hp, Hr. simpl orb. cbv iota.
  destruct (comments env) as [|c0 cs] eqn:Hcs.
  - simpl. repeat split; auto.
  - change (length (c0 :: cs) =? 0) with false. cbv iota.
    unfold sortComments.
    destruct (sort random (drawn st)
                (List.filter
                   (fun c => unplayed (playedCommentIds env) c && validText c)
                   (c0 :: cs))) as [sorted k].
    simpl fst. destruct sorted as [|c rest].
    + simpl. repeat split; auto.
    + change (length (c :: rest) =? 0) with false. cbv iota.
      unfold setTimeout, setAutoPlayTimer, setHooks, clearTimeout.
      destruct (autoPlayTimer env) as [h|]; simpl; rewrite Ht, Hm; simpl;
        (repeat split; auto);
        eexists; (split; [reflexivity|]); split; reflexivity.
Qed.

(** Loading comments into an idle component. *)
Lemma commentsLoaded_idle (w : Z) (cs : list Comment.t) (st : State) :
  mounted st = true -> timers st = [] ->
  isProcessingRef st = false -> isRestartingRef st = false ->
  let env := hooks_comments cs (hooks st) in
  let l := fst (sort random (drawn st)
                     (List.filter
                        (fun c => unplayed (played st) c && validText c) cs)) in
  let st' := step w random (CommentsLoaded cs) st in
  released st' = released st
  /\ pool st' = pool st
  /\ played st' = played st
  /\ comments (hooks st') = cs
  /\ nextToken st' = nextToken st
  /\ mounted st' = true
  /\ isRestartingRef st' = false
  /\ unitsMounted st'
  /\ match l with
     | [] => timers st' = []
     | _ => batchPending env l st'
     end.
Proof.
  intros Hm Ht Hp Hr. cbv zeta. unfold step. rewrite Hm.
  unfold setComments, setHooks. rewrite Hm.
  set (st0 := with_hooks (hooks_comments cs (hooks st)) st).
  change (hooks st0) with (hooks_comments cs (hooks st)).
  destruct (runAutoPlayCleanup_idle st0 Ht Hp Hr)
    as (Kt & Kp & Kr & Kh & Kc & Km & Ktok & Kd).
  set (st1 := runAutoPlayCleanup st0) in *.
  assert (Km1 : mounted st1 = true) by (rewrite Km; exact Hm).
  pose proof (autoPlayEffect_idle (hooks_comments cs (hooks st)) st1
                                  Kt Kp Kr Km1) as E.
  cbv zeta in E. rewrite Kd in E.
  change (drawn st0) with (drawn st) in E.
  change (comments (hooks_comments cs (hooks st))) with cs in E.
  change (playedCommentIds (hooks_comments cs (hooks st)))
    with (played st) in E.
  set (st2 := autoPlayEffect random (hooks_comments cs (hooks st)) st1) in *.
  destruct E as (Ec & Ea & Epl & Eco & Etok & Em & Er & Etim).
  destruct (commit_idle random (hooks_comments cs (hooks st)) st2 Er)
    as (Ch & Ct & Cc & Cm & Cr & _ & Ctok & _ & _).
  assert (Hsync : unitsMounted
                    (commit random (hooks_comments cs (hooks st)) st2)).
  { unfold unitsMounted. rewrite commit_units by exact Em.
    rewrite Ch, Ea, Kh. reflexivity. }
  set (st3 := commit random (hooks_comments cs (hooks st)) st2) in *.
  unfold pool, played in *.
  rewrite Kh in *.
  repeat split; try congruence.
  - apply released_console. rewrite Cc, Ec, Kc. reflexivity.
  - rewrite Ch, Ea. reflexivity.
  - rewrite Ch, Epl. reflexivity.
  - rewrite Ch, Eco. reflexivity.
  - rewrite Ctok, Etok, Ktok. reflexivity.
  - match goal with |- match ?l with _ => _ end => destruct l as [|c r] end.
    + congruence.
    + destruct Etim as [t [Et Hrest]]. exists t. split; [congruence|exact Hrest].
Qed.

End Loading.

Section Cycle.
Import DanmakuManager.

Variable random : nat -> Q.
Hypothesis random_range : forall k, (0 <= random k /\ random k < 1)%Q.

(** Loading a comment set into an idle scheduler and letting the batch
    timers fire releases the unplayed comments of valid text, in the
    order the jittered sort produced. *)
Lemma cycle_released (w : Z) (widths : list Z) (cs : list Comment.t)
      (st : State) :
  mounted st = true -> timers st = [] ->
  isProcessingRef st = false -> isRestartingRef st = false ->
  length (pool st) < 8 ->
  let l := fst (sort random (drawn st)
                     (List.filter
                        (fun c => unplayed (played st) c && validText c) cs)) in
  length l <= length widths ->
  let st' := drain random widths (step w random (CommentsLoaded cs) st) in
  released st' = released st ++ l
  /\ pool st' = pool st ++ unitsOf (nextToken st) l
  /\ played st' = played st ∪ list_to_set (map Comment.id l)
  /\ timers st' = []
  /\ mounted st' = true
  /\ comments (hooks st') = cs
  /\ unitsMounted st'.
Proof.
  intros Hm Ht Hp Hr Hact. cbv zeta. intros Hlen.
  destruct (commentsLoaded_idle random w cs st Hm Ht Hp Hr)
    as (Lrel & Lpool & Lplayed & Lcom & Ltok & Lm & Lr & Lsync & Ltim).
  set (st1 := step w random (CommentsLoaded cs) st) in *.
  set (l := fst (sort random (drawn st) _)) in *.
  assert (Hv : Forall (fun c => validText c = true) l).
  { apply sort_Forall, filter_validText_Forall. }
  assert (Hact' : length (activeDanmaku (hooks_comments cs (hooks st))) < 8)
    by exact Hact.
  destruct (drain_releases random random_range widths
              (hooks_comments cs (hooks st)) l st1
              Hlen Lm Lr Hact' Hv Ltim Lsync)
    as (Drel & Dpool & Dplayed & Dtim & Dm & _ & Dcom & Dsync).
  rewrite Drel, Dpool, Dplayed, Dcom, Lrel, Lpool, Lplayed, Ltok, Lcom.
  repeat split; auto.
Qed.



End Cycle.

Section CycleWitness.
Import DanmakuManager Scenario.

Lemma zeros_range : forall k, (0 <= zeros k /\ zeros k < 1)%Q.
Proof. intros k. split; [apply Qle_refl|reflexivity]. Qed.


End CycleWitness.

Section Capacity.
Import DanmakuManager.

Variable random : nat -> Q.


End Capacity.

Section CapacityExamples.
Import DanmakuManager Scenario.



(** The same excess arises on the ordinary path, because the timer chain
    keeps calling the [playNextBatch] of the render that started it:
    with ten comments on a narrow viewport every batch sees an empty
    [activeDanmaku], and the fifth batch adds two units to the eight on
    screen although it drew the target 8. *)
Lemma stale_count_overfills_pool :
  let st := drain zeros [narrow; narrow; narrow; narrow]
                  (step narrow zeros (CommentsLoaded ten) initial) in
  length (pool st) = 8
  /\ maxConcurrent (isMobile narrow) (zeros (drawn st)) = 8%Z
  /\ length (pool (fireNext zeros st narrow)) = 10.
Proof. vm_compute. repeat split; reflexivity. Qed.

End CapacityExamples.

Section PoolTexts.
Import DanmakuManager.

Variable random : nat -> Q.

Lemma addsOnlyText_refl (st : State) : addsOnlyText st st.
Proof. intros d Hd. now left. Qed.

Lemma addsOnlyText_trans (st1 st2 st3 : State) :
  addsOnlyText st1 st2 -> addsOnlyText st2 st3 -> addsOnlyText st1 st3.
Proof.
  intros H12 H23 d Hd. destruct (H23 d Hd) as [H|H]; [|now right].
  now apply H12.
Qed.

Lemma addsOnlyText_same (st st' : State) :
  pool st' = pool st -> addsOnlyText st st'.
Proof. intros E d Hd. left. now rewrite <- E. Qed.

Lemma addDanmaku_text (text : option JS.str) (cd : option Comment.t)
      (st : State) :
  addsOnlyText st (addDanmaku random text cd st).
Proof.
  unfold addDanmaku. destruct text as [s|]; [|apply addsOnlyText_refl].
  destruct (JS.isEmpty s) eqn:E1; [apply addsOnlyText_refl|].
  destruct (JS.isEmpty (JS.trim s)) eqn:E2; [apply addsOnlyText_refl|].
  simpl. unfold setActiveDanmaku, setHooks. simpl.
  destruct (mounted st); simpl; [|apply addsOnlyText_same; reflexivity].
  intros d Hd. unfold pool in *. simpl in Hd. apply in_app_or in Hd.
  destruct Hd as [Hd|[Hd|[]]]; [now left|right]. subst d. exact E2.
Qed.

Lemma playOne_text (st : State) (c : Comment.t) :
  addsOnlyText st (playOne random st c).
Proof.
  unfold playOne.
  eapply addsOnlyText_trans;
    [|apply addsOnlyText_same; unfold setPlayedCommentIds, setHooks, pool;
      match goal with |- context [if ?b then _ else _] => destruct b end;
      reflexivity].
  eapply addsOnlyText_trans; [|apply addDanmaku_text].
  apply addsOnlyText_same. reflexivity.
Qed.

Lemma foldl_playOne_text (l : list Comment.t) :
  forall st, addsOnlyText st (foldl (playOne random) st l).
Proof.
  induction l as [|c l IH]; intros st; [apply addsOnlyText_refl|].
  simpl. eapply addsOnlyText_trans; [apply playOne_text|apply IH].
Qed.

Lemma playNextBatch_text (env : Hooks) (w : Z) (l : list Comment.t)
      (st : State) :
  addsOnlyText st (playNextBatch env w random l st).
Proof.
  unfold playNextBatch. destruct l as [|c rest].
  - apply addsOnlyText_same. reflexivity.
  - unfold rand. cbv zeta. cbv beta iota.
    set (n := toPlayNow _ _ _ _).
    set (st0 := with_drawn _ _).
    apply (addsOnlyText_trans st st0);
      [apply addsOnlyText_same; reflexivity|].
    apply (addsOnlyText_trans
             st0 (foldl (playOne random) st0 (take n (c :: rest))));
      [apply foldl_playOne_text|].
    apply addsOnlyText_same.
    destruct (drop n (c :: rest)); reflexivity.
Qed.

Lemma runCallback_text (w : Z) (cb : Callback) (st : State) :
  addsOnlyText st (runCallback w random cb st).
Proof.
  destruct cb as [env l|env l|env l|]; simpl.
  - eapply addsOnlyText_trans; [apply playNextBatch_text|].
    apply addsOnlyText_same. reflexivity.
  - eapply addsOnlyText_trans; [apply playNextBatch_text|].
    apply addsOnlyText_same. reflexivity.
  - apply playNextBatch_text.
  - apply addsOnlyText_same.
    unfold setPlayedCommentIds, setHooks, log, pool. simpl.
    destruct (mounted st); reflexivity.
Qed.

Lemma removeDanmaku_text (env : Hooks) (key : nat) (st : State) :
  addsOnlyText st (removeDanmaku env key st).
Proof.
  destruct (mounted st) eqn:Hm.
  - destruct (removeDanmaku_frame env key st Hm) as (Rp & _).
    intros d Hd. rewrite Rp in Hd. apply List.filter_In in Hd. now left.
  - unfold removeDanmaku. rewrite Hm. apply addsOnlyText_refl.
Qed.

Lemma commit_text (env : Hooks) (st : State) :
  addsOnlyText st (commit random env st).
Proof.
  apply addsOnlyText_same. unfold pool.
  now destruct (commit_frame random env st) as (-> & _).
Qed.

Lemma runAutoPlayCleanup_hooks (st : State) :
  hooks (runAutoPlayCleanup st) = hooks st
  /\ mounted (runAutoPlayCleanup st) = mounted st.
Proof.
  unfold runAutoPlayCleanup.
  destruct (autoPlayCleanup st) as [[timer [h|]]|]; split; reflexivity.
Qed.

Lemma autoPlayEffect_pool (env : Hooks) (st : State) :
  pool (autoPlayEffect random env st) = pool st.
Proof.
  unfold autoPlayEffect, pool.
  destruct (isProcessingRef st || isRestartingRef st); [reflexivity|].
  destruct (length (comments env) =? 0); [reflexivity|].
  unfold sortComments.
  destruct (sort random (drawn st) _) as [l k].
  destruct (length l =? 0); [reflexivity|].
  unfold setTimeout, setAutoPlayTimer, setHooks, clearTimeout.
  destruct (autoPlayTimer env) as [h|]; simpl;
    destruct (mounted st); reflexivity.
Qed.

Lemma step_text (w : Z) (ev : Event) (st : State) :
  addsOnlyText st (step w random ev st).
Proof.
  destruct ev as [cs|text|h|key|]; unfold step.
  - destruct (mounted st) eqn:Hm; [|apply addsOnlyText_refl].
    eapply addsOnlyText_trans; [|apply commit_text].
    apply addsOnlyText_same. rewrite autoPlayEffect_pool. unfold pool.
    destruct (runAutoPlayCleanup_hooks (setComments cs st)) as (-> & _).
    unfold setComments, setHooks. now rewrite Hm.
  - destruct (bridge st); [|apply addsOnlyText_refl].
    eapply addsOnlyText_trans; [apply addDanmaku_text|apply commit_text].
  - destruct (findTimer h (timers st)) as [t|]; [|apply addsOnlyText_refl].
    eapply addsOnlyText_trans; [|apply commit_text].
    eapply addsOnlyText_trans; [|apply runCallback_text].
    apply addsOnlyText_same. reflexivity.
  - destruct (List.find _ (units st)) as [ke|]; [|apply addsOnlyText_refl].
    eapply addsOnlyText_trans; [apply removeDanmaku_text|apply commit_text].
  - destruct (mounted st); [|apply addsOnlyText_refl].
    apply addsOnlyText_same. unfold unmount, pool. simpl.
    now destruct (runAutoPlayCleanup_hooks st) as (-> & _).
Qed.

(** No unit without text is ever on screen. *)
Lemma run_pool_texts (evs : list (Z * Event)) :
  forall st,
    Forall (fun d => JS.isEmpty (Danmaku.text d) = false) (pool st) ->
    Forall (fun d => JS.isEmpty (Danmaku.text d) = false)
           (pool (run random evs st)).
Proof.
  induction evs as [|[w ev] evs IH]; intros st Hst; [exact Hst|].
  change (run random ((w, ev) :: evs) st)
    with (run random evs (step w random ev st)).
  apply IH. apply List.Forall_forall. intros d Hd.
  destruct (step_text w ev st d Hd) as [H|H]; [|exact H].
  now apply (proj1 (List.Forall_forall _ _) Hst).
Qed.

Lemma unitOf_invalid_text (token : nat) (c : Comment.t) :
  validText c = false -> JS.isEmpty (Danmaku.text (unitOf token c)) = true.
Proof.
  unfold validText, unitOf; simpl.
  destruct (Comment.text c) as [s|]; [|reflexivity].
  destruct s as [|x s]; [reflexivity|]. simpl negb at 1.
  rewrite andb_true_l. intros H. now apply negb_false_iff in H.
Qed.

End PoolTexts.

Section BlankText.
Import DanmakuManager Scenario.

Lemma sorted_filter_valid (random : nat -> Q) (f : Comment.t -> bool)
      (cs : list Comment.t) (k : nat) (c : Comment.t) :
  validText c = false ->
  ~ In c (fst (sort random k (List.filter (fun c => f c && validText c) cs))).
Proof.
  intros Hc Hin.
  pose proof (sort_Forall random (fun c => validText c = true) k _
                (filter_validText_Forall f cs)) as H.
  apply (proj1 (List.Forall_forall _ _) H) in Hin. congruence.
Qed.

Lemma filter_true_validText (cs : list Comment.t) :
  List.filter validText cs
  = List.filter (fun c => (fun _ => true) c && validText c) cs.
Proof. apply List.filter_ext. reflexivity. Qed.

(** C4 (as amended).  A comment whose text is missing, not a string,
    empty or blank after trimming is left out silently: neither effect
    hands it to [playNextBatch], [addDanmaku] returns without touching
    anything when given its text, and on no run of the scheduler is a unit
    made of it in the pool.  For the set [{id 1, "hi"}, {id 2, "  "}] the
    release cycle leaves exactly one active unit, that of comment 1, and
    only id 1 is marked played.  (A missing id excludes nothing.) *)
Theorem blank_text_is_never_released :
  (forall random played cs k c,
      validText c = false ->
      ~ In c (fst (sort random k
                        (List.filter (fun c => unplayed played c && validText c)
                                     cs)))
      /\ ~ In c (fst (sort random k (List.filter validText cs))))
  /\ (forall random c commentData st,
        validText c = false ->
        addDanmaku random (Comment.text c) commentData st = st)
  /\ (forall random evs c token,
        validText c = false ->
        ~ In (unitOf token c) (pool (run random evs initial)))
  /\ (let st := drain zeros [narrow]
                      (step narrow zeros (CommentsLoaded hi_blank) initial) in
      map Danmaku.commentId (pool st) = [Some "1"%string]
      /\ map Danmaku.text (pool st) = [JS.ofString "hi"]
      /\ elements (played st) = [Some "1"%string]
      /\ timers st = []).
Proof.
  split; [|split; [|split]].
  - intros random played cs k c Hc. split.
    + now apply sorted_filter_valid.
    + rewrite filter_true_validText. now apply sorted_filter_valid.
  - intros random c cd st Hc. now apply invalidText_addDanmaku.
  - intros random evs c token Hc Hin.
    assert (Hall : Forall (fun d => JS.isEmpty (Danmaku.text d) = false)
                          (pool (run random evs initial))).
    { apply run_pool_texts. constructor. }
    apply (proj1 (List.Forall_forall _ _) Hall) in Hin.
    rewrite unitOf_invalid_text in Hin by exact Hc. discriminate Hin.
  - vm_compute. repeat split; reflexivity.
Qed.

Lemma blank_text_witness :
  ~ In (row "2" "  " 1000)
       (fst (sort zeros 0 (List.filter validText hi_blank)))
  /\ addDanmaku zeros (Comment.text (row "2" "  " 1000)) None initial = initial
  /\ ~ In (unitOf 7 (row "2" "  " 1000))
          (pool (run zeros [(narrow, CommentsLoaded hi_blank);
                            (narrow, TimerFires 1)] initial)).
Proof.
  split; [|split].
  - apply (proj1 blank_text_is_never_released zeros ∅ hi_blank 0
                 (row "2" "  " 1000)).
    reflexivity.
  - apply (proj1 (proj2 blank_text_is_never_released)). reflexivity.
  - apply (proj1 (proj2 (proj2 blank_text_is_never_released))).
    reflexivity.
Defined.

(** C4 as stated fails for a missing id: a row without [objectId] whose
    text is "hi" passes the filter and becomes an active unit. *)
Lemma missing_id_is_released :
  Comment.id anonymous = None
  /\ let st := drain zeros [narrow]
                     (step narrow zeros (CommentsLoaded [anonymous]) initial) in
     released st = [anonymous]
     /\ pool st = [{| Danmaku.id := 0;
                      Danmaku.text := JS.ofString "hi";
                      Danmaku.commentId := None;
                      Danmaku.likesCount := 0 |}].
Proof. vm_compute. repeat split; reflexivity. Qed.

End BlankText.

Section ReleaseOrder.
Import DanmakuManager.

Variable random : nat -> Q.
Hypothesis random_range : forall k, (0 <= random k /\ random k < 1)%Q.

(** C9 (as amended).  The unplayed comments are ordered by the sort of
    the engine with a comparator that is the difference of creation
    times plus a jitter of at most 1000 ms either way.  Any two comments
    created more than one second apart are compared chronologically
    whenever the sort compares them; the sorted list is a permutation of
    the unplayed comments in which no comment is created more than one
    second after the comment that follows it; and a release cycle plays
    the comments in that order. *)
Theorem jittered_order_keeps_neighbours_chronological :
  (forall k a b,
      (Comment.createdAt a + 1000 < Comment.createdAt b)%Z ->
      (comparefn (random k) a b < 0)%Q /\ (0 < comparefn (random k) b a)%Q)
  /\ (forall k l,
        Permutation (fst (sort random k l)) l
        /\ chained notMuchLater (fst (sort random k l)))
  /\ (forall w widths cs st,
        mounted st = true -> timers st = [] ->
        isProcessingRef st = false -> isRestartingRef st = false ->
        length (pool st) < 8 -> length cs <= length widths ->
        exists l,
          released (drain random widths (step w random (CommentsLoaded cs) st))
          = released st ++ l
          /\ Permutation
               l (List.filter (fun c => unplayed (played st) c && validText c) cs)
          /\ chained notMuchLater l).
Proof.
  split; [|split].
  - intros k a b Hab. split.
    + now apply comparefn_far_earlier.
    + now apply comparefn_far_later.
  - intros k l. split; [apply sort_perm|now apply sort_chained].
  - intros w widths cs st Hm Ht Hp Hr Hact Hlen.
    pose proof (cycle_released random random_range w widths cs st
                               Hm Ht Hp Hr Hact) as C.
    cbv zeta in C.
    eexists. split; [|split; [apply sort_perm|now apply sort_chained]].
    apply C. rewrite sort_length.
    etransitivity; [apply List.filter_length_le|exact Hlen].
Qed.

End ReleaseOrder.

Section ReleaseOrderExamples.
Import DanmakuManager Scenario.

Lemma jittered_order_witness :
  (comparefn (zeros 0) (row "a" "first" 0) (row "c" "third" 1800) < 0)%Q
  /\ exists l,
       released (drain zeros [wide; wide; wide]
                       (step wide zeros (CommentsLoaded close_three) initial))
       = released initial ++ l
       /\ Permutation
            l (List.filter (fun c => unplayed (played initial) c && validText c)
                           close_three)
       /\ chained notMuchLater l.
Proof.
  pose proof (jittered_order_keeps_neighbours_chronological zeros zeros_range)
    as (Hcmp & _ & Hcycle).
  split.
  - apply (Hcmp 0 (row "a" "first" 0) (row "c" "third" 1800)). reflexivity.
  - apply (Hcycle wide [wide; wide; wide] close_three initial);
      try reflexivity.
    vm_compute. lia.
Defined.

(** C9 as stated fails.  Three comments created 900 ms apart arrive newest
    first.  When every jitter is 937.5 ms, each comparison of a comment
    with the one in front of it, created 900 ms later, is positive: the
    sort takes the array for an ascending run and leaves it as it is,
    and the two comments created 1800 ms apart are never compared.  The
    newest is released first and the oldest last. *)
Lemma distant_comments_released_in_reverse :
  let st := drain highs [wide]
                  (step wide highs (CommentsLoaded close_three) initial) in
  (forall k, (0 <= highs k /\ highs k < 1)%Q)
  /\ map Comment.id (released st) = [Some "c"; Some "b"; Some "a"]%string
  /\ ~ (forall i j x y,
           released st !! i = Some x -> released st !! j = Some y ->
           (Comment.createdAt x + 1000 < Comment.createdAt y)%Z ->
           i < j).
Proof.
  cbv zeta. split; [intros k; split; [discriminate|reflexivity]|].
  split; [vm_compute; reflexivity|].
  intros H.
  specialize (H 2 0 (row "a" "first" 0) (row "c" "third" 1800)).
  assert (2 < 0); [|lia].
  apply H; [vm_compute; reflexivity|vm_compute; reflexivity|reflexivity].
Qed.

End ReleaseOrderExamples.

Section RestartArming.
Import DanmakuManager.

Variable random : nat -> Q.

(** [removeDanmaku] arms the restart when the removal empties the pool
    and the render of the closure saw every comment played. *)
Lemma removeDanmaku_arms (env : Hooks) (key : nat) (st : State) :
  mounted st = true ->
  List.filter (fun item => negb (Danmaku.id item =? key)) (pool st) = [] ->
  0 < length (comments env) ->
  length (comments env) <= size (playedCommentIds env) ->
  isRestartingRef st = false ->
  let st' := removeDanmaku env key st in
  isRestartingRef st' = true
  /\ restartTimer (hooks st') = Some (nextHandle st)
  /\ In {| handle := nextHandle st; delay := 3000; callback := RestartLoop |}
        (timers st')
  /\ pool st' = [] /\ played st' = played st.
Proof.
  intros Hm Hempty Hc Hp Hr. cbv zeta. unfold removeDanmaku, pool, played in *.
  rewrite Hm, Hempty, Hr.
  replace (0 <? length (comments env)) with true
    by (symmetry; now apply Nat.ltb_lt).
  replace (length (comments env) <=? size (playedCommentIds env)) with true
    by (symmetry; now apply Nat.leb_le).
  simpl.
  destruct (restartTimer env) as [h|];
    unfold setActiveDanmaku, setRestartTimer, setHooks, setTimeout, clearTimeout;
    simpl; rewrite Hm; simpl; rewrite Hm; simpl;
      (repeat split; auto); apply in_or_app; right; now left.
Qed.

(** It arms nothing when that render saw fewer ids played than there are
    comments, whatever the played set is by now. *)
Lemma removeDanmaku_stale (env : Hooks) (key : nat) (st : State) :
  size (playedCommentIds env) < length (comments env) ->
  timers (removeDanmaku env key st) = timers st
  /\ isRestartingRef (removeDanmaku env key st) = isRestartingRef st.
Proof.
  intros Hlt. unfold removeDanmaku.
  destruct (mounted st) eqn:Hm; [|split; reflexivity].
  replace (length (comments env) <=? size (playedCommentIds env)) with false
    by (symmetry; apply Nat.leb_gt; exact Hlt).
  rewrite andb_false_r. simpl.
  unfold setActiveDanmaku, setHooks. rewrite Hm. split; reflexivity.
Qed.

Lemma drain_no_timer (widths : list Z) (st : State) :
  timers st = [] -> drain random widths st = st.
Proof.
  intros Ht. induction widths as [|w ws IH]; [reflexivity|].
  change (drain random (w :: ws) st) with (drain random ws (fireNext random st w)).
  unfold fireNext. rewrite Ht. exact IH.
Qed.

(** The restart effect on a scheduler that waits for the restart. *)
Lemma restartEffect_armed (env : Hooks) (st : State) :
  size (playedCommentIds env) = 0 ->
  isProcessingRef st = false -> isRestartingRef st = true ->
  let l := fst (sort random (drawn st)
                     (List.filter validText (comments env))) in
  let st' := restartEffect random env st in
  (l <> [] ->
   isRestartingRef st' = false
   /\ timers st'
      = timers st ++ [{| handle := nextHandle st; delay := 1000;
                         callback := RestartStart env l |}])
  /\ (l = [] -> timers st' = timers st).
Proof.
  intros Hs Hp Hr. cbv zeta. unfold restartEffect. rewrite Hs, Hp, Hr.
  simpl negb. rewrite !andb_true_r. simpl Nat.eqb at 1. rewrite andb_true_l.
  destruct (comments env) as [|c0 cs] eqn:Hcs.
  - simpl. split; [congruence|reflexivity].
  - change (0 <? length (c0 :: cs)) with true. cbv iota.
    unfold sortComments.
    change (drawn (with_isRestartingRef false st)) with (drawn st).
    destruct (sort random (drawn st) (List.filter validText (c0 :: cs)))
      as [l k].
    simpl fst. destruct l as [|c rest].
    + simpl. split; [congruence|reflexivity].
    + change (0 <? length (c :: rest)) with true. cbv iota.
      split; [|discriminate]. intros _. split; reflexivity.
Qed.

(** When the restart timer fires on a scheduler that waits for it, the
    played set is emptied and the restart effect arms the 1 s timer of a
    new cycle over the comments of valid text; the batch timers then
    release all of them again. *)
Lemma restart_cycle_released (w : Z) (widths : list Z) (t : Timer) (st : State) :
  (forall k, (0 <= random k /\ random k < 1)%Q) ->
  mounted st = true -> timers st = [t] -> callback t = RestartLoop ->
  isRestartingRef st = true ->
  restartDeps st = (size (played st), length (comments (hooks st))) ->
  0 < size (played st) -> length (pool st) < 8 ->
  length (comments (hooks st)) <= length widths ->
  let l := fst (sort random (drawn st)
                     (List.filter validText (comments (hooks st)))) in
  let st' := drain random widths (fireNext random st w) in
  released st' = released st ++ l
  /\ played st' = list_to_set (map Comment.id l)
  /\ pool st' = pool st ++ unitsOf (nextToken st) l
  /\ timers st' = [].
Proof.
  intros Hrange Hm Ht Hcb Hr Hdeps Hsize Hact Hlen. cbv zeta.
  unfold fireNext. rewrite Ht. unfold step. rewrite Ht, findTimer_head, Hcb.
  pose proof (clearTimeout_single t st Ht) as Hclear.
  set (st0 := clearTimeout (handle t) st) in *.
  unfold runCallback, setPlayedCommentIds, setHooks, log.
  change (mounted (with_console (console st0 ++ [LogRestarting]) st0))
    with (mounted st).
  rewrite Hm.
  set (st1 := with_isProcessingRef false _).
  set (env := hooks st1).
  assert (Henv : env = hooks_playedCommentIds ∅ (hooks st)) by reflexivity.
  assert (Hsz : size (playedCommentIds env) = 0)
    by (rewrite Henv; apply size_empty).
  unfold commit. change (mounted st1) with (mounted st). rewrite Hm.
  cbv zeta. simpl fst. simpl snd.
  change (restartDeps (with_units (mountUnits env (units st1)) st1))
    with (restartDeps st).
  rewrite Hdeps, Hsz. simpl fst. simpl snd.
  replace (0 =? size (played st)) with false
    by (symmetry; apply Nat.eqb_neq; lia).
  rewrite andb_false_l.
  set (st2 := with_restartDeps _ _).
  assert (Hp2 : isProcessingRef st2 = false) by reflexivity.
  assert (Hr2 : isRestartingRef st2 = true) by exact Hr.
  pose proof (restartEffect_armed env st2 Hsz Hp2 Hr2) as A. cbv zeta in A.
  destruct (restartEffect_frame random env st2) as (Fh & Fc & Fm & Fu & Ftok).
  change (drawn st2) with (drawn st) in A.
  change (comments env) with (comments (hooks st)) in A.
  change (timers st2) with (timers st0) in A. rewrite Hclear in A.
  change (nextHandle st2) with (nextHandle st) in A.
  set (l := fst (sort random (drawn st)
                      (List.filter validText (comments (hooks st))))) in *.
  set (st3 := restartEffect random env st2) in *.
  assert (Hrel3 : released st3 = released st).
  { unfold released. rewrite Fc. simpl. rewrite omap_app. simpl.
    now rewrite app_nil_r. }
  assert (Hpool3 : pool st3 = pool st) by (unfold pool; now rewrite Fh).
  assert (Hplayed3 : played st3 = ∅) by (unfold played; now rewrite Fh).
  destruct l as [|c rest] eqn:Hl.
  - destruct A as (_ & A). rewrite drain_no_timer by (now apply A).
    rewrite Hrel3, Hpool3, Hplayed3, !app_nil_r.
    repeat split; auto; now apply A.
  - destruct A as (A & _). destruct A as (Ar & At); [discriminate|].
    assert (Hv : Forall (fun c => validText c = true) (c :: rest)).
    { rewrite <- Hl. unfold l.
      rewrite filter_true_validText.
      apply sort_Forall, filter_validText_Forall. }
    assert (Hpend : batchPending env (c :: rest) st3).
    { eexists. split; [exact At|]. split; reflexivity. }
    assert (Hsync : unitsMounted st3).
    { unfold unitsMounted. rewrite Fu, Fh.
      change (units st2) with (mountUnits env (units st1)).
      change (hooks st2) with env. apply mountUnits_keys. }
    assert (Hlen3 : length (c :: rest) <= length widths).
    { rewrite <- Hl. unfold l. rewrite sort_length.
      etransitivity; [apply List.filter_length_le|exact Hlen]. }
    assert (Hm3 : mounted st3 = true) by (rewrite Fm; exact Hm).
    destruct (drain_releases random Hrange widths env (c :: rest) st3
                Hlen3 Hm3 Ar Hact Hv Hpend Hsync)
      as (Drel & Dpool & Dplayed & Dtim & _).
    rewrite Drel, Dpool, Dplayed, Hrel3, Hpool3, Hplayed3, Ftok.
    repeat split; auto. set_solver.
Qed.

End RestartArming.

Section Restart.
Import DanmakuManager Scenario.

(** When the units finish in the order they were released, the unit that
    empties the pool belongs to the last batch, its [onComplete] saw all
    three ids played, and the restart is armed with a delay of 3000 ms.
    When the timer fires the played set is emptied, the restart effect
    arms the 1 s timer of a new cycle and the three comments are released
    again. *)
Lemma restart_armed_in_release_order :
  let st := run zeros (finishAll narrow (pool three_on_screen)) three_on_screen in
  pool st = [] /\ isRestartingRef st = true
  /\ timers st = [{| handle := 3; delay := 3000; callback := RestartLoop |}]
  /\ let st1 := fireNext zeros st narrow in
     elements (played st1) = []
     /\ map (fun t => (delay t, map Comment.id (payload (callback t)))) (timers st1)
        = [(1000%Q, [Some "1"; Some "2"; Some "3"]%string)]
     /\ let st2 := drain zeros [narrow; narrow] st1 in
        map Danmaku.commentId (pool st2) = [Some "1"; Some "2"; Some "3"]%string
        /\ size (played st2) = 3 /\ timers st2 = [].
Proof. vm_compute. repeat split; reflexivity. Qed.

(** C3 on a failing input.  Three comments are released on a narrow
    viewport in two batches; the visitor keeps the pointer on the first
    unit, so units 1 and 2 finish before unit 0.  When unit 0 finishes the
    pool is empty, all three comments are marked played and no restart is
    scheduled, yet no restart timer is armed: the [onComplete] unit 0
    holds was created by the render that followed the first batch, in
    which [playedCommentIds] had two elements. *)
Theorem restart_not_armed_when_first_unit_finishes_last :
  let st := run zeros [(narrow, UnitFinished 1); (narrow, UnitFinished 2);
                       (narrow, UnitFinished 0)] three_on_screen in
  map Danmaku.id (pool three_on_screen) = [0; 1; 2]
  /\ map (fun ke => (fst ke, size (playedCommentIds (snd ke))))
         (units three_on_screen) = [(0, 2); (1, 2); (2, 3)]
  /\ pool st = []
  /\ length (comments (hooks st)) = 3
  /\ size (played st) = 3
  /\ isRestartingRef st = false
  /\ timers st = [].
Proof. vm_compute. repeat split; reflexivity. Qed.

End Restart.

Section Teardown.
Import DanmakuManager Scenario.

(** C5 on failing inputs.  (1) Four comments on a wide viewport: after
    the first batch three units are active and the timer of the fourth is
    pending.  Unmounting unmounts the units but leaves that timer in the
    host; when it fires, [playNextBatch] runs on the unmounted component
    and announces the fourth comment.  (2) After a full cycle the 3 s
    restart timer is pending; the cleanup holds the [restartTimer] of the
    render that ran the effect, which was [null], so unmounting leaves the
    timer in the host and its callback runs. *)
Theorem timers_survive_unmount :
  (let st := step wide zeros Unmount four_first_batch in
   length (pool four_first_batch) = 3
   /\ mounted st = false /\ units st = []
   /\ map (fun t => map Comment.id (payload (callback t))) (timers st)
      = [[Some "4"%string]]
   /\ console (fireNext zeros st wide)
      = console st ++ [LogPlayNextBatch 1; LogPlaying (row "4" "delta" 30000)])
  /\ (let armed := run zeros (finishAll narrow (pool three_on_screen))
                       three_on_screen in
      let st := step narrow zeros Unmount armed in
      autoPlayCleanup armed = Some (1, None)
      /\ mounted st = false
      /\ map callback (timers st) = [RestartLoop]
      /\ console (fireNext zeros st narrow) = console st ++ [LogRestarting]).
Proof. vm_compute. repeat split; reflexivity. Qed.

End Teardown.

Section UnitLocalOnly.
Import DanmakuComment.

Lemma clicks_null_commentId (n : nat) (liked : bool) (likes : nat) (b : Browser) :
  clicks n ({| commentId := None; isLiked := liked; currentLikes := likes |}, b)
  = ({| commentId := None; isLiked := liked; currentLikes := likes |}, b).
Proof. induction n as [|n IH]; [reflexivity|exact IH]. Qed.

Lemma manual_unit_is_local (w : Z) (random : nat -> Q) (text : option JS.str)
      (st : DanmakuManager.State) :
  DanmakuManager.pool (DanmakuManager.step w random (DanmakuManager.Manual text) st)
  = DanmakuManager.pool st
  \/ exists d,
      DanmakuManager.pool
        (DanmakuManager.step w random (DanmakuManager.Manual text) st)
      = DanmakuManager.pool st ++ [d]
      /\ Danmaku.commentId d = None /\ Danmaku.likesCount d = 0.
Proof.
  unfold DanmakuManager.step, DanmakuManager.pool.
  destruct (DanmakuManager.bridge st); [|now left].
  destruct (commit_frame random
              (DanmakuManager.hooks (DanmakuManager.addDanmaku random text None st))
              (DanmakuManager.addDanmaku random text None st)) as (-> & _).
  unfold DanmakuManager.addDanmaku.
  destruct text as [s|]; [|now left].
  destruct (JS.isEmpty s || JS.isEmpty (JS.trim s)); [now left|].
  simpl. unfold DanmakuManager.setActiveDanmaku, DanmakuManager.setHooks. simpl.
  destruct (DanmakuManager.mounted st); simpl; [|now left].
  right. eexists. split; [reflexivity|]. split; reflexivity.
Qed.

(** C10.  A unit injected through [window.addDanmaku] carries a [null]
    commentId and zero likes.  On a unit whose commentId is [null] the
    effect that reads the stored like-set does nothing, and any number of
    clicks on the like control leaves the displayed count, the liked flag,
    the stored like-set and the calls to the store as they were. *)
Theorem like_on_local_unit_changes_nothing :
  (forall w random text st,
      DanmakuManager.pool
        (DanmakuManager.step w random (DanmakuManager.Manual text) st)
      = DanmakuManager.pool st
      \/ exists d,
        DanmakuManager.pool
          (DanmakuManager.step w random (DanmakuManager.Manual text) st)
        = DanmakuManager.pool st ++ [d]
        /\ Danmaku.commentId d = None /\ Danmaku.likesCount d = 0)
  /\ (forall b likes,
        mountLikes b None likes
        = {| commentId := None; isLiked := false; currentLikes := likes |})
  /\ (forall n liked likes b,
        clicks n ({| commentId := None; isLiked := liked; currentLikes := likes |}, b)
        = ({| commentId := None; isLiked := liked; currentLikes := likes |}, b)).
Proof.
  split; [exact manual_unit_is_local|].
  split; [reflexivity|exact clicks_null_commentId].
Qed.

End UnitLocalOnly.

(* ================================================================== *)
(** * Further properties: the page shell *)

Section CountdownFacts.
Import Countdown.

Lemma updateCountdown_running (now : Z) :
  (now < targetDate)%Z ->
  updateCountdown now
  = {| days := ((targetDate - now) / 86400000)%Z;
       hours := ((targetDate - now) mod 86400000 / 3600000)%Z;
       minutes := ((targetDate - now) mod 3600000 / 60000)%Z;
       seconds := ((targetDate - now) mod 60000 / 1000)%Z;
       expired := false |}.
Proof.
  intros H. unfold updateCountdown.
  destruct (Z.ltb_spec 0 (targetDate - now)) as [Hd|Hd]; [|lia].
  rewrite !Z.rem_mod_nonneg by lia. reflexivity.
Qed.

Lemma updateCountdown_over (now : Z) :
  (targetDate <= now)%Z ->
  updateCountdown now
  = {| days := 0; hours := 0; minutes := 0; seconds := 0; expired := true |}.
Proof.
  intros H. unfold updateCountdown.
  destruct (Z.ltb_spec 0 (targetDate - now)) as [Hd|Hd]; [lia|reflexivity].
Qed.

Lemma shown_value (now : Z) :
  shown (updateCountdown now)
  = if (now <? targetDate)%Z then (1000 * ((targetDate - now) / 1000))%Z
    else 0%Z.
Proof.
  destruct (Z.ltb_spec now targetDate) as [H|H].
  - rewrite updateCountdown_running by exact H. unfold shown; simpl.
    generalize (targetDate - now)%Z. intros d.
    Z.to_euclidean_division_equations. lia.
  - rewrite updateCountdown_over by exact H. reflexivity.
Qed.

(** X1.  Before the target instant the countdown is not expired, its
    hours, minutes and seconds are within 0..23, 0..59 and 0..59, its
    days are not negative, and the four fields together stand for the
    remaining time rounded down to a whole second. *)
Theorem countdown_fields_decompose_remaining_time (now : Z) :
  (now < targetDate)%Z ->
  let c := updateCountdown now in
  expired c = false
  /\ (0 <= days c)%Z
  /\ (0 <= hours c < 24)%Z
  /\ (0 <= minutes c < 60)%Z
  /\ (0 <= seconds c < 60)%Z
  /\ (shown c <= targetDate - now < shown c + 1000)%Z.
Proof.
  intros H. cbv zeta. pose proof (shown_value now) as S.
  destruct (Z.ltb_spec now targetDate) as [_|]; [|lia].
  rewrite updateCountdown_running in * by exact H. simpl.
  assert (0 < targetDate - now)%Z by lia.
  revert S. generalize dependent (targetDate - now)%Z. intros d Hd S.
  repeat split; try (Z.to_euclidean_division_equations; lia).
Qed.

Lemma countdown_fields_witness :
  let c := updateCountdown (targetDate - 93784005) in
  expired c = false
  /\ (0 <= days c)%Z
  /\ (0 <= hours c < 24)%Z
  /\ (0 <= minutes c < 60)%Z
  /\ (0 <= seconds c < 60)%Z
  /\ (shown c <= targetDate - (targetDate - 93784005) < shown c + 1000)%Z.
Proof.
  apply (countdown_fields_decompose_remaining_time (targetDate - 93784005)).
  reflexivity.
Defined.

(** X2.  The countdown is expired exactly from the target instant on,
    and then all its fields are zero; the time it shows never grows as
    the clock advances. *)
Theorem countdown_expires_at_target_and_never_grows :
  (forall now, expired (updateCountdown now) = true <-> (targetDate <= now)%Z)
  /\ (forall now,
        (targetDate <= now)%Z ->
        updateCountdown now
        = {| days := 0; hours := 0; minutes := 0; seconds := 0;
             expired := true |})
  /\ (forall now later,
        (now <= later)%Z ->
        (shown (updateCountdown later) <= shown (updateCountdown now))%Z).
Proof.
  split; [|split].
  - intros now. destruct (Z.lt_ge_cases now targetDate) as [H|H].
    + rewrite updateCountdown_running by exact H. simpl. split; [discriminate|lia].
    + rewrite updateCountdown_over by exact H. simpl. tauto.
  - exact updateCountdown_over.
  - intros now later Hle. rewrite !shown_value.
    destruct (Z.ltb_spec now targetDate), (Z.ltb_spec later targetDate);
      try lia.
    + assert ((targetDate - later) / 1000 <= (targetDate - now) / 1000)%Z
        by (apply Z.div_le_mono; lia).
      lia.
    + assert (0 <= (targetDate - now) / 1000)%Z by (apply Z.div_pos; lia).
      lia.
Qed.

Lemma countdown_expiry_witness :
  updateCountdown (targetDate + 5)
  = {| days := 0; hours := 0; minutes := 0; seconds := 0; expired := true |}
  /\ (shown (updateCountdown (targetDate - 1000))
      <= shown (updateCountdown (targetDate - 61000)))%Z.
Proof.
  split.
  - apply (proj1 (proj2 countdown_expires_at_target_and_never_grows)). lia.
  - apply (proj2 (proj2 countdown_expires_at_target_and_never_grows)). lia.
Defined.

End CountdownFacts.

Section ClassNameFacts.
Import ClassNames.

Lemma joinElement_toString (v : value) :
  truthy v = true -> joinElement v = toString v.
Proof. destruct v; simpl; congruence. Qed.

Lemma flat_app (xs ys : list value) : flat (xs ++ ys) = flat xs ++ flat ys.
Proof. unfold flat. apply List.flat_map_app. Qed.

Lemma flat_atoms (l : list value) :
  Forall (fun v => atom v = true) l -> flat l = l.
Proof.
  induction 1 as [|v l Hv _ IH]; [reflexivity|].
  unfold flat in *. simpl. rewrite IH.
  destruct v; simpl in *; congruence.
Qed.

Lemma flat_one_array (l : list value) : flat [VArray l] = l.
Proof. unfold flat. simpl. apply app_nil_r. Qed.

Lemma clsx_drop_falsy (xs ys : list value) (v : value) :
  atom v = true -> truthy v = false ->
  clsx (xs ++ v :: ys) = clsx (xs ++ ys).
Proof.
  intros Ha Hf. unfold clsx. rewrite !flat_app.
  change (v :: ys) with ([v] ++ ys). rewrite flat_app.
  rewrite (flat_atoms [v]) by (constructor; [exact Ha|constructor]).
  rewrite !List.filter_app. simpl. now rewrite Hf.
Qed.

Lemma clsx_splice_array (xs l ys : list value) :
  Forall (fun v => atom v = true) l ->
  clsx (xs ++ VArray l :: ys) = clsx (xs ++ l ++ ys).
Proof.
  intros Hl. unfold clsx. rewrite !flat_app.
  change (VArray l :: ys) with ([VArray l] ++ ys).
  rewrite flat_app, flat_one_array, (flat_atoms l Hl). reflexivity.
Qed.

Lemma clsx_strings (ss : list string) :
  clsx (map VString ss)
  = String.concat " " (List.filter (fun s => negb (String.eqb s "")) ss).
Proof.
  unfold clsx, join. rewrite flat_atoms.
  - f_equal. induction ss as [|s ss IH]; [reflexivity|].
    simpl. destruct (String.eqb s ""); simpl; [exact IH|now rewrite IH].
  - apply List.Forall_forall. intros v Hv. apply List.in_map_iff in Hv.
    destruct Hv as [s [<- _]]. reflexivity.
Qed.

(** X3.  [clsx] leaves out every falsy argument ([false], [null],
    [undefined], the empty string), splices the members of an array
    argument in place of the array, and on strings returns the non-empty
    ones separated by single spaces. *)
Theorem clsx_skips_falsy_and_splices_arrays :
  (forall xs ys v,
      atom v = true -> truthy v = false ->
      clsx (xs ++ v :: ys) = clsx (xs ++ ys))
  /\ (forall xs l ys,
        Forall (fun v => atom v = true) l ->
        clsx (xs ++ VArray l :: ys) = clsx (xs ++ l ++ ys))
  /\ (forall ss,
        clsx (map VString ss)
        = String.concat " " (List.filter (fun s => negb (String.eqb s "")) ss)).
Proof.
  split; [exact clsx_drop_falsy|split; [exact clsx_splice_array|]].
  exact clsx_strings.
Qed.

Lemma clsx_witness :
  clsx ([VString "a"] ++ VBool false :: [VString "b"])
  = clsx ([VString "a"] ++ [VString "b"])
  /\ clsx ([VString "a"] ++ VArray [VString "x"; VNull] :: [VString "b"])
     = clsx ([VString "a"] ++ [VString "x"; VNull] ++ [VString "b"]).
Proof.
  split.
  - apply (proj1 clsx_skips_falsy_and_splices_arrays); reflexivity.
  - apply (proj1 (proj2 clsx_skips_falsy_and_splices_arrays)).
    repeat constructor.
Defined.

(** X4.  On arguments none of which is an array, [cn] returns what
    [clsx] returns for them, passed through [twMerge] when the page has
    it.  An array argument is treated differently from [clsx]: [cn] does
    not splice it but renders it as the array's own string, members
    separated by commas and falsy members included. *)
Theorem cn_agrees_with_clsx_except_on_arrays :
  (forall inputs,
      Forall (fun v => atom v = true) inputs ->
      cn None inputs = clsx inputs
      /\ forall merge, cn (Some merge) inputs = merge (clsx inputs))
  /\ (forall l, cn None [VArray l] = toString (VArray l))
  /\ (forall a b,
        a <> ""%string -> b <> ""%string ->
        cn None [VArray [VString a; VString b]] = (a ++ "," ++ b)%string
        /\ clsx [VArray [VString a; VString b]] = (a ++ " " ++ b)%string).
Proof.
  split; [|split].
  - intros inputs Hin.
    assert (E : clsx [VArray inputs] = clsx inputs).
    { unfold clsx. now rewrite flat_one_array, flat_atoms. }
    split; [exact E|]. intros merge. simpl. now rewrite E.
  - intros l. unfold cn, clsx. rewrite flat_one_array. reflexivity.
  - intros a b Ha Hb. split; [reflexivity|].
    unfold clsx. rewrite flat_one_array. simpl.
    destruct (String.eqb_spec a ""); [contradiction|].
    destruct (String.eqb_spec b ""); [contradiction|]. reflexivity.
Qed.

Lemma cn_witness :
  cn None [VString "relative block size-full"; VUndefined]
  = clsx [VString "relative block size-full"; VUndefined]
  /\ cn None [VArray [VString "p-4"; VString "m-2"]] = "p-4,m-2"%string.
Proof.
  split.
  - apply (proj1 cn_agrees_with_clsx_except_on_arrays). repeat constructor.
  - apply (proj2 (proj2 cn_agrees_with_clsx_except_on_arrays)); discriminate.
Defined.

End ClassNameFacts.

(* ================================================================== *)
(** * Further properties: trimming *)

Section Trim.

Lemma trimStart_idem (s : JS.str) : JS.trimStart (JS.trimStart s) = JS.trimStart s.
Proof.
  induction s as [|c s IH]; [reflexivity|]. simpl.
  destruct (JS.isWhiteSpace c) eqn:E; [exact IH|]. simpl. now rewrite E.
Qed.

Lemma trimStart_keeps (c : N) (s : JS.str) :
  JS.isWhiteSpace c = false -> JS.trimStart (c :: s) = c :: s.
Proof. intros E. simpl. now rewrite E. Qed.

Lemma trimStart_head (s : JS.str) :
  JS.trimStart s = []
  \/ exists c r, JS.trimStart s = c :: r /\ JS.isWhiteSpace c = false.
Proof.
  induction s as [|c s IH]; [now left|]. simpl.
  destruct (JS.isWhiteSpace c) eqn:E; [exact IH|].
  right. now exists c, s.
Qed.

Lemma trimStart_snoc (l : JS.str) (c : N) :
  JS.isWhiteSpace c = false ->
  exists l', JS.trimStart (l ++ [c]) = l' ++ [c].
Proof.
  intros E. induction l as [|a l IH]; simpl.
  - rewrite E. now exists [].
  - destruct (JS.isWhiteSpace a); [exact IH|]. now exists (a :: l).
Qed.

Lemma trimEnd_idem (s : JS.str) : JS.trimEnd (JS.trimEnd s) = JS.trimEnd s.
Proof.
  unfold JS.trimEnd. now rewrite rev_involutive, trimStart_idem.
Qed.

Lemma trimEnd_keeps_head (c : N) (r : JS.str) :
  JS.isWhiteSpace c = false ->
  exists r', JS.trimEnd (c :: r) = c :: r'.
Proof.
  intros E. unfold JS.trimEnd. simpl.
  destruct (trimStart_snoc (rev r) c E) as [l' ->].
  rewrite rev_app_distr. simpl. now exists (rev l').
Qed.

Lemma trim_idem (s : JS.str) : JS.trim (JS.trim s) = JS.trim s.
Proof.
  unfold JS.trim.
  destruct (trimStart_head s) as [E|[c [r [E Hc]]]]; rewrite E.
  - reflexivity.
  - destruct (trimEnd_keeps_head c r Hc) as [r' E'].
    rewrite E', (trimStart_keeps c r' Hc), <- E'. apply trimEnd_idem.
Qed.

Lemma trim_blank (s : JS.str) :
  forallb JS.isWhiteSpace s = true -> JS.trim s = [].
Proof.
  intros H. unfold JS.trim.
  assert (E : JS.trimStart s = []).
  { induction s as [|c s IH]; [reflexivity|]. simpl in *.
    apply andb_true_iff in H. destruct H as [Hc Hs]. rewrite Hc. now apply IH. }
  now rewrite E.
Qed.

End Trim.

(* ================================================================== *)
(** * Further properties: the scheduler *)

Section PoolGrowth.
Import DanmakuManager Notions.

Variable random : nat -> Q.

Lemma extends_same (k : nat) (st st' : State) :
  pool st' = pool st -> extends k st st'.
Proof.
  intros E. exists []. rewrite E, app_nil_r. repeat split; [simpl; lia|constructor].
Qed.

Lemma extends_trans (k1 k2 : nat) (st1 st2 st3 : State) :
  extends k1 st1 st2 -> extends k2 st2 st3 -> extends (k1 + k2) st1 st3.
Proof.
  intros (n1 & E1 & L1 & F1) (n2 & E2 & L2 & F2). exists (n1 ++ n2).
  rewrite E2, E1, <- app_assoc, length_app. repeat split; [lia|].
  apply Forall_app. now split.
Qed.

Lemma extends_weaken (k k' : nat) (st st' : State) :
  k <= k' -> extends k st st' -> extends k' st st'.
Proof.
  intros Hk (n & E & L & F). exists n. repeat split; [exact E|lia|exact F].
Qed.

Lemma addDanmaku_extends (text : option JS.str) (cd : option Comment.t)
      (st : State) :
  extends 1 st (addDanmaku random text cd st).
Proof.
  unfold addDanmaku. destruct text as [s|]; [|now apply extends_same].
  destruct (JS.isEmpty s) eqn:E1; [now apply extends_same|].
  destruct (JS.isEmpty (JS.trim s)) eqn:E2; [now apply extends_same|].
  simpl. unfold setActiveDanmaku, setHooks. simpl.
  destruct (mounted st); simpl; [|now apply extends_same].
  eexists. split; [reflexivity|]. split; [simpl; lia|].
  constructor; [|constructor]. split; simpl; [apply trim_idem|exact E2].
Qed.

Lemma playOne_extends (st : State) (c : Comment.t) :
  extends 1 st (playOne random st c).
Proof.
  unfold playOne.
  set (st1 := addDanmaku random (Comment.text c) (Some c) (log (LogPlaying c) st)).
  apply (extends_trans 1 0 st st1).
  - apply (extends_trans 0 1 st (log (LogPlaying c) st)).
    + now apply extends_same.
    + apply addDanmaku_extends.
  - apply extends_same. unfold setPlayedCommentIds, setHooks, pool.
    destruct (mounted st1); reflexivity.
Qed.

Lemma foldl_playOne_extends (l : list Comment.t) :
  forall st, extends (length l) st (foldl (playOne random) st l).
Proof.
  induction l as [|c l IH]; intros st; [now apply extends_same|].
  simpl foldl. simpl length.
  apply (extends_trans 1 (length l) st (playOne random st c)).
  - apply playOne_extends.
  - apply IH.
Qed.

Lemma toPlayNow_le_perTask (w : Z) (u : Q) (active len : nat) :
  toPlayNow (isMobile w) u active len <= perTask w.
Proof.
  unfold perTask.
  pose proof (toPlayNow_formula (isMobile w) u active len).
  pose proof (perTick_pos (isMobile w)). lia.
Qed.

Lemma playNextBatch_extends (env : Hooks) (w : Z) (l : list Comment.t)
      (st : State) :
  extends (perTask w) st (playNextBatch env w random l st).
Proof.
  unfold playNextBatch. destruct l as [|c rest].
  - now apply extends_same.
  - unfold rand. cbv zeta. cbv beta iota.
    set (n := toPlayNow _ _ _ _).
    set (st0 := with_drawn _ _).
    apply (extends_weaken (0 + (length (take n (c :: rest)) + 0))).
    { rewrite length_take. pose proof (toPlayNow_le_perTask w
        (random (drawn (log (LogPlayNextBatch (length (c :: rest))) st)))
        (length (activeDanmaku env)) (length (c :: rest))).
      fold n in H. lia. }
    apply (extends_trans _ _ st st0); [now apply extends_same|].
    apply (extends_trans _ _ st0
             (foldl (playOne random) st0 (take n (c :: rest))));
      [apply foldl_playOne_extends|].
    apply extends_same. destruct (drop n (c :: rest)); reflexivity.
Qed.

Lemma runCallback_extends (w : Z) (cb : Callback) (st : State) :
  extends (perTask w) st (runCallback w random cb st).
Proof.
  destruct cb as [env l|env l|env l|]; simpl.
  - apply (extends_weaken (perTask w + 0)); [lia|].
    eapply extends_trans; [apply playNextBatch_extends|].
    now apply extends_same.
  - apply (extends_weaken (perTask w + 0)); [lia|].
    eapply extends_trans; [apply playNextBatch_extends|].
    now apply extends_same.
  - apply playNextBatch_extends.
  - apply extends_same.
    unfold setPlayedCommentIds, setHooks, log, pool. simpl.
    destruct (mounted st); reflexivity.
Qed.

Lemma commit_pool (env : Hooks) (st : State) :
  pool (commit random env st) = pool st.
Proof. unfold pool. now destruct (commit_frame random env st) as (-> & _). Qed.

Lemma perTask_bounds (w : Z) :
  1 <= perTask w <= 3 /\ ((w < 768)%Z -> perTask w = 2).
Proof.
  unfold perTask, isMobile, perTick.
  destruct (Z.ltb_spec w 768); simpl; split; try lia.
Qed.

Lemma step_extends (w : Z) (ev : Event) (st : State) :
  isUnitFinished ev = false -> extends (perTask w) st (step w random ev st).
Proof.
  intros Hev. destruct (perTask_bounds w) as [[H1 _] _].
  destruct ev as [cs|text|h|key|]; [| | |discriminate Hev|]; unfold step.
  - destruct (mounted st) eqn:Hm; [|now apply extends_same].
    apply extends_same. rewrite commit_pool, autoPlayEffect_pool. unfold pool.
    destruct (runAutoPlayCleanup_hooks (setComments cs st)) as (-> & _).
    unfold setComments, setHooks. now rewrite Hm.
  - destruct (bridge st); [|now apply extends_same].
    apply (extends_weaken (1 + 0)); [lia|].
    eapply extends_trans; [apply addDanmaku_extends|].
    apply extends_same, commit_pool.
  - destruct (findTimer h (timers st)) as [t|]; [|now apply extends_same].
    apply (extends_weaken (0 + (perTask w + 0))); [lia|].
    apply (extends_trans _ _ st (clearTimeout h st)); [now apply extends_same|].
    eapply extends_trans; [apply runCallback_extends|].
    apply extends_same, commit_pool.
  - destruct (mounted st); [|now apply extends_same].
    apply extends_same. unfold unmount, pool. simpl.
    now destruct (runAutoPlayCleanup_hooks st) as (-> & _).
Qed.

Lemma unitFinished_pool (w : Z) (key : nat) (st : State) :
  pool (step w random (UnitFinished key) st) = pool st
  \/ pool (step w random (UnitFinished key) st)
     = List.filter (fun item => negb (Danmaku.id item =? key)) (pool st).
Proof.
  unfold step.
  destruct (List.find (fun ke => fst ke =? key) (units st)) as [ke|];
    [|now left].
  rewrite commit_pool. destruct (mounted st) eqn:Hm.
  - right. now destruct (removeDanmaku_frame (snd ke) key st Hm) as (-> & _).
  - left. unfold removeDanmaku. now rewrite Hm.
Qed.

(** X5.  A task that is not the completion of a unit never removes or
    reorders units: the pool afterwards is the pool before followed by
    the new units, at most three of them and at most two on a viewport
    narrower than 768.  The completion of a unit adds nothing and removes
    at most the entries that carry its token. *)
Theorem pool_grows_by_at_most_a_batch :
  (forall w ev st,
      isUnitFinished ev = false ->
      exists new,
        pool (step w random ev st) = pool st ++ new
        /\ length new <= 3
        /\ ((w < 768)%Z -> length new <= 2))
  /\ (forall w key st,
        pool (step w random (UnitFinished key) st) = pool st
        \/ pool (step w random (UnitFinished key) st)
           = List.filter (fun item => negb (Danmaku.id item =? key)) (pool st)).
Proof.
  split; [|exact unitFinished_pool].
  intros w ev st Hev.
  destruct (step_extends w ev st Hev) as (new & E & L & _).
  destruct (perTask_bounds w) as [[_ H3] H2].
  exists new. repeat split; [exact E|lia|]. intros Hw. rewrite H2 in L; lia.
Qed.

(** Texts stay trimmed along a run. *)
Lemma run_trimmed (evs : list (Z * Event)) :
  forall st,
    Forall trimmedText (pool st) ->
    Forall trimmedText (pool (run random evs st)).
Proof.
  induction evs as [|[w ev] evs IH]; intros st Hst; [exact Hst|].
  change (run random ((w, ev) :: evs) st)
    with (run random evs (step w random ev st)).
  apply IH. destruct (isUnitFinished ev) eqn:Hev.
  - destruct ev as [| | |key|]; try discriminate Hev.
    destruct (unitFinished_pool w key st) as [-> | ->]; [exact Hst|].
    apply List.Forall_forall. intros d Hd. apply List.filter_In in Hd.
    now apply (proj1 (List.Forall_forall _ _) Hst).
  - destruct (step_extends w ev st Hev) as (new & -> & _ & F).
    apply Forall_app. now split.
Qed.

(** X6.  Whatever happens after mounting, every unit in the pool shows
    text that is not empty and has no white space at either end, whether
    it came from a stored comment or was typed by the visitor. *)
Theorem pool_texts_are_trimmed (evs : list (Z * Event)) (d : Danmaku.t) :
  In d (pool (run random evs initial)) ->
  JS.trim (Danmaku.text d) = Danmaku.text d
  /\ JS.isEmpty (Danmaku.text d) = false.
Proof.
  intros Hd.
  assert (H : Forall trimmedText (pool (run random evs initial)))
    by (apply run_trimmed; constructor).
  exact (proj1 (List.Forall_forall _ _) H d Hd).
Qed.

End PoolGrowth.

Section PoolGrowthWitness.
Import DanmakuManager Notions Scenario.

Lemma pool_growth_witness :
  exists new,
    pool (step narrow zeros (Manual (Some (JS.ofString "  hello "))) initial)
    = pool initial ++ new
    /\ length new <= 3
    /\ ((narrow < 768)%Z -> length new <= 2).
Proof.
  apply (proj1 (pool_grows_by_at_most_a_batch zeros)). reflexivity.
Defined.

Lemma pool_texts_witness :
  JS.trim (JS.ofString "hello") = JS.ofString "hello"
  /\ JS.isEmpty (JS.ofString "hello") = false.
Proof.
  apply (pool_texts_are_trimmed
           zeros [(narrow, Manual (Some (JS.ofString "  hello ")))]
           {| Danmaku.id := 0; Danmaku.text := JS.ofString "hello";
              Danmaku.commentId := None; Danmaku.likesCount := 0 |}).
  vm_compute. left. reflexivity.
Defined.

End PoolGrowthWitness.

Section PacingBounds.
Import DanmakuManager.




End PacingBounds.

Section Chronology.
Import DanmakuManager Notions.

Variable random : nat -> Q.
Hypothesis random_range : forall k, (0 <= random k /\ random k < 1)%Q.





End Chronology.

Section ChronologyWitness.
Import DanmakuManager Notions Scenario.



End ChronologyWitness.

Section PlayedGrowth.
Import DanmakuManager Notions.

Variable random : nat -> Q.

Lemma addDanmaku_played (text : option JS.str) (cd : option Comment.t)
      (st : State) :
  played (addDanmaku random text cd st) = played st.
Proof.
  unfold addDanmaku, played. destruct text as [s|]; [|reflexivity].
  destruct (JS.isEmpty s || JS.isEmpty (JS.trim s)); [reflexivity|].
  unfold rand, setActiveDanmaku, setHooks. simpl.
  destruct (mounted st); reflexivity.
Qed.

Lemma playOne_played (st : State) (c : Comment.t) :
  played st ⊆ played (playOne random st c).
Proof.
  unfold playOne, setPlayedCommentIds, setHooks.
  set (st1 := addDanmaku random (Comment.text c) (Some c) _).
  assert (H1 : played st1 = played st)
    by (unfold st1; now rewrite addDanmaku_played).
  destruct (mounted st1); unfold played in *; simpl; set_solver.
Qed.

Lemma foldl_playOne_played (l : list Comment.t) :
  forall st, played st ⊆ played (foldl (playOne random) st l).
Proof.
  induction l as [|c l IH]; intros st; [reflexivity|].
  simpl. etransitivity; [apply playOne_played|apply IH].
Qed.

Lemma playNextBatch_played (env : Hooks) (w : Z) (l : list Comment.t)
      (st : State) :
  played st ⊆ played (playNextBatch env w random l st).
Proof.
  unfold playNextBatch. destruct l as [|c l]; [reflexivity|].
  unfold rand.
  set (n := toPlayNow _ _ _ _).
  set (st1 := with_drawn _ _).
  assert (H1 : played st ⊆ played (foldl (playOne random) st1 (take n (c :: l))))
    by apply (foldl_playOne_played _ st1).
  destruct (drop n (c :: l)); [exact H1|exact H1].
Qed.

Lemma commit_played (env : Hooks) (st : State) :
  played (commit random env st) = played st.
Proof.
  unfold played. now destruct (commit_frame random env st) as (-> & _).
Qed.

Lemma autoPlayEffect_played (env : Hooks) (st : State) :
  played (autoPlayEffect random env st) = played st.
Proof.
  unfold autoPlayEffect, played.
  destruct (isProcessingRef st || isRestartingRef st); [reflexivity|].
  destruct (length (comments env) =? 0); [reflexivity|].
  unfold sortComments.
  destruct (sort random (drawn st) _) as [l k].
  destruct (length l =? 0); [reflexivity|].
  unfold setTimeout, setAutoPlayTimer, setHooks, clearTimeout.
  destruct (autoPlayTimer env) as [h|]; simpl;
    destruct (mounted st); reflexivity.
Qed.

Lemma removeDanmaku_played (env : Hooks) (key : nat) (st : State) :
  played (removeDanmaku env key st) = played st.
Proof.
  destruct (mounted st) eqn:Hm.
  - now destruct (removeDanmaku_frame env key st Hm) as (_ & -> & _).
  - unfold removeDanmaku. now rewrite Hm.
Qed.

(** X9.  The set of played ids never loses an id except when the restart
    timer fires: after any other task it contains what it contained
    before, and after the task of the restart timer on a mounted
    scheduler it is empty. *)
Theorem played_ids_are_only_dropped_by_the_restart (w : Z) (ev : Event)
        (st : State) :
  (played st ⊆ played (step w random ev st)
   \/ (firesRestart ev st /\ played (step w random ev st) = ∅))
  /\ (firesRestart ev st -> mounted st = true ->
      played (step w random ev st) = ∅).
Proof.
  split.
  - destruct ev as [cs|text|h|key|]; unfold step.
    + left. destruct (mounted st) eqn:Hm; [|reflexivity].
      rewrite commit_played, autoPlayEffect_played. unfold played.
      destruct (runAutoPlayCleanup_hooks (setComments cs st)) as (-> & _).
      unfold setComments, setHooks. now rewrite Hm.
    + left. destruct (bridge st); [|reflexivity].
      now rewrite commit_played, addDanmaku_played.
    + destruct (findTimer h (timers st)) as [t|] eqn:F; [|now left].
      rewrite commit_played.
      destruct (callback t) as [env l|env l|env l|] eqn:Hcb;
        unfold runCallback;
        try (left;
             change (played st)
               with (played (clearTimeout h st));
             apply (playNextBatch_played env w l (clearTimeout h st))).
      destruct (mounted st) eqn:Hm.
      * right. split; [exists h, t; repeat split; assumption|].
        unfold setPlayedCommentIds, setHooks, log, played. simpl.
        now rewrite Hm.
      * left. unfold setPlayedCommentIds, setHooks, log, played. simpl.
        now rewrite Hm.
    + left. destruct (List.find _ (units st)) as [ke|]; [|reflexivity].
      now rewrite commit_played, removeDanmaku_played.
    + left. destruct (mounted st); [|reflexivity].
      unfold unmount, played. simpl.
      now destruct (runAutoPlayCleanup_hooks st) as (-> & _).
  - intros (h & t & -> & F & Hcb) Hm. unfold step. rewrite F, Hcb.
    rewrite commit_played.
    unfold runCallback, setPlayedCommentIds, setHooks, log, played. simpl.
    now rewrite Hm.
Qed.

End PlayedGrowth.

Section PlayedGrowthWitness.
Import DanmakuManager Notions Scenario.

Lemma played_ids_witness :
  played (step narrow zeros (TimerFires 3)
               (run zeros (finishAll narrow (pool three_on_screen))
                    three_on_screen))
  = ∅.
Proof.
  apply (proj2 (played_ids_are_only_dropped_by_the_restart
                  zeros narrow (TimerFires 3)
                  (run zeros (finishAll narrow (pool three_on_screen))
                       three_on_screen))).
  - eexists 3, _. split; [reflexivity|]. split; vm_compute; reflexivity.
  - vm_compute. reflexivity.
Defined.

End PlayedGrowthWitness.

Section Reload.
Import DanmakuManager Notions.

Variable random : nat -> Q.
Hypothesis random_range : forall k, (0 <= random k /\ random k < 1)%Q.

Lemma commit_idle_cleanup (env : Hooks) (st : State) :
  isRestartingRef st = false ->
  autoPlayCleanup (commit random env st) = autoPlayCleanup st.
Proof.
  intros H. unfold commit. destruct (mounted st); [|reflexivity].
  match goal with |- context [if ?b then _ else _] => destruct b end.
  - reflexivity.
  - now rewrite restartEffect_idle.
Qed.

(** The cleanup of the auto-play effect on a quiet scheduler cancels the
    start timer, if one is pending. *)
Lemma runAutoPlayCleanup_quiet (st : State) :
  isRestartingRef st = false ->
  ((timers st = [] /\ isProcessingRef st = false)
   \/ (exists t r, timers st = [t] /\ autoPlayCleanup st = Some (handle t, r))) ->
  let st' := runAutoPlayCleanup st in
  timers st' = [] /\ isProcessingRef st' = false /\ isRestartingRef st' = false
  /\ hooks st' = hooks st /\ console st' = console st
  /\ mounted st' = mounted st /\ nextToken st' = nextToken st
  /\ drawn st' = drawn st.
Proof.
  intros Hr [[Ht Hp]|(t & r & Ht & Hc)]; cbv zeta.
  - exact (runAutoPlayCleanup_idle st Ht Hp Hr).
  - unfold runAutoPlayCleanup. rewrite Hc.
    destruct r as [h|]; unfold clearTimeout; simpl; rewrite Ht; simpl;
      rewrite Nat.eqb_refl; simpl; repeat split; auto.
Qed.

(** What the auto-play effect registers when it runs on an idle
    scheduler. *)
Lemma autoPlayEffect_registers (env : Hooks) (st : State) :
  timers st = [] -> isProcessingRef st = false -> isRestartingRef st = false ->
  mounted st = true ->
  let st' := autoPlayEffect random env st in
  (timers st' = [] /\ isProcessingRef st' = false)
  \/ (exists t r, timers st' = [t]
                  /\ autoPlayCleanup st' = Some (handle t, r)).
Proof.
  intros Ht Hp Hr Hm. cbv zeta. unfold autoPlayEffect.
  rewrite Hp, Hr. simpl orb. cbv iota.
  destruct (length (comments env) =? 0); [now left|].
  unfold sortComments.
  destruct (sort random (drawn st) _) as [sorted k].
  destruct (length sorted =? 0); [now left|].
  unfold setTimeout, setAutoPlayTimer, setHooks, clearTimeout.
  destruct (autoPlayTimer env) as [h|]; simpl; rewrite Ht, Hm; simpl;
    right; eexists _, _; split; reflexivity.
Qed.

(** Loading comments into a quiet scheduler: a pending start is
    cancelled and the start over the new set is armed in its place. *)
Lemma commentsLoaded_quiet (w : Z) (cs : list Comment.t) (st : State) :
  quiet st ->
  let env := hooks_comments cs (hooks st) in
  let l := fst (sort random (drawn st)
                     (List.filter
                        (fun c => unplayed (played st) c && validText c) cs)) in
  let st' := step w random (CommentsLoaded cs) st in
  quiet st'
  /\ released st' = released st
  /\ pool st' = pool st
  /\ played st' = played st
  /\ comments (hooks st') = cs
  /\ nextToken st' = nextToken st
  /\ unitsMounted st'
  /\ match l with
     | [] => timers st' = []
     | _ => batchPending env l st'
     end.
Proof.
  intros (Hm & Hr & Hq). cbv zeta. unfold step. rewrite Hm.
  unfold setComments, setHooks. rewrite Hm.
  set (st0 := with_hooks (hooks_comments cs (hooks st)) st).
  change (hooks st0) with (hooks_comments cs (hooks st)).
  destruct (runAutoPlayCleanup_quiet st0 Hr Hq)
    as (Kt & Kp & Kr & Kh & Kc & Km & Ktok & Kd).
  set (st1 := runAutoPlayCleanup st0) in *.
  assert (Km1 : mounted st1 = true) by (rewrite Km; exact Hm).
  pose proof (autoPlayEffect_idle random (hooks_comments cs (hooks st)) st1
                                  Kt Kp Kr Km1) as E.
  pose proof (autoPlayEffect_registers (hooks_comments cs (hooks st)) st1
                                       Kt Kp Kr Km1) as G.
  cbv zeta in E, G. rewrite Kd in E.
  change (drawn st0) with (drawn st) in E.
  change (comments (hooks_comments cs (hooks st))) with cs in E.
  change (playedCommentIds (hooks_comments cs (hooks st)))
    with (played st) in E.
  set (st2 := autoPlayEffect random (hooks_comments cs (hooks st)) st1) in *.
  destruct E as (Ec & Ea & Epl & Eco & Etok & Em & Er & Etim).
  pose proof G as Gq.
  destruct (commit_idle random (hooks_comments cs (hooks st)) st2 Er)
    as (Ch & Ct & Cc & Cm & Cr & Cp & Ctok & _ & _).
  pose proof (commit_idle_cleanup (hooks_comments cs (hooks st)) st2 Er) as Ccl.
  assert (Hsync : unitsMounted
                    (commit random (hooks_comments cs (hooks st)) st2)).
  { unfold unitsMounted. rewrite commit_units by exact Em.
    rewrite Ch, Ea, Kh. reflexivity. }
  set (st3 := commit random (hooks_comments cs (hooks st)) st2) in *.
  unfold pool, played in *.
  rewrite Kh in *.
  split; [|repeat split; try congruence].
  - split; [congruence|]. split; [exact Cr|].
    rewrite Ct, Cp, Ccl. exact Gq.
  - apply released_console. rewrite Cc, Ec, Kc. reflexivity.
  - rewrite Ch, Ea. reflexivity.
  - rewrite Ch, Epl. reflexivity.
  - rewrite Ch, Eco. reflexivity.
  - rewrite Ctok, Etok, Ktok. reflexivity.
  - match goal with |- match ?l with _ => _ end => destruct l as [|c r] end.
    + congruence.
    + destruct Etim as [t [Et Hrest]]. exists t. split; [congruence|exact Hrest].
Qed.

(** X10.  A comment set loaded while the start timer of an earlier load
    is still pending replaces it: the pending start is cancelled, and
    once the timers have fired exactly the unplayed comments of valid
    text of the latest set have been released, in the order the jittered
    sort gave them.  What only the earlier set held is not released. *)
Theorem reload_before_start_replaces_pending_batch (w1 w2 : Z)
        (widths : list Z) (cs1 cs2 : list Comment.t) (st : State) :
  quiet st -> length (pool st) < 8 -> length cs2 <= length widths ->
  let st1 := step w1 random (CommentsLoaded cs1) st in
  let l := fst (sort random (drawn st1)
                     (List.filter
                        (fun c => unplayed (played st) c && validText c) cs2)) in
  let st' := drain random widths (step w2 random (CommentsLoaded cs2) st1) in
  released st' = released st ++ l
  /\ played st' = played st ∪ list_to_set (map Comment.id l)
  /\ timers st' = []
  /\ comments (hooks st') = cs2.
Proof.
  intros Hq Hact Hlen. cbv zeta.
  destruct (commentsLoaded_quiet w1 cs1 st Hq)
    as (Q1 & R1 & P1 & Pl1 & _).
  set (st1 := step w1 random (CommentsLoaded cs1) st) in *.
  destruct (commentsLoaded_quiet w2 cs2 st1 Q1)
    as (Q2 & R2 & P2 & Pl2 & C2 & T2 & S2 & Tim2).
  cbv zeta in Tim2. rewrite Pl1 in Tim2.
  set (st2 := step w2 random (CommentsLoaded cs2) st1) in *.
  set (l := fst (sort random (drawn st1) _)) in *.
  assert (Hv : Forall (fun c => validText c = true) l).
  { apply sort_Forall, filter_validText_Forall. }
  assert (Hact' : length (activeDanmaku (hooks_comments cs2 (hooks st1))) < 8).
  { change (length (pool st1) < 8). now rewrite P1. }
  assert (Hl : length l <= length widths).
  { unfold l. rewrite sort_length.
    etransitivity; [apply List.filter_length_le|exact Hlen]. }
  destruct Q2 as (M2 & Rr2 & _).
  destruct (drain_releases random random_range widths
              (hooks_comments cs2 (hooks st1)) l st2
              Hl M2 Rr2 Hact' Hv Tim2 S2)
    as (Drel & _ & Dplayed & Dtim & _ & _ & Dcom & _).
  rewrite Drel, Dplayed, Dcom, R2, R1, Pl2, Pl1, C2.
  repeat split; auto.
Qed.

End Reload.

Section ReloadWitness.
Import DanmakuManager Notions Scenario.

Lemma reload_witness :
  let st1 := step narrow zeros (CommentsLoaded four) initial in
  let l := fst (sort zeros (drawn st1)
                     (List.filter
                        (fun c => unplayed (played initial) c && validText c)
                        hi_blank)) in
  let st' := drain zeros [narrow; narrow]
                   (step narrow zeros (CommentsLoaded hi_blank) st1) in
  released st' = released initial ++ l
  /\ played st' = played initial ∪ list_to_set (map Comment.id l)
  /\ timers st' = []
  /\ comments (hooks st') = hi_blank.
Proof.
  apply (reload_before_start_replaces_pending_batch
           zeros zeros_range narrow narrow [narrow; narrow] four hi_blank
           initial).
  - split; [reflexivity|]. split; [reflexivity|]. left. split; reflexivity.
  - vm_compute. lia.
  - vm_compute. lia.
Defined.

End ReloadWitness.

Section RestartReload.
Import DanmakuManager Notions.

Variable random : nat -> Q.
Hypothesis random_range : forall k, (0 <= random k /\ random k < 1)%Q.

Lemma awaitingRestart_timer (t : Timer) (st : State) :
  awaitingRestart st -> timers st = [t] -> callback t = RestartLoop.
Proof.
  intros (_ & _ & (t' & Ht' & Hcb) & _) Ht. rewrite Ht in Ht'.
  inversion Ht'. now subst.
Qed.

Lemma clearTimeout_other (h : nat) (t : Timer) (st : State) :
  timers st = [t] -> h <> handle t -> timers (clearTimeout h st) = [t].
Proof.
  intros Ht Hne. unfold clearTimeout. simpl. rewrite Ht. simpl.
  destruct (Nat.eqb_spec (handle t) h) as [E|E]; [congruence|reflexivity].
Qed.

(** The commit after a task that left the restart flag up and the played
    set non-empty only records units and dependencies. *)
Lemma commit_waiting (env : Hooks) (st : State) :
  mounted st = true -> 0 < size (playedCommentIds env) ->
  let st' := commit random env st in
  hooks st' = hooks st /\ timers st' = timers st /\ console st' = console st
  /\ mounted st' = true /\ isRestartingRef st' = isRestartingRef st
  /\ isProcessingRef st' = isProcessingRef st
  /\ nextToken st' = nextToken st /\ drawn st' = drawn st
  /\ (restartDeps st = (size (playedCommentIds env), length (comments env))
      \/ restartDeps st' = (size (playedCommentIds env), length (comments env))).
Proof.
  intros Hm Hs. cbv zeta. unfold commit. rewrite Hm. cbv zeta.
  simpl fst. simpl snd.
  change (restartDeps (with_units (mountUnits env (units st)) st))
    with (restartDeps st).
  destruct ((size (playedCommentIds env) =? fst (restartDeps st))
            && (length (comments env) =? snd (restartDeps st))) eqn:E.
  - simpl. repeat split; auto. left.
    apply andb_true_iff in E. destruct E as [E1 E2].
    apply Nat.eqb_eq in E1, E2. destruct (restartDeps st); simpl in *.
    congruence.
  - unfold restartEffect.
    replace (size (playedCommentIds env) =? 0) with false
      by (symmetry; apply Nat.eqb_neq; lia).
    simpl. repeat split; auto.
Qed.

(** Loading comments while the scheduler waits for the restart, when the
    registered cleanup holds no restart timer: the new set is stored and
    nothing else changes. *)
Lemma commentsLoaded_awaiting (w : Z) (cs : list Comment.t) (t : Timer)
      (st : State) :
  awaitingRestart st -> timers st = [t] -> cleanupSpares t st ->
  0 < size (played st) ->
  let st' := step w random (CommentsLoaded cs) st in
  awaitingRestart st'
  /\ timers st' = [t]
  /\ comments (hooks st') = cs
  /\ played st' = played st
  /\ pool st' = pool st
  /\ released st' = released st
  /\ nextToken st' = nextToken st
  /\ drawn st' = drawn st.
Proof.
  intros Ha Ht Hc Hs. pose proof (awaitingRestart_timer t st Ha Ht) as Hcb.
  destruct Ha as (Hm & Hr & _ & Hdeps). cbv zeta.
  unfold step. rewrite Hm. unfold setComments, setHooks. rewrite Hm.
  set (st0 := with_hooks (hooks_comments cs (hooks st)) st).
  change (hooks st0) with (hooks_comments cs (hooks st)).
  set (env := hooks_comments cs (hooks st)).
  assert (K : timers (runAutoPlayCleanup st0) = [t]
              /\ isRestartingRef (runAutoPlayCleanup st0) = true
              /\ hooks (runAutoPlayCleanup st0) = env
              /\ console (runAutoPlayCleanup st0) = console st
              /\ mounted (runAutoPlayCleanup st0) = true
              /\ nextToken (runAutoPlayCleanup st0) = nextToken st
              /\ drawn (runAutoPlayCleanup st0) = drawn st
              /\ restartDeps (runAutoPlayCleanup st0) = restartDeps st).
  { unfold runAutoPlayCleanup, cleanupSpares in *.
    change (autoPlayCleanup st0) with (autoPlayCleanup st).
    destruct (autoPlayCleanup st) as [[h [r|]]|]; [contradiction| |].
    - assert (Hc0 : timers (clearTimeout h st0) = [t])
        by (apply clearTimeout_other; [exact Ht|exact Hc]).
      repeat split; auto.
    - repeat split; auto. }
  destruct K as (Kt & Kr & Kh & Kc & Km & Ktok & Kd & Kdeps).
  set (st1 := runAutoPlayCleanup st0) in *.
  assert (E : autoPlayEffect random env st1 = with_autoPlayCleanup None st1).
  { unfold autoPlayEffect. rewrite Kr. now rewrite orb_true_r. }
  rewrite E.
  set (st2 := with_autoPlayCleanup None st1).
  assert (Hs2 : 0 < size (playedCommentIds env)) by exact Hs.
  assert (Hm2 : mounted st2 = true) by exact Km.
  destruct (commit_waiting env st2 Hm2 Hs2)
    as (Ch & Ct & Cc & Cm & Cr & _ & Ctok & Cd & Cdeps).
  set (st3 := commit random env st2) in *.
  change (hooks st2) with (hooks st1) in Ch.
  change (timers st2) with (timers st1) in Ct.
  change (console st2) with (console st1) in Cc.
  change (isRestartingRef st2) with (isRestartingRef st1) in Cr.
  change (nextToken st2) with (nextToken st1) in Ctok.
  change (drawn st2) with (drawn st1) in Cd.
  change (restartDeps st2) with (restartDeps st1) in Cdeps.
  assert (Hh : hooks st3 = env) by congruence.
  assert (Hsync : restartDeps st3
                  = (size (played st3), length (comments (hooks st3)))).
  { unfold played. rewrite Hh. destruct Cdeps as [D|D]; [|exact D].
    unfold commit in st3. subst st3. rewrite Hm2.
    cbv zeta. simpl fst. simpl snd.
    change (restartDeps (with_units (mountUnits env (units st2)) st2))
      with (restartDeps st1).
    rewrite D. simpl fst. simpl snd. rewrite !Nat.eqb_refl. simpl.
    exact D. }
  unfold pool, played. rewrite Hh.
  repeat split; try congruence.
  - exists t. split; [congruence|exact Hcb].
  - apply released_console. congruence.
Qed.

(** X11.  Comments loaded while the scheduler waits out the 3 s before a
    restart are not played at once and arm no timer of their own, as long
    as the cleanup registered by the auto-play effect holds no restart
    timer: the restart stays armed, and the cycle it starts releases
    every comment of valid text of the set just loaded. *)
Theorem load_during_restart_wait_is_played_by_the_restart (w w' : Z)
        (widths : list Z) (cs : list Comment.t) (t : Timer) (st : State) :
  awaitingRestart st -> timers st = [t] -> cleanupSpares t st ->
  0 < size (played st) -> length (pool st) < 8 ->
  length cs <= length widths ->
  let st1 := step w random (CommentsLoaded cs) st in
  let l := fst (sort random (drawn st) (List.filter validText cs)) in
  let st' := drain random widths (fireNext random st1 w') in
  timers st1 = [t]
  /\ released st1 = released st
  /\ released st' = released st ++ l
  /\ played st' = list_to_set (map Comment.id l)
  /\ timers st' = [].
Proof.
  intros Ha Ht Hc Hs Hact Hlen. cbv zeta.
  destruct (commentsLoaded_awaiting w cs t st Ha Ht Hc Hs)
    as (La & Lt & Lc & Lpl & Lp & Lr & Ltok & Ld).
  set (st1 := step w random (CommentsLoaded cs) st) in *.
  pose proof (awaitingRestart_timer t st1 La Lt) as Hcb.
  destruct La as (Lm & Lrr & _ & Ldeps).
  assert (Hs1 : 0 < size (played st1)) by (rewrite Lpl; exact Hs).
  assert (Hact1 : length (pool st1) < 8) by (rewrite Lp; exact Hact).
  assert (Hlen1 : length (comments (hooks st1)) <= length widths)
    by (rewrite Lc; exact Hlen).
  destruct (restart_cycle_released random w' widths t st1 random_range
              Lm Lt Hcb Lrr Ldeps Hs1 Hact1 Hlen1)
    as (Rrel & Rpl & _ & Rt).
  rewrite Ld, Lc, Lr in Rrel. rewrite Ld, Lc in Rpl.
  repeat split; auto.
Qed.

Lemma filter_all_played (P : gset (option string)) (cs : list Comment.t) :
  (forall c, In c cs -> validText c = true -> Comment.id c ∈ P) ->
  List.filter (fun c => unplayed P c && validText c) cs = [].
Proof.
  intros H. induction cs as [|c cs IH]; [reflexivity|]. simpl.
  destruct (validText c) eqn:V.
  - assert (Hin : Comment.id c ∈ P) by (apply H; [now left|exact V]).
    unfold unplayed. rewrite bool_decide_eq_false_2 by (intros N; now apply N).
    simpl. apply IH. intros c' Hc'. apply H. now right.
  - rewrite andb_false_r. apply IH. intros c' Hc'. apply H. now right.
Qed.

(** X12.  When the cleanup registered by the auto-play effect holds the
    handle of an earlier restart timer, loading comments while the
    scheduler waits for the restart lowers the restart flag but leaves
    the restart timer armed.  If the loaded set brings no unplayed
    comment of valid text, that timer then empties the played set
    without starting a cycle: no timer is left and nothing more is
    released, however long the host goes on firing timers. *)
Theorem reload_during_later_restart_wait_stops_the_loop (w w' : Z)
        (widths : list Z) (cs : list Comment.t) (r : nat) (t : Timer)
        (st : State) :
  awaitingRestart st -> timers st = [t] -> cleanupHoldsRestart r t st ->
  (forall c, In c cs -> validText c = true -> Comment.id c ∈ played st) ->
  let st1 := step w random (CommentsLoaded cs) st in
  let st2 := fireNext random st1 w' in
  isRestartingRef st1 = false
  /\ timers st1 = [t]
  /\ played st2 = ∅
  /\ timers st2 = []
  /\ released (drain random widths st2) = released st.
Proof.
  intros Ha Ht (h & Hc & Hh & Hrr) Hall.
  pose proof (awaitingRestart_timer t st Ha Ht) as Hcb.
  destruct Ha as (Hm & Hr & _ & Hdeps). cbv zeta.
  assert (S1 : let st1 := step w random (CommentsLoaded cs) st in
               isRestartingRef st1 = false /\ timers st1 = [t]
               /\ mounted st1 = true /\ console st1 = console st).
  { cbv zeta. unfold step. rewrite Hm. unfold setComments, setHooks.
    rewrite Hm.
    set (st0 := with_hooks (hooks_comments cs (hooks st)) st).
    change (hooks st0) with (hooks_comments cs (hooks st)).
    set (env := hooks_comments cs (hooks st)).
    assert (K : timers (runAutoPlayCleanup st0) = [t]
                /\ isRestartingRef (runAutoPlayCleanup st0) = false
                /\ isProcessingRef (runAutoPlayCleanup st0) = false
                /\ console (runAutoPlayCleanup st0) = console st
                /\ mounted (runAutoPlayCleanup st0) = true).
    { unfold runAutoPlayCleanup.
      change (autoPlayCleanup st0) with (autoPlayCleanup st). rewrite Hc.
      assert (Hc0 : timers (clearTimeout h st0) = [t])
        by (apply clearTimeout_other; [exact Ht|exact Hh]).
      assert (Hc1 : timers (clearTimeout r (with_isProcessingRef false
                                              (clearTimeout h st0))) = [t])
        by (apply clearTimeout_other; [exact Hc0|exact Hrr]).
      repeat split; auto. }
    destruct K as (Kt & Kr & Kp & Kc & Km).
    set (st1 := runAutoPlayCleanup st0) in *.
    assert (E : autoPlayEffect random env st1 = with_autoPlayCleanup None st1
                \/ exists k, autoPlayEffect random env st1
                             = with_autoPlayCleanup None (with_drawn k st1)).
    { unfold autoPlayEffect. rewrite Kp, Kr. simpl orb. cbv iota.
      destruct (length (comments env) =? 0); [now left|].
      unfold sortComments.
      change (playedCommentIds env) with (played st).
      change (comments env) with cs.
      rewrite filter_all_played by exact Hall.
      rewrite sort_nil. right. now eexists. }
    assert (E' : isRestartingRef (autoPlayEffect random env st1) = false
                 /\ timers (autoPlayEffect random env st1) = [t]
                 /\ mounted (autoPlayEffect random env st1) = true
                 /\ console (autoPlayEffect random env st1) = console st).
    { destruct E as [->|[k ->]]; repeat split; auto. }
    destruct E' as (Er & Et & Em & Ec).
    destruct (commit_idle random env (autoPlayEffect random env st1) Er)
      as (_ & Ct & Cc & Cm & Cr & _).
    repeat split; congruence. }
  cbv zeta in S1. destruct S1 as (Sr & St & Sm & Sc).
  set (st1 := step w random (CommentsLoaded cs) st) in *.
  assert (S2 : let st2 := fireNext random st1 w' in
               played st2 = ∅ /\ timers st2 = []
               /\ released st2 = released st).
  { cbv zeta. unfold fireNext. rewrite St. unfold step.
    rewrite St, findTimer_head, Hcb.
    pose proof (clearTimeout_single t st1 St) as Hclear.
    set (st0 := clearTimeout (handle t) st1) in *.
    unfold runCallback, setPlayedCommentIds, setHooks, log.
    change (mounted (with_console (console st0 ++ [LogRestarting]) st0))
      with (mounted st1).
    rewrite Sm.
    set (st3 := with_isProcessingRef false _).
    assert (R3 : isRestartingRef st3 = false) by exact Sr.
    destruct (commit_idle random (hooks st3) st3 R3)
      as (Ch & Ct & Cc & _).
    unfold played. rewrite Ch, Ct.
    unfold released. rewrite Cc.
    unfold st3. simpl. rewrite omap_app. simpl. rewrite app_nil_r.
    change (console st0) with (console st1). rewrite Sc.
    repeat split; auto. }
  cbv zeta in S2. destruct S2 as (Pe & Te & Re).
  rewrite drain_no_timer by exact Te.
  repeat split; auto.
Qed.

End RestartReload.

Section RestartReloadWitness.
Import DanmakuManager Notions Scenario Replays.

Lemma load_during_restart_wait_witness :
  let t := {| handle := 3; delay := 3000; callback := RestartLoop |} in
  let st := awaiting_first_restart in
  let st1 := step narrow zeros (CommentsLoaded four) st in
  let l := fst (sort zeros (drawn st) (List.filter validText four)) in
  let st' := drain zeros [narrow; narrow; narrow; narrow]
                   (fireNext zeros st1 narrow) in
  timers st1 = [t]
  /\ released st1 = released st
  /\ released st' = released st ++ l
  /\ played st' = list_to_set (map Comment.id l)
  /\ timers st' = [].
Proof.
  apply (load_during_restart_wait_is_played_by_the_restart
           zeros zeros_range narrow narrow [narrow; narrow; narrow; narrow]
           four {| handle := 3; delay := 3000; callback := RestartLoop |}
           awaiting_first_restart).
  - split; [vm_compute; reflexivity|]. split; [vm_compute; reflexivity|].
    split; [|vm_compute; reflexivity].
    eexists. split; vm_compute; reflexivity.
  - vm_compute. reflexivity.
  - vm_compute. lia.
  - vm_compute. lia.
  - vm_compute. lia.
  - vm_compute. lia.
Defined.

Lemma reload_stops_the_loop_witness :
  let t := {| handle := 7; delay := 3000; callback := RestartLoop |} in
  let st := awaiting_second_restart in
  let st1 := step narrow zeros (CommentsLoaded four) st in
  let st2 := fireNext zeros st1 narrow in
  isRestartingRef st1 = false
  /\ timers st1 = [t]
  /\ played st2 = ∅
  /\ timers st2 = []
  /\ released (drain zeros [narrow; narrow; narrow] st2) = released st.
Proof.
  apply (reload_during_later_restart_wait_stops_the_loop
           zeros narrow narrow [narrow; narrow; narrow] four 3
           {| handle := 7; delay := 3000; callback := RestartLoop |}
           awaiting_second_restart).
  - split; [vm_compute; reflexivity|]. split; [vm_compute; reflexivity|].
    split; [|vm_compute; reflexivity].
    eexists. split; vm_compute; reflexivity.
  - vm_compute. reflexivity.
  - exists 6. split; [vm_compute; reflexivity|]. split; simpl; lia.
  - intros c Hc _. simpl in Hc.
    destruct Hc as [<-|[<-|[<-|[<-|[]]]]]; vm_compute; reflexivity.
Defined.

End RestartReloadWitness.

Section RestartCycle.
Import DanmakuManager Notions.

Variable random : nat -> Q.
Hypothesis random_range : forall k, (0 <= random k /\ random k < 1)%Q.

(** X13.  When the restart timer fires on a scheduler that waits for it,
    the played set is emptied and a new cycle starts: once the timers
    have fired, every comment of valid text the scheduler holds has been
    released once more, no comment after one created more than a second
    later than its successor, the played set holds exactly their ids and
    no timer is left. *)
Theorem restart_replays_every_valid_comment_once (w : Z) (widths : list Z)
        (t : Timer) (st : State) :
  awaitingRestart st -> timers st = [t] ->
  0 < size (played st) -> length (pool st) < 8 ->
  length (comments (hooks st)) <= length widths ->
  let st' := drain random widths (fireNext random st w) in
  exists l,
    released st' = released st ++ l
    /\ Permutation l (List.filter validText (comments (hooks st)))
    /\ chained notMuchLater l
    /\ played st' = list_to_set (map Comment.id l)
    /\ timers st' = [].
Proof.
  intros Ha Ht Hs Hact Hlen. cbv zeta.
  pose proof (awaitingRestart_timer t st Ha Ht) as Hcb.
  destruct Ha as (Hm & Hr & _ & Hdeps).
  destruct (restart_cycle_released random w widths t st random_range
              Hm Ht Hcb Hr Hdeps Hs Hact Hlen)
    as (Rrel & Rpl & _ & Rt).
  eexists. split; [exact Rrel|].
  split; [apply sort_perm|]. split; [now apply sort_chained|].
  split; [exact Rpl|exact Rt].
Qed.

End RestartCycle.

Section RestartCycleWitness.
Import DanmakuManager Notions Scenario Replays.

Lemma restart_replays_witness :
  let st := awaiting_first_restart in
  let st' := drain zeros [narrow; narrow; narrow] (fireNext zeros st narrow) in
  exists l,
    released st' = released st ++ l
    /\ Permutation l (List.filter validText (comments (hooks st)))
    /\ chained notMuchLater l
    /\ played st' = list_to_set (map Comment.id l)
    /\ timers st' = [].
Proof.
  apply (restart_replays_every_valid_comment_once
           zeros zeros_range narrow [narrow; narrow; narrow]
           {| handle := 3; delay := 3000; callback := RestartLoop |}
           awaiting_first_restart).
  - split; [vm_compute; reflexivity|]. split; [vm_compute; reflexivity|].
    split; [|vm_compute; reflexivity].
    eexists. split; vm_compute; reflexivity.
  - vm_compute. reflexivity.
  - vm_compute. lia.
  - vm_compute. lia.
  - vm_compute. lia.
Defined.

End RestartCycleWitness.

Section HoverProgress.
Import DanmakuComment Notions.

Lemma travelling_run (es : list Event) :
  forall hover t,
    forallb (fun e => negb (isTeardown e)) es = true ->
    (t + playedTime hover es < duration)%N ->
    run es (travelling hover t)
    = travelling (hoverAfter hover es) (t + playedTime hover es).
Proof.
  induction es as [|e es IH]; intros hover t Hno Hlt.
  - simpl. now rewrite N.add_0_r.
  - simpl in Hno. apply andb_true_iff in Hno. destruct Hno as [He Hno].
    rewrite run_cons. destruct e as [| |ms|]; [| | |discriminate He].
    + change (step MouseEnter (travelling hover t)) with (travelling true t).
      now apply IH.
    + change (step MouseLeave (travelling hover t)) with (travelling false t).
      now apply IH.
    + destruct hover.
      * change (step (Elapse ms) (travelling true t)) with (travelling true t).
        simpl in Hlt. simpl. now apply IH.
      * simpl in Hlt.
        assert (E : step (Elapse ms) (travelling false t)
                    = travelling false (t + ms)).
        { unfold step, travelling. simpl.
          destruct (N.leb_spec duration (t + ms)); [lia|reflexivity]. }
        rewrite E. simpl.
        replace (t + (ms + playedTime false es))%N
          with (t + ms + playedTime false es)%N by lia.
        apply IH; [exact Hno|lia].
Qed.

(** X14.  A unit that has not been torn down and has not yet travelled
    its 16 s is still mounted with its animation in place; the animation
    is paused exactly when the pointer is over the unit, and its position
    is the time that elapsed while the pointer was away, so a pause
    neither loses nor gains progress. *)
Theorem hover_pauses_without_losing_progress (es : list Event) :
  forallb (fun e => negb (isTeardown e)) es = true ->
  (playedTime false es < duration)%N ->
  run es mountUnit
  = travelling (hoverAfter false es) (playedTime false es).
Proof.
  intros Hno Hlt. change mountUnit with (travelling false 0).
  now rewrite travelling_run.
Qed.

Lemma hover_progress_witness :
  run [Elapse 9000; MouseEnter; Elapse 20000; MouseLeave; Elapse 1000;
       MouseEnter] mountUnit
  = travelling true 10000.
Proof.
  apply (hover_pauses_without_losing_progress
           [Elapse 9000; MouseEnter; Elapse 20000; MouseLeave; Elapse 1000;
            MouseEnter]); reflexivity.
Defined.

End HoverProgress.

Section Submission.
Import Shell.

Variable random : nat -> Q.

Lemma manual_pool (w : Z) (s : JS.str) (dm : DanmakuManager.State) :
  JS.isEmpty (JS.trim s) = false ->
  DanmakuManager.bridge dm = true -> DanmakuManager.mounted dm = true ->
  DanmakuManager.pool
    (DanmakuManager.step w random (DanmakuManager.Manual (Some (JS.trim s))) dm)
  = DanmakuManager.pool dm
    ++ [{| Danmaku.id := DanmakuManager.nextToken dm;
           Danmaku.text := JS.trim s;
           Danmaku.commentId := None;
           Danmaku.likesCount := 0 |}].
Proof.
  intros Hs Hb Hm. unfold DanmakuManager.step. rewrite Hb.
  rewrite commit_pool. unfold DanmakuManager.addDanmaku.
  rewrite trim_idem, Hs, orb_diag.
  unfold DanmakuManager.rand, DanmakuManager.setActiveDanmaku,
    DanmakuManager.setHooks, DanmakuManager.pool.
  simpl. rewrite Hm. reflexivity.
Qed.

Lemma manual_comments_played (w : Z) (text : option JS.str)
      (dm : DanmakuManager.State) :
  let dm' := DanmakuManager.step w random (DanmakuManager.Manual text) dm in
  DanmakuManager.comments (DanmakuManager.hooks dm')
  = DanmakuManager.comments (DanmakuManager.hooks dm)
  /\ DanmakuManager.played dm' = DanmakuManager.played dm.
Proof.
  cbv zeta. unfold DanmakuManager.step.
  destruct (DanmakuManager.bridge dm); [|split; reflexivity].
  rewrite commit_played, addDanmaku_played.
  destruct (commit_frame random
              (DanmakuManager.hooks
                 (DanmakuManager.addDanmaku random text None dm))
              (DanmakuManager.addDanmaku random text None dm)) as (-> & _).
  split; [|reflexivity].
  unfold DanmakuManager.addDanmaku. destruct text as [s|]; [|reflexivity].
  destruct (JS.isEmpty s || JS.isEmpty (JS.trim s)); [reflexivity|].
  unfold DanmakuManager.rand, DanmakuManager.setActiveDanmaku,
    DanmakuManager.setHooks. simpl.
  destruct (DanmakuManager.mounted dm); reflexivity.
Qed.

(** X15.  A submission is dropped without any effect when the typed text
    is blank, another submission is in flight or there is no visitor id.
    Otherwise, when the store accepts it, the new comment is put in front
    of the list, which keeps at most 100 entries, the input is cleared
    and the trimmed text is shown at once as one unit that carries no
    comment id, while the scheduler's own comments and played set stay as
    they were.  When the store rejects it, the list and the typed text
    stay as they were and nothing is shown. *)
Theorem submission_guards_and_outcome (nowIso : string) (w : Z) (st : State)
        (dm : DanmakuManager.State) :
  ((JS.isEmpty (JS.trim (inputValue st)) = true \/ loading st = true
    \/ userId st = ""%string) ->
   forall reply, submit nowIso w random reply st dm = (st, dm))
  /\ (JS.isEmpty (JS.trim (inputValue st)) = false -> loading st = false ->
      userId st <> ""%string ->
      (forall o,
          let r := submit nowIso w random (Resolved o) st dm in
          comments (fst r) = localComment o :: take 99 (comments st)
          /\ length (comments (fst r)) <= 100
          /\ inputValue (fst r) = []
          /\ loading (fst r) = false
          /\ userId (fst r) = userId st
          /\ DanmakuManager.comments (DanmakuManager.hooks (snd r))
             = DanmakuManager.comments (DanmakuManager.hooks dm)
          /\ DanmakuManager.played (snd r) = DanmakuManager.played dm
          /\ (DanmakuManager.bridge dm = true ->
              DanmakuManager.mounted dm = true ->
              DanmakuManager.pool (snd r)
              = DanmakuManager.pool dm
                ++ [{| Danmaku.id := DanmakuManager.nextToken dm;
                       Danmaku.text := JS.trim (inputValue st);
                       Danmaku.commentId := None;
                       Danmaku.likesCount := 0 |}])
          /\ (DanmakuManager.bridge dm = false -> snd r = dm))
      /\ submit nowIso w random Rejected st dm = (st, dm)).
Proof.
  split.
  - intros H reply. unfold submit, submitBegin.
    assert (G : JS.isEmpty (JS.trim (inputValue st)) || loading st
                || String.eqb (userId st) "" = true).
    { destruct H as [H|[H|H]]; rewrite H; simpl;
        rewrite ?orb_true_r; reflexivity. }
    now rewrite G.
  - intros H1 H2 H3. unfold submit, submitBegin.
    rewrite H1, H2. simpl orb.
    destruct (String.eqb_spec (userId st) "") as [E|_]; [contradiction|].
    split.
    + intros o. cbv zeta. unfold submitEnd.
      cbn [fst snd comments inputValue loading userId text].
      destruct (manual_comments_played w (Some (JS.trim (inputValue st))) dm)
        as (Mc & Mp).
      repeat split; auto.
      * simpl. rewrite length_take. lia.
      * intros Hb Hm. now apply manual_pool.
      * intros Hb. unfold DanmakuManager.step. now rewrite Hb.
    + unfold submitEnd. destruct st as [u c i l]. simpl in *. now subst l.
Qed.

End Submission.

Section SubmissionWitness.
Import Shell Scenario.

Lemma submission_witness :
  let st := {| userId := "user_1_abc"; comments := three;
               inputValue := JS.ofString "  hello "; loading := false |} in
  (forall o,
      let r := submit "2025-09-01T00:00:00.000Z" narrow zeros (Resolved o) st
                      DanmakuManager.initial in
      comments (fst r) = localComment o :: take 99 (comments st)
      /\ length (comments (fst r)) <= 100
      /\ inputValue (fst r) = []
      /\ loading (fst r) = false
      /\ userId (fst r) = userId st
      /\ DanmakuManager.comments (DanmakuManager.hooks (snd r))
         = DanmakuManager.comments (DanmakuManager.hooks DanmakuManager.initial)
      /\ DanmakuManager.played (snd r)
         = DanmakuManager.played DanmakuManager.initial
      /\ (DanmakuManager.bridge DanmakuManager.initial = true ->
          DanmakuManager.mounted DanmakuManager.initial = true ->
          DanmakuManager.pool (snd r)
          = DanmakuManager.pool DanmakuManager.initial
            ++ [{| Danmaku.id := DanmakuManager.nextToken DanmakuManager.initial;
                   Danmaku.text := JS.trim (inputValue st);
                   Danmaku.commentId := None;
                   Danmaku.likesCount := 0 |}])
      /\ (DanmakuManager.bridge DanmakuManager.initial = false ->
          snd r = DanmakuManager.initial))
  /\ submit "2025-09-01T00:00:00.000Z" narrow zeros Rejected st
            DanmakuManager.initial
     = (st, DanmakuManager.initial).
Proof.
  apply (proj2 (submission_guards_and_outcome
                  zeros "2025-09-01T00:00:00.000Z" narrow
                  {| userId := "user_1_abc"; comments := three;
                     inputValue := JS.ofString "  hello "; loading := false |}
                  DanmakuManager.initial)).
  - reflexivity.
  - reflexivity.
  - discriminate.
Defined.

End SubmissionWitness.

Section VisitorId.
Import Shell.

Lemma generateId_not_empty (now random36 : string) :
  generateId now random36 <> ""%string.
Proof. unfold generateId. simpl. discriminate. Qed.

(** X16.  The visitor id the shell settles on is never empty and is the
    one the storage holds afterwards; an id already stored is kept, and a
    later visit from the same storage gets the same id whatever the clock
    and the random source give then. *)
Theorem visitor_id_is_created_once_and_kept (now random36 : string)
        (ls : Storage) :
  let r := initUserId now random36 ls in
  fst r <> ""%string
  /\ iphone17_user_id (snd r) = Some (fst r)
  /\ (forall uid, iphone17_user_id ls = Some uid -> uid <> ""%string ->
                  r = (uid, ls))
  /\ (forall now' random36', initUserId now' random36' (snd r) = r).
Proof.
  cbv zeta. unfold initUserId.
  destruct (iphone17_user_id ls) as [uid|] eqn:E.
  - destruct (String.eqb_spec uid "") as [E0|E0].
    + simpl. split; [apply generateId_not_empty|]. split; [reflexivity|].
      split; [intros uid' H; inversion H; congruence|].
      intros now' random36'.
      destruct (String.eqb_spec (generateId now random36) "") as [G|G];
        [now apply generateId_not_empty in G|reflexivity].
    + simpl. split; [exact E0|]. split; [exact E|].
      split; [intros uid' H _; inversion H; reflexivity|].
      intros now' random36'. rewrite E.
      destruct (String.eqb_spec uid "") as [G|G]; [contradiction|reflexivity].
  - simpl. split; [apply generateId_not_empty|]. split; [reflexivity|].
    split; [intros uid' H; discriminate H|].
    intros now' random36'.
    destruct (String.eqb_spec (generateId now random36) "") as [G|G];
      [now apply generateId_not_empty in G|reflexivity].
Qed.

Lemma visitor_id_witness :
  initUserId "1756000000000" "k3j9x0q2a"
             {| iphone17_user_id := Some "user_1_abc"%string |}
  = ("user_1_abc"%string, {| iphone17_user_id := Some "user_1_abc"%string |}).
Proof.
  apply (proj1 (proj2 (proj2 (visitor_id_is_created_once_and_kept
                                "1756000000000" "k3j9x0q2a"
                                {| iphone17_user_id := Some "user_1_abc"%string |})))
               "user_1_abc"%string); [reflexivity|discriminate].
Defined.

End VisitorId.

Section StoreLikes.
Import ManagerLike.




End StoreLikes.
